(** * HANK + SAM fiscal-multiplier pipeline: labour-market calibration,
      unemployment Jacobian, splurge adjustment, experiments and multipliers.

    The development embeds the numeric glue of [dashboard/hank_sam.py]
    (and the notebook script [dashboard/hafiscal.py] it refactors).

    Conventions of the embedding.
    - numpy/Python floats are read as exact rationals ([Q], compared with
      [==]); every statement below is a statement of exact arithmetic.
    - one-dimensional arrays are [list Q], matrices are lists of rows, the
      three-dimensional Jacobian array is a list of planes.
    - [x[i]] on an array and [d[k]] on a dict can raise; such reads return
      [option] here.
    - arrays are taken with the shapes the code gives them: where numpy would
      raise on operands of different shapes, the list operations below
      truncate to the shorter one, and the statements carry the shapes as
      hypotheses.
    - the eigen-solver ([scipy.sparse.linalg.eigs]) and the linear
      impulse-response solver ([sequence_jacobian]) are libraries outside the
      repository; they enter as parameters.
    - an equilibrium block takes its arguments as paths over dates and is
      given by the values of its outputs at a date; [x(k)] is the path
      displaced by [k] periods.
    - [x ** y] with a fractional exponent and [np.log] have irrational
      values; they enter as parameters.
    - a division of Python floats by zero raises; a division of numpy floats
      by zero gives [inf] or [nan] without raising, and the statements that
      depend on such a quotient carry its denominator as a hypothesis. *)

From Stdlib Require Import QArith Qabs Lqa Lia.
From Stdlib Require Qpower.
From stdpp Require Import base gmap strings list.

Local Open Scope Q_scope.

(** ** Arrays *)

Abbreviation vec := (list Q).
Abbreviation matrix := (list (list Q)).
Abbreviation array3 := (list (list (list Q))).

(** Pointwise equality of arrays of rationals. *)
Definition vec_eq (u v : vec) : Prop := Forall2 Qeq u v.
Definition mat_eq (A B : matrix) : Prop := Forall2 vec_eq A B.

(** [np.sum] of a one-dimensional array. *)
Definition vsum (v : vec) : Q := foldr Qplus 0 v.

(** Inner product of a matrix row with a vector. *)
Definition dot (r v : vec) : Q := vsum (zip_with Qmult r v).

(** [np.dot(M, v)] for a two-dimensional [M] and a one-dimensional [v]. *)
Definition np_dot (M : matrix) (v : vec) : vec := map (fun r => dot r v) M.

(** Elementwise [u - v] and [v / c]. *)
Definition vsub (u v : vec) : vec := zip_with Qminus u v.
Definition vdiv (v : vec) (c : Q) : vec := map (fun x => x / c) v.

(** [np.sum(M, axis=0)] applied to a matrix with [n] columns. *)
Definition col_sums (n : nat) (M : matrix) : vec :=
  foldr (zip_with Qplus) (replicate n 0) M.

(** [np.zeros((a, b, c))]. *)
Definition zeros3 (a b c : nat) : array3 :=
  replicate a (replicate b (replicate c 0)).

(** [U[k, i, s]]. *)
Definition entry3 (U : array3) (k i s : nat) : option Q :=
  U !! k ≫= fun plane => plane !! i ≫= fun row => row !! s.

(** [U[:, i, s] = v]: plane [k] receives [v[k]] at row [i], column [s]. *)
Definition set_slice (U : array3) (i s : nat) (v : vec) : array3 :=
  imap (fun k plane =>
          match v !! k with
          | Some x => alter (fun row => <[s := x]> row) i plane
          | None => plane
          end) U.

(** ** Complex numbers, as the eigen-solver returns them *)

Record complex := Cx { re : Q; im : Q }.

Definition cadd (z w : complex) : complex := Cx (re z + re w) (im z + im w).
Definition cmul (z w : complex) : complex :=
  Cx (re z * re w - im z * im w) (re z * im w + im z * re w).
Definition cdiv (z w : complex) : complex :=
  let n := re w * re w + im w * im w in
  Cx ((re z * re w + im z * im w) / n) ((im z * re w - re z * im w) / n).
Definition csum (z : list complex) : complex := foldr cadd (Cx 0 0) z.
Definition cnonzero (z : complex) : Prop := ~ (re z == 0 /\ im z == 0).

(** ** Section 2 of the module: labour-market calibration *)

Section LaborMarket.

(** Module-level globals the calibration reads. *)
Variables (job_find EU_prob : Q).
Variable bigT : nat.

Definition job_sep : Q := EU_prob / (1 - job_find).

Definition markov_array_ss : matrix :=
    [ [1 - job_sep * (1 - job_find); job_find; job_find; job_find; job_find; job_find];
      [job_sep * (1 - job_find); 0; 0; 0; 0; 0];
      [0; 1 - job_find; 0; 0; 0; 0];
      [0; 0; 1 - job_find; 0; 0; 0];
      [0; 0; 0; 1 - job_find; 0; 0];
      [0; 0; 0; 0; 1 - job_find; 1 - job_find] ].

(** [eigs(markov_array_ss, k=1, which="LM")]: one eigenvalue and the
      column of its eigenvector. *)
Variable eigs : matrix -> complex * list complex.

(** Returns [(markov_array_ss, ss_dstn, U_ss, N_ss, num_mrkv)]. *)
Definition calibrate_labor_market : option (matrix * vec * Q * Q * nat) :=
    let num_mrkv := length markov_array_ss in
    let '(eigen, ss_dstn) := eigs markov_array_ss in
    let ss_dstn := map (fun z => cdiv z (csum ss_dstn)) ss_dstn in
    let ss_dstn := map re ss_dstn in
    ss0 ← ss_dstn !! 0%nat;
    let U_ss := 1 - ss0 in
    let N_ss := ss0 in
    Some (markov_array_ss, ss_dstn, U_ss, N_ss, num_mrkv).

Definition create_matrix_U (dx : Q) : matrix :=
    let job_find_dx := job_find + dx in
    [ [1 - job_sep * (1 - job_find_dx); job_find_dx; job_find_dx; job_find_dx;
       job_find_dx; job_find_dx];
      [job_sep * (1 - job_find_dx); 0; 0; 0; 0; 0];
      [0; 1 - job_find_dx; 0; 0; 0; 0];
      [0; 0; 1 - job_find_dx; 0; 0; 0];
      [0; 0; 0; 1 - job_find_dx; 0; 0];
      [0; 0; 0; 0; 1 - job_find_dx; 1 - job_find_dx] ].

Section UnemploymentJacobian.

(** Arguments of [compute_unemployment_jacobian]; the first shadows the
        global of the same name. *)
Variables (markov_array_ss_arg : matrix) (ss_dstn : vec) (num_mrkv : nat).
Variable dx : Q.

(** The transition applied at period [i] of shock column [s]. *)
Definition jacobian_step (s i : nat) (dstn : vec) : vec :=
      if (i =? s)%nat then
        let tranmat := create_matrix_U dx in
        np_dot tranmat dstn
      else np_dot markov_array_ss_arg dstn.

(** Body of the inner [for i] loop on the state [(dstn, UJAC)]. *)
Definition jacobian_body (s : nat) (st : vec * array3) (i : nat) : vec * array3 :=
      let dstn := jacobian_step s i (fst st) in
      (dstn, set_slice (snd st) i s (vdiv (vsub dstn ss_dstn) dx)).

(** The inner loop, [for i in range(bigT)], for one shock column. *)
Definition jacobian_column (st : vec * array3) (s : nat) : vec * array3 :=
      foldl (jacobian_body s) st (seq 0 bigT).

(** The state before the loops: [dstn = ss_dstn.copy()] and a zero array. *)
Definition jacobian_init : vec * array3 :=
      (ss_dstn, zeros3 num_mrkv bigT bigT).

(** The state after the first [n] shock columns. *)
Definition jacobian_columns (n : nat) : vec * array3 :=
      foldl jacobian_column jacobian_init (seq 0 n).

(** The running distribution when shock column [s] starts. *)
Definition dstn_at_column_start (s : nat) : vec := fst (jacobian_columns s).

End UnemploymentJacobian.

Definition compute_unemployment_jacobian
      (markov_array_ss_arg : matrix) (ss_dstn : vec) (num_mrkv : nat) : array3 :=
    let dx := 0.0001 in
    snd (jacobian_columns markov_array_ss_arg ss_dstn num_mrkv dx bigT).

(** The [unemployment1] block: [U = U1 + U2 + U3 + U4 + U5]. *)
Definition unemployment1 (U1 U2 U3 U4 U5 : Q) : Q := U1 + U2 + U3 + U4 + U5.

End LaborMarket.

(** The calibrated globals. *)
Definition job_find : Q := 2 / 3.
Definition EU_prob : Q := 0.0306834.
Definition bigT : nat := 300.

(** What the eigen-solver is relied on for: an eigenpair of the matrix, with
    six entries whose sum is not zero (the code divides by that sum). *)
Definition eigs_contract (M : matrix) (r : complex * list complex) : Prop :=
  length (snd r) = 6%nat /\
  vec_eq (np_dot M (map re (snd r))) (map (fun z => re (cmul (fst r) z)) (snd r)) /\
  vec_eq (np_dot M (map im (snd r))) (map (fun z => im (cmul (fst r) z)) (snd r)) /\
  cnonzero (csum (snd r)).

(** Valid transition probabilities. *)
Definition valid_probabilities (job_find EU_prob : Q) : Prop :=
  0 < job_find /\ job_find < 1 /\ 0 <= EU_prob /\ EU_prob <= 1.

(** The eigenvalue-one direction of the steady-state matrix, in closed form. *)
Definition stationary_direction (job_find EU_prob : Q) : vec :=
  let r := 1 - job_find in
  [1; EU_prob; r * EU_prob; r * r * EU_prob; r * r * r * EU_prob;
   r * r * r * r * EU_prob / job_find].

(** An eigen-solver that answers with that direction, scaled by a complex
    number [phase], whatever the matrix. *)
Definition exact_eigs (phase : complex) (M : matrix) : complex * list complex :=
  (Cx 1 0, map (fun u => cmul phase (Cx u 0)) (stationary_direction job_find EU_prob)).

(** The calibrated stationary distribution, in lowest terms. *)
Definition ss_dstn_calibrated : vec :=
  let u := stationary_direction job_find EU_prob in
  map (fun x => Qred (x / vsum u)) u.

(** The employed mass [v[0]] of a distribution. *)
Definition mass0 (v : vec) : Q := default 0 (v !! 0%nat).

(** The factor by which one unperturbed transition scales the gap between the
    employed mass and its steady-state value. *)
Definition carry_factor (job_find EU_prob : Q) : Q :=
  1 - job_sep job_find EU_prob * (1 - job_find) - job_find.

(** ** Section 1 of the module: global parameters *)

Definition R : Q := 1.01.
Definition C_ss : Q := 0.6910496136078721.
Definition phi_pi : Q := 1.5.
Definition phi_y : Q := 0.
Definition rho_r : Q := 0.
Definition kappa_p_ss : Q := 0.06191950464396284.
Definition phi_b : Q := 0.015.
Definition real_wage_rigidity : Q := 0.837.
Definition UI_extension_length : Z := 4.
Definition stimulus_check_length : Z := 1.
Definition tax_cut_length : Z := 8.

(** ** Section 6 of the module: net present value *)

(** The loop [for i in range(length): NPV_val += irf[i] / discount_rate**i];
    [irf[i]] raises past the end of the array. With a discount rate of zero
    the divisor is zero from [i = 1] on and the quotient has no rational
    value (the source raises on Python floats and gives [inf] or [nan] on
    numpy floats): the statements about what [NPV] returns take the rate to
    be non-zero. *)
Fixpoint NPV_loop (irf : vec) (discount_rate : Q) (range : list nat) (NPV_val : Q)
    : option Q :=
  match range with
  | [] => Some NPV_val
  | i :: range' =>
      x ← irf !! i;
      NPV_loop irf discount_rate range' (NPV_val + x / discount_rate ^ Z.of_nat i)
  end.

Definition NPV (irf : vec) (length : nat) (discount_rate : option Q) : option Q :=
  let discount_rate := default R discount_rate in
  NPV_loop irf discount_rate (seq 0 length) 0.

(** The formula [sum over i from 0 to n-1 of x[i] / R^i], read directly. *)
Definition discounted_sum (x : vec) (r : Q) (n : nat) : Q :=
  vsum (map (fun i => default 0 (x !! i) / r ^ Z.of_nat i) (seq 0 n)).

(** Elementwise [a * x + b * y] on arrays. *)
Definition lincomb (a : Q) (x : vec) (b : Q) (y : vec) : vec :=
  zip_with Qplus (map (Qmult a) x) (map (Qmult b) y).

(** ** Python values, dictionaries and slices *)

(** Dictionary values are Python ints or floats. *)
Inductive pyval := PyInt (z : Z) | PyFloat (q : Q).

Definition py_neg (v : pyval) : pyval :=
  match v with PyInt z => PyInt (- z) | PyFloat q => PyFloat (- q) end.

(** [d.get(key, default)]. *)
Definition dict_get {V : Type} (d : gmap string V) (key : string) (dflt : V) : V :=
  default dflt (d !! key).

(** The number of leading cells addressed by the slice [[:stop]] of an array
    of length [len]. *)
Definition slice_stop (len : nat) (stop : Z) : nat :=
  if (stop <? 0)%Z then Z.to_nat (Z.max 0 (Z.of_nat len + stop))
  else Nat.min (Z.to_nat stop) len.

(** [arr[:stop] = v]; a float [stop] is a [TypeError]. *)
Definition slice_assign (arr : vec) (stop : pyval) (v : Q) : option vec :=
  match stop with
  | PyInt z => let n := slice_stop (length arr) z in Some (replicate n v ++ drop n arr)
  | PyFloat _ => None
  end.

(** ** Section 5 of the module: the models *)

Module Block.
Inductive t :=
| Jacobian_Dict | Jacobian_Dict_by_educ | Jacobian_Dict_UI_extend_real | UJAC_dict
| fiscal | fiscal_G | fiscal_fixed_real_rate | fiscal_G_fixed_real_rate
| fiscal_rule | fiscal_rule_G | longbonds_price | ex_post_longbonds_rate
| production | matching | taylor | taylor_lagged | Phillips_Curve | marginal_cost
| hiring_cost | wage_ | vacancies | unemployment1
| fisher_clearing | fisher_clearing_fixed_real_rate | mkt_clearing.
End Block.

#[global] Instance block_eq_dec : EqDecision Block.t.
Proof. solve_decision. Defined.

(** Each model is the list of blocks handed to [create_model]. *)
Definition HANK_SAM : list Block.t :=
  [Block.Jacobian_Dict; Block.Jacobian_Dict_by_educ; Block.fiscal;
   Block.longbonds_price; Block.ex_post_longbonds_rate; Block.fiscal_rule;
   Block.production; Block.matching; Block.taylor; Block.Phillips_Curve;
   Block.marginal_cost; Block.UJAC_dict; Block.hiring_cost; Block.wage_;
   Block.vacancies; Block.unemployment1; Block.fisher_clearing; Block.mkt_clearing].

Definition HANK_SAM_tax_rate_shock : list Block.t :=
  [Block.Jacobian_Dict; Block.Jacobian_Dict_by_educ; Block.fiscal_G;
   Block.longbonds_price; Block.ex_post_longbonds_rate; Block.fiscal_rule_G;
   Block.production; Block.matching; Block.taylor; Block.Phillips_Curve;
   Block.marginal_cost; Block.UJAC_dict; Block.hiring_cost; Block.wage_;
   Block.vacancies; Block.unemployment1; Block.fisher_clearing; Block.mkt_clearing].

Definition HANK_SAM_lagged_taylor_rule : list Block.t :=
  [Block.Jacobian_Dict; Block.Jacobian_Dict_by_educ; Block.fiscal;
   Block.longbonds_price; Block.ex_post_longbonds_rate; Block.fiscal_rule;
   Block.production; Block.matching; Block.taylor_lagged; Block.Phillips_Curve;
   Block.marginal_cost; Block.UJAC_dict; Block.hiring_cost; Block.wage_;
   Block.vacancies; Block.unemployment1; Block.fisher_clearing; Block.mkt_clearing].

Definition HANK_SAM_fixed_real_rate : list Block.t :=
  [Block.Jacobian_Dict; Block.Jacobian_Dict_by_educ; Block.fiscal_fixed_real_rate;
   Block.fiscal_rule; Block.production; Block.matching; Block.Phillips_Curve;
   Block.marginal_cost; Block.UJAC_dict; Block.hiring_cost; Block.wage_;
   Block.vacancies; Block.unemployment1; Block.fisher_clearing_fixed_real_rate;
   Block.mkt_clearing].

Definition HANK_SAM_fixed_real_rate_UI_extend_real : list Block.t :=
  [Block.Jacobian_Dict_UI_extend_real; Block.Jacobian_Dict_by_educ;
   Block.fiscal_fixed_real_rate; Block.fiscal_rule; Block.production;
   Block.matching; Block.Phillips_Curve; Block.marginal_cost; Block.UJAC_dict;
   Block.hiring_cost; Block.wage_; Block.vacancies; Block.unemployment1;
   Block.fisher_clearing_fixed_real_rate; Block.mkt_clearing].

Definition HANK_SAM_tax_cut_fixed_real_rate : list Block.t :=
  [Block.Jacobian_Dict; Block.Jacobian_Dict_by_educ; Block.fiscal_G_fixed_real_rate;
   Block.fiscal_rule_G; Block.production; Block.matching; Block.Phillips_Curve;
   Block.marginal_cost; Block.UJAC_dict; Block.hiring_cost; Block.wage_;
   Block.vacancies; Block.unemployment1; Block.fisher_clearing_fixed_real_rate;
   Block.mkt_clearing].

(** A model whose nominal rate follows the [taylor] block: the standard
    Taylor rule, and the fixed nominal rate when [phi_pi] is zero. *)
Definition taylor_regime (model : list Block.t) : Prop := Block.taylor ∈ model.

(** A model that pins the real rate with [fisher_clearing_fixed_real_rate]. *)
Definition fixed_real_rate_regime (model : list Block.t) : Prop :=
  Block.fisher_clearing_fixed_real_rate ∈ model.

(** ** Solver calls and their trace *)

(** The arguments of one [model.solve_impulse_linear(ss, unknowns, targets,
    shocks)]. *)
Record solve_call := SolveCall {
  call_model : list Block.t;
  call_ss : gmap string pyval;
  call_unknowns : list string;
  call_targets : list string;
  call_shocks : gmap string vec
}.

(** Computations that may raise and that log the solver calls they make. *)
Definition traced (A : Type) : Type :=
  list solve_call -> option (A * list solve_call).

Definition tret {A : Type} (a : A) : traced A := fun log => Some (a, log).

Definition tbind {A B : Type} (m : traced A) (k : A -> traced B) : traced B :=
  fun log => match m log with Some (a, log') => k a log' | None => None end.

Definition tlift {A : Type} (o : option A) : traced A :=
  fun log => match o with Some a => Some (a, log) | None => None end.

Notation "'run' x <-- m ;; k" := (tbind m (fun x => k))
  (at level 10, x name, m at level 99, k at level 200, only parsing).

Notation "'run' ' p <-- m ;; k" := (tbind m (fun p => k))
  (at level 10, p pattern, m at level 99, k at level 200, only parsing).

(** The result of [compute_fiscal_multipliers]. *)
Record fiscal_result := FiscalResult {
  multipliers : gmap string vec;
  irfs : gmap string (gmap string vec)
}.

(** The expression [NPV(irf[target], h) / NPV(irf[cost], n)], a quotient of
    numpy floats: it does not raise, and where the divisor is zero it is
    [inf] or [nan], which no rational stands for; the statements about the
    value of the quotient are made where the divisor is not zero. *)
Definition NPV_ratio (irf : gmap string vec) (target cost : string) (h n : nat)
    : option Q :=
  c ← irf !! target; num ← NPV c h None;
  k ← irf !! cost; den ← NPV k n None;
  Some (num / den).

(** The expression [-NPV(irf[target], h) / NPV(irf[cost], n)], read as the
    one above. *)
Definition neg_NPV_ratio (irf : gmap string vec) (target cost : string) (h n : nat)
    : option Q :=
  c ← irf !! target; num ← NPV c h None;
  k ← irf !! cost; den ← NPV k n None;
  Some (- num / den).

(** [name[i] = v] on the local arrays of a function, kept by variable name. *)
Definition assign (name : string) (i : nat) (v : Q) (env : gmap string vec)
    : gmap string vec :=
  alter (fun arr => <[i := v]> arr) name env.

(** A [for] loop whose body may raise. *)
Fixpoint loop_option {S I : Type} (body : S -> I -> option S) (range : list I) (st : S)
    : option S :=
  match range with
  | [] => Some st
  | i :: range' => st' ← body st i; loop_option body range' st'
  end.

Section Experiments.

(** The module-level steady-state dictionary; several of its entries come out
    of fractional powers, so it is left abstract. *)
Variable SteadyState_Dict : gmap string pyval.

(** [model.solve_impulse_linear] of the sequence-jacobian toolkit. *)
Variable solve : list Block.t -> gmap string pyval -> list string -> list string ->
                 gmap string vec -> gmap string vec.

Definition solve_impulse_linear (model : list Block.t) (ss : gmap string pyval)
    (unknowns targets : list string) (shocks : gmap string vec)
    : traced (gmap string vec) :=
  fun log => Some (solve model ss unknowns targets shocks,
                   log ++ [SolveCall model ss unknowns targets shocks]).

Definition run_ui_extension_experiments (param_overrides : option (gmap string pyval))
    : traced (gmap string vec * gmap string vec * gmap string vec * gmap string vec
              * gmap string pyval * gmap string vec) :=
  let param_overrides := default ∅ param_overrides in
  let ui_length := dict_get param_overrides "UI_extension_length" (PyInt UI_extension_length) in
  run dUI_extension <-- tlift (slice_assign (replicate bigT 0) ui_length 0.2) ;;
  let shocks_UI_extension : gmap string vec := {[ "UI_extend" := dUI_extension ]} in
  let SteadyState_Dict_UI_extend := SteadyState_Dict in
  let SteadyState_Dict_UI_extend :=
    <["phi_b" := dict_get param_overrides "phi_b" (PyFloat phi_b)]> SteadyState_Dict_UI_extend in
  let SteadyState_Dict_UI_extend :=
    <["phi_w" := dict_get param_overrides "real_wage_rigidity" (PyFloat real_wage_rigidity)]>
      SteadyState_Dict_UI_extend in
  let SteadyState_Dict_UI_extend :=
    <["rho_r" := dict_get param_overrides "rho_r" (PyFloat rho_r)]> SteadyState_Dict_UI_extend in
  let SteadyState_Dict_UI_extend :=
    <["phi_y" := dict_get param_overrides "phi_y" (PyFloat phi_y)]> SteadyState_Dict_UI_extend in
  let SteadyState_Dict_UI_extend :=
    <["phi_pi" := dict_get param_overrides "phi_pi" (PyFloat phi_pi)]> SteadyState_Dict_UI_extend in
  let SteadyState_Dict_UI_extend :=
    <["kappa_p" := dict_get param_overrides "kappa_p" (PyFloat kappa_p_ss)]>
      SteadyState_Dict_UI_extend in
  let SteadyState_Dict_UI_extend :=
    <["deficit_T" := PyInt (-1)]> SteadyState_Dict_UI_extend in
  let unknowns := ["theta"; "r_ante"] in
  let targets := ["asset_mkt"; "fisher_resid"] in
  run irfs_UI_extend <--
    solve_impulse_linear HANK_SAM SteadyState_Dict_UI_extend unknowns targets
      shocks_UI_extension ;;
  let SteadyState_Dict_UI_extend_fixed_nominal_rate :=
    <["phi_pi" := PyFloat 0]> SteadyState_Dict_UI_extend in
  run irfs_UI_extend_fixed_nominal_rate <--
    solve_impulse_linear HANK_SAM SteadyState_Dict_UI_extend_fixed_nominal_rate
      unknowns targets shocks_UI_extension ;;
  let unknowns_fixed_real_rate := ["theta"] in
  let targets_fixed_real_rate := ["asset_mkt"] in
  run irfs_UI_extension_fixed_real_rate <--
    solve_impulse_linear HANK_SAM_fixed_real_rate SteadyState_Dict_UI_extend
      unknowns_fixed_real_rate targets_fixed_real_rate shocks_UI_extension ;;
  run irf_UI_extend_realizations <--
    solve_impulse_linear HANK_SAM_fixed_real_rate_UI_extend_real
      SteadyState_Dict_UI_extend unknowns_fixed_real_rate targets_fixed_real_rate
      shocks_UI_extension ;;
  tret (irfs_UI_extend, irfs_UI_extend_fixed_nominal_rate,
        irfs_UI_extension_fixed_real_rate, irf_UI_extend_realizations,
        SteadyState_Dict_UI_extend, shocks_UI_extension).

Definition run_transfer_experiments (param_overrides : option (gmap string pyval))
    : traced (gmap string vec * gmap string vec * gmap string vec * gmap string vec
              * gmap string pyval * gmap string vec) :=
  let param_overrides := default ∅ param_overrides in
  run dtransfers <--
    tlift (slice_assign (replicate bigT 0) (PyInt stimulus_check_length) (C_ss * 0.05)) ;;
  let shocks_transfers : gmap string vec := {[ "transfers" := dtransfers ]} in
  let SteadyState_Dict_transfer := SteadyState_Dict in
  let SteadyState_Dict_transfer :=
    <["phi_b" := dict_get param_overrides "phi_b" (PyFloat phi_b)]> SteadyState_Dict_transfer in
  let SteadyState_Dict_transfer :=
    <["phi_w" := dict_get param_overrides "real_wage_rigidity" (PyFloat real_wage_rigidity)]>
      SteadyState_Dict_transfer in
  let SteadyState_Dict_transfer :=
    <["rho_r" := dict_get param_overrides "rho_r" (PyFloat rho_r)]> SteadyState_Dict_transfer in
  let SteadyState_Dict_transfer :=
    <["phi_y" := dict_get param_overrides "phi_y" (PyFloat phi_y)]> SteadyState_Dict_transfer in
  let SteadyState_Dict_transfer :=
    <["phi_pi" := dict_get param_overrides "phi_pi" (PyFloat phi_pi)]> SteadyState_Dict_transfer in
  let SteadyState_Dict_transfer :=
    <["kappa_p" := dict_get param_overrides "kappa_p" (PyFloat kappa_p_ss)]>
      SteadyState_Dict_transfer in
  let SteadyState_Dict_transfer :=
    <["deficit_T" := PyInt (-1)]> SteadyState_Dict_transfer in
  let unknowns := ["theta"; "r_ante"] in
  let targets := ["asset_mkt"; "fisher_resid"] in
  run irfs_transfer <--
    solve_impulse_linear HANK_SAM SteadyState_Dict_transfer unknowns targets
      shocks_transfers ;;
  let SteadyState_Dict_UI_transfer_fixed_nominal_rate :=
    <["phi_pi" := PyFloat 0]> SteadyState_Dict_transfer in
  run irfs_transfer_fixed_nominal_rate <--
    solve_impulse_linear HANK_SAM SteadyState_Dict_UI_transfer_fixed_nominal_rate
      unknowns targets shocks_transfers ;;
  let unknowns_fixed_real_rate := ["theta"] in
  let targets_fixed_real_rate := ["asset_mkt"] in
  run irfs_transfer_fixed_real_rate <--
    solve_impulse_linear HANK_SAM_fixed_real_rate SteadyState_Dict_transfer
      unknowns_fixed_real_rate targets_fixed_real_rate shocks_transfers ;;
  let monetary_policy_lag := 2%Z in
  let SteadyState_Dict_transfers_lagged_nominal_rate :=
    <["lag" := PyInt monetary_policy_lag]> SteadyState_Dict_transfer in
  run irfs_transfers_lagged_nominal_rate <--
    solve_impulse_linear HANK_SAM_lagged_taylor_rule
      SteadyState_Dict_transfers_lagged_nominal_rate unknowns targets shocks_transfers ;;
  tret (irfs_transfer, irfs_transfer_fixed_nominal_rate,
        irfs_transfer_fixed_real_rate, irfs_transfers_lagged_nominal_rate,
        SteadyState_Dict_transfer, shocks_transfers).

Definition run_tax_cut_experiments (param_overrides : option (gmap string pyval))
    : traced (gmap string vec * gmap string vec * gmap string vec
              * gmap string pyval * gmap string vec) :=
  let param_overrides := default ∅ param_overrides in
  let tax_length := dict_get param_overrides "tax_cut_length" (PyInt tax_cut_length) in
  run dtau <-- tlift (slice_assign (replicate bigT 0) tax_length (-0.02)) ;;
  let shocks_tau : gmap string vec := {[ "tau" := dtau ]} in
  let SteadyState_Dict_tax_shock := SteadyState_Dict in
  let SteadyState_Dict_tax_shock :=
    <["phi_G" := py_neg (dict_get param_overrides "phi_b" (PyFloat phi_b))]>
      SteadyState_Dict_tax_shock in
  let SteadyState_Dict_tax_shock :=
    <["phi_w" := dict_get param_overrides "real_wage_rigidity" (PyFloat real_wage_rigidity)]>
      SteadyState_Dict_tax_shock in
  let SteadyState_Dict_tax_shock :=
    <["rho_r" := dict_get param_overrides "rho_r" (PyFloat rho_r)]> SteadyState_Dict_tax_shock in
  let SteadyState_Dict_tax_shock :=
    <["phi_y" := dict_get param_overrides "phi_y" (PyFloat phi_y)]> SteadyState_Dict_tax_shock in
  let SteadyState_Dict_tax_shock :=
    <["phi_pi" := dict_get param_overrides "phi_pi" (PyFloat phi_pi)]> SteadyState_Dict_tax_shock in
  let SteadyState_Dict_tax_shock :=
    <["kappa_p" := dict_get param_overrides "kappa_p" (PyFloat kappa_p_ss)]>
      SteadyState_Dict_tax_shock in
  let SteadyState_Dict_tax_shock :=
    <["deficit_T" := PyInt (-1)]> SteadyState_Dict_tax_shock in
  let unknowns := ["theta"; "r_ante"] in
  let targets := ["asset_mkt"; "fisher_resid"] in
  run irfs_tau <--
    solve_impulse_linear HANK_SAM_tax_rate_shock SteadyState_Dict_tax_shock unknowns
      targets shocks_tau ;;
  let SteadyState_Dict_tax_shock_fixed_rate :=
    <["phi_pi" := PyFloat 0]> SteadyState_Dict_tax_shock in
  run irfs_tau_fixed_nominal_rate <--
    solve_impulse_linear HANK_SAM_tax_rate_shock SteadyState_Dict_tax_shock_fixed_rate
      unknowns targets shocks_tau ;;
  let unknowns_fixed_real_rate := ["theta"] in
  let targets_fixed_real_rate := ["asset_mkt"] in
  run irfs_tau_fixed_real_rate <--
    solve_impulse_linear HANK_SAM_tax_cut_fixed_real_rate SteadyState_Dict_tax_shock
      unknowns_fixed_real_rate targets_fixed_real_rate shocks_tau ;;
  tret (irfs_tau, irfs_tau_fixed_nominal_rate, irfs_tau_fixed_real_rate,
        SteadyState_Dict_tax_shock, shocks_tau).

(** Body of the loop [for i in range(horizon_length)] of
    [compute_fiscal_multipliers], in the order of the source. *)
Definition multipliers_body
    (irfs_transfer irfs_UI_extend irfs_tau
     irfs_transfer_fixed_nominal_rate irfs_UI_extend_fixed_nominal_rate
     irfs_tau_fixed_nominal_rate
     irfs_transfer_fixed_real_rate irfs_UI_extension_fixed_real_rate
     irfs_tau_fixed_real_rate : gmap string vec)
    (env : gmap string vec) (i : nat) : option (gmap string vec) :=
  v ← NPV_ratio irfs_transfer_fixed_nominal_rate "C" "transfers" (i + 1) 300;
  let env := assign "multipliers_transfers_fixed_nominal_rate" i v env in
  v ← NPV_ratio irfs_UI_extend_fixed_nominal_rate "C" "UI_extension_cost" (i + 1) 300;
  let env := assign "multipliers_UI_extensions_fixed_nominal_rate" i v env in
  v ← neg_NPV_ratio irfs_tau_fixed_nominal_rate "C" "tax_cost" (i + 1) 300;
  let env := assign "multipliers_tax_cut_fixed_nominal_rate" i v env in
  v ← NPV_ratio irfs_transfer "C" "transfers" (i + 1) 300;
  let env := assign "multipliers_transfers" i v env in
  v ← NPV_ratio irfs_UI_extend "C" "UI_extension_cost" (i + 1) 300;
  let env := assign "multipliers_UI_extend" i v env in
  v ← neg_NPV_ratio irfs_tau "C" "tax_cost" (i + 1) 300;
  let env := assign "multipliers_tax_cut" i v env in
  v ← NPV_ratio irfs_transfer_fixed_real_rate "C" "transfers" (i + 1) 300;
  let env := assign "multipliers_transfers_fixed_real_rate" i v env in
  v ← NPV_ratio irfs_UI_extension_fixed_real_rate "C" "UI_extension_cost" (i + 1) 300;
  let env := assign "multipliers_UI_extensions_fixed_real_rate" i v env in
  v ← neg_NPV_ratio irfs_tau_fixed_real_rate "C" "tax_cost" (i + 1) 300;
  let env := assign "multipliers_tax_cut_fixed_real_rate" i v env in
  Some env.

(** The nine output multipliers evaluated for the printed summary. *)
Definition print_summary
    (irfs_transfer irfs_UI_extend irfs_tau
     irfs_transfer_fixed_nominal_rate irfs_UI_extend_fixed_nominal_rate
     irfs_tau_fixed_nominal_rate
     irfs_transfer_fixed_real_rate irfs_UI_extension_fixed_real_rate
     irfs_tau_fixed_real_rate : gmap string vec) : option unit :=
  _ ← NPV_ratio irfs_UI_extend "Y" "UI_extension_cost" bigT bigT;
  _ ← NPV_ratio irfs_UI_extend_fixed_nominal_rate "Y" "UI_extension_cost" bigT bigT;
  _ ← NPV_ratio irfs_UI_extension_fixed_real_rate "Y" "UI_extension_cost" bigT bigT;
  _ ← NPV_ratio irfs_transfer "Y" "transfers" bigT bigT;
  _ ← NPV_ratio irfs_transfer_fixed_nominal_rate "Y" "transfers" bigT bigT;
  _ ← NPV_ratio irfs_transfer_fixed_real_rate "Y" "transfers" bigT bigT;
  _ ← NPV_ratio irfs_tau "Y" "tax_cost" bigT bigT;
  _ ← NPV_ratio irfs_tau_fixed_nominal_rate "Y" "tax_cost" bigT bigT;
  _ ← NPV_ratio irfs_tau_fixed_real_rate "Y" "tax_cost" bigT bigT;
  Some ().

(** The local arrays, each [np.zeros(horizon_length)]. *)
Definition multipliers_init (horizon_length : nat) : gmap string vec :=
  let z := replicate horizon_length 0 in
  <["multipliers_tax_cut_fixed_real_rate" := z]>
  (<["multipliers_UI_extensions_fixed_real_rate" := z]>
  (<["multipliers_transfers_fixed_real_rate" := z]>
  (<["multipliers_tax_cut_fixed_nominal_rate" := z]>
  (<["multipliers_UI_extensions_fixed_nominal_rate" := z]>
  (<["multipliers_transfers_fixed_nominal_rate" := z]>
  (<["multipliers_tax_cut" := z]>
  (<["multipliers_UI_extend" := z]>
  (<["multipliers_transfers" := z]> ∅)))))))).

Definition compute_fiscal_multipliers (horizon_length : nat)
    (param_overrides : gmap string pyval) : traced fiscal_result :=
  run '(irfs_UI_extend, irfs_UI_extend_fixed_nominal_rate,
    irfs_UI_extension_fixed_real_rate, irf_UI_extend_realizations, _, _) <--
    run_ui_extension_experiments (Some param_overrides) ;;
  run '(irfs_transfer, irfs_transfer_fixed_nominal_rate, irfs_transfer_fixed_real_rate,
    irfs_transfers_lagged_nominal_rate, _, _) <--
    run_transfer_experiments (Some param_overrides) ;;
  run '(irfs_tau, irfs_tau_fixed_nominal_rate, irfs_tau_fixed_real_rate, _, _) <--
    run_tax_cut_experiments (Some param_overrides) ;;
  run env <-- tlift (loop_option
                   (multipliers_body irfs_transfer irfs_UI_extend irfs_tau
                      irfs_transfer_fixed_nominal_rate irfs_UI_extend_fixed_nominal_rate
                      irfs_tau_fixed_nominal_rate irfs_transfer_fixed_real_rate
                      irfs_UI_extension_fixed_real_rate irfs_tau_fixed_real_rate)
                   (seq 0 horizon_length) (multipliers_init horizon_length)) ;;
  run _ <-- tlift (print_summary irfs_transfer irfs_UI_extend irfs_tau
                 irfs_transfer_fixed_nominal_rate irfs_UI_extend_fixed_nominal_rate
                 irfs_tau_fixed_nominal_rate irfs_transfer_fixed_real_rate
                 irfs_UI_extension_fixed_real_rate irfs_tau_fixed_real_rate) ;;
  let arr name := default [] (env !! name) in
  tret {| multipliers :=
            <["tax_cut_fixed_real" := arr "multipliers_tax_cut_fixed_real_rate"]>
            (<["UI_extend_fixed_real" := arr "multipliers_UI_extensions_fixed_real_rate"]>
            (<["transfers_fixed_real" := arr "multipliers_transfers_fixed_real_rate"]>
            (<["tax_cut_fixed_nominal" := arr "multipliers_tax_cut_fixed_nominal_rate"]>
            (<["UI_extend_fixed_nominal" := arr "multipliers_UI_extensions_fixed_nominal_rate"]>
            (<["transfers_fixed_nominal" := arr "multipliers_transfers_fixed_nominal_rate"]>
            (<["tax_cut" := arr "multipliers_tax_cut"]>
            (<["UI_extend" := arr "multipliers_UI_extend"]>
            (<["transfers" := arr "multipliers_transfers"]> ∅))))))));
          irfs :=
            <["tau_fixed_real" := irfs_tau_fixed_real_rate]>
            (<["tau_fixed_nominal" := irfs_tau_fixed_nominal_rate]>
            (<["tau" := irfs_tau]>
            (<["transfer_fixed_real" := irfs_transfer_fixed_real_rate]>
            (<["transfer_fixed_nominal" := irfs_transfer_fixed_nominal_rate]>
            (<["transfer" := irfs_transfer]>
            (<["UI_extend_fixed_real" := irfs_UI_extension_fixed_real_rate]>
            (<["UI_extend_fixed_nominal" := irfs_UI_extend_fixed_nominal_rate]>
            (<["UI_extend" := irfs_UI_extend]> ∅)))))))) |}.

End Experiments.

(** ** What the experiments rely on *)

(** The impulse response [irf] has a path for [key], of the horizon's length. *)
Definition irf_has (irf : gmap string vec) (key : string) : Prop :=
  exists x, irf !! key = Some x /\ length x = bigT.

(** What the linear solver is relied on for: the returned dictionary holds a
    path of length [bigT] for consumption and output (the household Jacobians
    and the production block), for every shocked input, and for the cost
    series the fiscal block of the model computes. *)
Definition solver_contract
    (solve : list Block.t -> gmap string pyval -> list string -> list string ->
             gmap string vec -> gmap string vec) : Prop :=
  forall model ss unknowns targets shocks,
    let irf := solve model ss unknowns targets shocks in
    irf_has irf "C" /\ irf_has irf "Y" /\
    (forall k, is_Some (shocks !! k) -> irf_has irf k) /\
    (Block.fiscal ∈ model \/ Block.fiscal_fixed_real_rate ∈ model ->
     irf_has irf "UI_extension_cost") /\
    (Block.fiscal_G ∈ model \/ Block.fiscal_G_fixed_real_rate ∈ model ->
     irf_has irf "tax_cost").

(** An override used as a slice bound is an int when it is given. *)
Definition int_or_absent (param_overrides : gmap string pyval) (key : string) : Prop :=
  match param_overrides !! key with Some (PyFloat _) => False | _ => True end.

(** A run of assignments [name[i] = value], each value an expression that may
    raise. *)
Fixpoint assign_all (i : nat) (l : list (string * option Q)) (env : gmap string vec)
    : option (gmap string vec) :=
  match l with
  | [] => Some env
  | (name, o) :: l' => v ← o; assign_all i l' (assign name i v env)
  end.


(** The steady-state dictionary the UI-extension and transfer experiments
    build from the module-level one and the overrides. *)
Definition overridden_ss (SteadyState_Dict param_overrides : gmap string pyval)
    : gmap string pyval :=
  <["deficit_T" := PyInt (-1)]>
  (<["kappa_p" := dict_get param_overrides "kappa_p" (PyFloat kappa_p_ss)]>
  (<["phi_pi" := dict_get param_overrides "phi_pi" (PyFloat phi_pi)]>
  (<["phi_y" := dict_get param_overrides "phi_y" (PyFloat phi_y)]>
  (<["rho_r" := dict_get param_overrides "rho_r" (PyFloat rho_r)]>
  (<["phi_w" := dict_get param_overrides "real_wage_rigidity" (PyFloat real_wage_rigidity)]>
  (<["phi_b" := dict_get param_overrides "phi_b" (PyFloat phi_b)]>
     SteadyState_Dict)))))).

(** The same for the tax-cut experiment, where spending adjusts. *)
Definition overridden_ss_tax (SteadyState_Dict param_overrides : gmap string pyval)
    : gmap string pyval :=
  <["deficit_T" := PyInt (-1)]>
  (<["kappa_p" := dict_get param_overrides "kappa_p" (PyFloat kappa_p_ss)]>
  (<["phi_pi" := dict_get param_overrides "phi_pi" (PyFloat phi_pi)]>
  (<["phi_y" := dict_get param_overrides "phi_y" (PyFloat phi_y)]>
  (<["rho_r" := dict_get param_overrides "rho_r" (PyFloat rho_r)]>
  (<["phi_w" := dict_get param_overrides "real_wage_rigidity" (PyFloat real_wage_rigidity)]>
  (<["phi_G" := py_neg (dict_get param_overrides "phi_b" (PyFloat phi_b))]>
     SteadyState_Dict)))))).

(** The solver calls of the three experiments, in order, for a steady state
    [ss] and a shock dictionary [shocks]. *)
Definition ui_extension_calls (ss : gmap string pyval) (shocks : gmap string vec)
    : list solve_call :=
  [ SolveCall HANK_SAM ss ["theta"; "r_ante"] ["asset_mkt"; "fisher_resid"] shocks;
    SolveCall HANK_SAM (<["phi_pi" := PyFloat 0]> ss) ["theta"; "r_ante"]
      ["asset_mkt"; "fisher_resid"] shocks;
    SolveCall HANK_SAM_fixed_real_rate ss ["theta"] ["asset_mkt"] shocks;
    SolveCall HANK_SAM_fixed_real_rate_UI_extend_real ss ["theta"] ["asset_mkt"] shocks ].

Definition transfer_calls (ss : gmap string pyval) (shocks : gmap string vec)
    : list solve_call :=
  [ SolveCall HANK_SAM ss ["theta"; "r_ante"] ["asset_mkt"; "fisher_resid"] shocks;
    SolveCall HANK_SAM (<["phi_pi" := PyFloat 0]> ss) ["theta"; "r_ante"]
      ["asset_mkt"; "fisher_resid"] shocks;
    SolveCall HANK_SAM_fixed_real_rate ss ["theta"] ["asset_mkt"] shocks;
    SolveCall HANK_SAM_lagged_taylor_rule (<["lag" := PyInt 2]> ss) ["theta"; "r_ante"]
      ["asset_mkt"; "fisher_resid"] shocks ].

Definition tax_cut_calls (ss : gmap string pyval) (shocks : gmap string vec)
    : list solve_call :=
  [ SolveCall HANK_SAM_tax_rate_shock ss ["theta"; "r_ante"]
      ["asset_mkt"; "fisher_resid"] shocks;
    SolveCall HANK_SAM_tax_rate_shock (<["phi_pi" := PyFloat 0]> ss) ["theta"; "r_ante"]
      ["asset_mkt"; "fisher_resid"] shocks;
    SolveCall HANK_SAM_tax_cut_fixed_real_rate ss ["theta"] ["asset_mkt"] shocks ].

(** The solver applied to a recorded call. *)
Definition solve_call_result
    (solve : list Block.t -> gmap string pyval -> list string -> list string ->
             gmap string vec -> gmap string vec) (c : solve_call) : gmap string vec :=
  solve (call_model c) (call_ss c) (call_unknowns c) (call_targets c) (call_shocks c).

(** The array left by [d = np.zeros(bigT); d[:stop] = v]. *)
Definition shock_path (stop : Z) (v : Q) : vec :=
  replicate (slice_stop bigT stop) v ++ drop (slice_stop bigT stop) (replicate bigT 0).

(** The int a length override stands for, with its default. *)
Definition override_length (param_overrides : gmap string pyval) (key : string)
    (dflt : Z) : Z :=
  match param_overrides !! key with Some (PyInt z) => z | _ => dflt end.
(** ** Section 4 of the module: the splurge adjustment *)

(** [R ** np.arange(periods)]. *)
Definition R_powers (periods : nat) : vec :=
  map (fun t => R ^ Z.of_nat t) (seq 0 periods).

(** [M / w] for a matrix and a one-dimensional array: numpy broadcasts [w]
    along the last axis, so every row is divided elementwise by [w]. *)
Definition broadcast_div (M : matrix) (w : vec) : matrix :=
  map (fun row => zip_with Qdiv row w) M.

(** [np.diag(v)]. *)
Definition np_diag (v : vec) : matrix :=
  imap (fun i x => <[i := x]> (replicate (length v) 0)) v.

(** [c * M] and [A + B] on matrices. *)
Definition mscale (c : Q) (M : matrix) : matrix := map (map (Qmult c)) M.
Definition madd (A B : matrix) : matrix := zip_with (zip_with Qplus) A B.

(** [M[t, s]]. *)
Definition mentry (M : matrix) (t s : nat) : option Q := M !! t ≫= fun row => row !! s.

(** A [T] by [T] matrix, as a proposition and as a test. *)
Definition is_square (T : nat) (M : matrix) : Prop :=
  length M = T /\ Forall (fun row => length row = T) M.

Definition square_b (T : nat) (M : matrix) : bool :=
  (length M =? T)%nat && forallb (fun row => (length row =? T)%nat) M.

(** [np.sum(J / R ** np.arange(periods), axis=0)]. *)
Definition present_value (periods : nat) (J : matrix) : vec :=
  col_sums periods (broadcast_div J (R_powers periods)).

(** [np.diag(present_value * R ** np.arange(periods))]. *)
Definition splurge_jacobian_component (periods : nat) (J : matrix) : matrix :=
  np_diag (zip_with Qmult (present_value periods J) (R_powers periods)).

(** [splurge * splurge_jacobian_component + (1 - splurge) * J]. *)
Definition splurge_jacobian (splurge : Q) (periods : nat) (J : matrix) : matrix :=
  madd (mscale splurge (splurge_jacobian_component periods J)) (mscale (1 - splurge) J).

(** [(1 - splurge) * A], the asset Jacobian. *)
Definition splurge_assets (splurge : Q) (A : matrix) : matrix :=
  mscale (1 - splurge) A.

(** *** The Jacobian dictionary as a shared object *)

(** Objects live in a store: a [JacobianDict] maps output names to the
    references of its inner dictionaries, an inner dictionary maps input names
    to matrices. *)
Abbreviation loc := positive.

Inductive pyobj :=
| NestedDict (d : gmap string loc)
| InputDict (d : gmap string matrix).

Abbreviation heap := (gmap loc pyobj).

(** [Jacobian_Dict[out]]: the inner dictionary and its reference. *)
Definition getitem (h : heap) (Jacobian_Dict : loc) (out : string)
    : option (loc * gmap string matrix) :=
  o ← h !! Jacobian_Dict;
  match o with
  | NestedDict d =>
      l ← d !! out; o' ← h !! l;
      match o' with InputDict di => Some (l, di) | NestedDict _ => None end
  | InputDict _ => None
  end.

(** [Jacobian_Dict[out][input] = M], in place. *)
Definition setitem (h : heap) (Jacobian_Dict : loc) (out input : string) (M : matrix)
    : option heap :=
  '(l, di) ← getitem h Jacobian_Dict out;
  Some (<[l := InputDict (<[input := M]> di)]> h).

Definition splurge_inputs : list string :=
  ["transfers"; "tau"; "UI_extend"; "UI_rr"; "eta"; "w"].

(** Body of the loop over the policy inputs; [old_C] and [old_A] are the inner
    dictionaries of the deep copy taken on entry. The Jacobians of the
    toolkit are [periods] by [periods]; on an array of another shape numpy
    broadcasts or raises, which the list operations do not follow: such
    shapes are outside the model, the body returns nothing for them, and the
    statements take the Jacobians to be square. *)
Definition splurge_body (old_C : gmap string matrix)
    (old_A : option (gmap string matrix)) (periods : nat) (Jacobian_Dict : loc)
    (h : heap) (jacobian_input : string) : option heap :=
  let splurge := 0.3 in
  JC ← old_C !! jacobian_input;
  if square_b periods JC then
    let splurge_jacobian := splurge_jacobian splurge periods JC in
    h ← setitem h Jacobian_Dict "C" jacobian_input splurge_jacobian;
    old_A ← old_A;
    JA ← old_A !! jacobian_input;
    setitem h Jacobian_Dict "A" jacobian_input (splurge_assets splurge JA)
  else None.

(** Takes the reference of the dictionary and the store; returns the
    reference it hands back and the store it leaves. *)
Definition apply_splurge_behavior (Jacobian_Dict : loc) (h : heap) : option (loc * heap) :=
  '(_, old_C) ← getitem h Jacobian_Dict "C";
  let old_A := snd <$> getitem h Jacobian_Dict "A" in
  transfers ← old_C !! "transfers";
  let periods := length transfers in
  h' ← loop_option (splurge_body old_C old_A periods Jacobian_Dict) splurge_inputs h;
  Some (Jacobian_Dict, h').

(** The state of the store after the inputs [done] have been processed. *)
Definition splurge_inv (Jacobian_Dict : loc) (h0 : heap) (d : gmap string loc)
    (lC lA : loc) (dC dA : gmap string matrix) (T : nat)
    (done : list string) (h : heap) : Prop :=
  h !! Jacobian_Dict = Some (NestedDict d) /\
  (forall l, l <> lC -> l <> lA -> h !! l = h0 !! l) /\
  exists dC' dA',
    h !! lC = Some (InputDict dC') /\ h !! lA = Some (InputDict dA') /\
    (forall k, k ∉ done -> dC' !! k = dC !! k /\ dA' !! k = dA !! k) /\
    (lC <> lA -> forall k, k ∈ done ->
       dC' !! k = splurge_jacobian 0.3 T <$> dC !! k /\
       dA' !! k = splurge_assets 0.3 <$> dA !! k).


(** ** Sample inputs *)

(** The entries of the module-level [SteadyState_Dict] that are literals or
    rational globals; the entries calibrated through the eigen-solver or
    fractional powers are left out. *)
Definition SteadyState_Dict_literals : gmap string pyval :=
  list_to_map
    [ ("asset_mkt", PyFloat 0); ("goods_mkt", PyFloat 0);
      ("arg_fisher_resid", PyFloat 0); ("lbp_resid", PyFloat 0);
      ("fiscal_resid", PyFloat 0); ("labor_evo_resid", PyFloat 0);
      ("taylor_resid", PyFloat 0); ("nkpc_resid", PyFloat 0);
      ("epsilon_p", PyInt 6); ("MC", PyFloat (5 / 6));
      ("C", PyFloat C_ss); ("r", PyFloat (R - 1)); ("r_ante", PyFloat (R - 1));
      ("A", PyFloat 1.4324029855872642); ("tau", PyFloat 0.3);
      ("phi_b", PyFloat phi_b); ("phi_w", PyFloat 1); ("phi", PyFloat 0.71);
      ("ev", PyFloat 0); ("w", PyFloat 1); ("pi", PyFloat 0); ("i", PyFloat (R - 1));
      ("varphi", PyFloat 96.9); ("rho_r", PyFloat rho_r);
      ("kappa_p", PyFloat kappa_p_ss); ("phi_pi", PyFloat phi_pi);
      ("phi_y", PyFloat phi_y); ("UI", PyFloat (0.5 * (1 - 0.3) * 1));
      ("transfers", PyFloat 0); ("UI_extend", PyFloat 0); ("deficit_T", PyInt (-1));
      ("UI_extension_cost", PyFloat 0); ("UI_rr", PyFloat 0); ("lag", PyInt (-1)) ].

(** A stand-in for the solver: every shocked input and the series the
    multipliers read get the constant path one. *)
Definition sample_solve (model : list Block.t) (ss : gmap string pyval)
    (unknowns targets : list string) (shocks : gmap string vec) : gmap string vec :=
  ((fun _ : vec => replicate bigT 1) <$> shocks) ∪
  list_to_map [ ("C", replicate bigT 1); ("Y", replicate bigT 1);
                ("UI_extension_cost", replicate bigT 1);
                ("tax_cost", replicate bigT 1) ].

(** Overrides for the six keys the experiments read into the steady state. *)
Definition honoured_overrides : gmap string pyval :=
  list_to_map
    [ ("phi_pi", PyFloat 2.5); ("phi_y", PyFloat 0.5); ("rho_r", PyFloat 0.8);
      ("kappa_p", PyFloat 0.1); ("phi_b", PyFloat 0.03);
      ("real_wage_rigidity", PyFloat 0.5) ].

(** The same with [deficit_T] and [lag] supplied as well. *)
Definition sample_overrides : gmap string pyval :=
  <["lag" := PyInt 4]> (<["deficit_T" := PyInt (-40)]> honoured_overrides).

(** ** Properties of solver calls *)

(** The pairing of unknowns with targets that a call's model asks for. *)
Definition pairing_ok (c : solve_call) : Prop :=
  (taylor_regime (call_model c) ->
   call_unknowns c = ["theta"; "r_ante"] /\
   call_targets c = ["asset_mkt"; "fisher_resid"]) /\
  (fixed_real_rate_regime (call_model c) ->
   call_unknowns c = ["theta"] /\ call_targets c = ["asset_mkt"]) /\
  (taylor_regime (call_model c) \/ fixed_real_rate_regime (call_model c) \/
   Block.taylor_lagged ∈ call_model c).

(** The first three calls of an experiment: standard Taylor rule, fixed
    nominal rate (same model, [phi_pi] set to zero), fixed real rate. *)
Definition regimes_ok (calls : list solve_call) : Prop :=
  exists c0 c1 c2,
    calls !! 0%nat = Some c0 /\ calls !! 1%nat = Some c1 /\ calls !! 2%nat = Some c2 /\
    taylor_regime (call_model c0) /\
    call_model c1 = call_model c0 /\
    call_ss c1 = <["phi_pi" := PyFloat 0]> (call_ss c0) /\
    call_shocks c1 = call_shocks c0 /\
    fixed_real_rate_regime (call_model c2) /\
    call_ss c2 = call_ss c0 /\ call_shocks c2 = call_shocks c0 /\
    length (call_unknowns c2) = Nat.pred (length (call_unknowns c0)) /\
    length (call_targets c2) = Nat.pred (length (call_targets c0)).

(** What the steady-state dictionary [ss] of one solve holds for the keys
    the overrides reach. [tax_cut] tells the tax-cut experiment, where the
    override of [phi_b] is stored negated under [phi_G] and [phi_b] keeps its
    module-level entry, from the two others, where it is stored under [phi_b]
    and [phi_G] keeps its module-level entry (none); [fixed_nominal] tells
    the fixed-nominal-rate solve, where [phi_pi] is zero, from the others,
    where it is the override. *)
Definition overrides_applied (SteadyState_Dict param_overrides : gmap string pyval)
    (tax_cut fixed_nominal : bool) (ss : gmap string pyval) : Prop :=
  (if tax_cut
   then ss !! "phi_G" = Some (py_neg (dict_get param_overrides "phi_b" (PyFloat phi_b))) /\
        ss !! "phi_b" = SteadyState_Dict !! "phi_b"
   else ss !! "phi_b" = Some (dict_get param_overrides "phi_b" (PyFloat phi_b)) /\
        ss !! "phi_G" = SteadyState_Dict !! "phi_G") /\
  ss !! "phi_w" =
    Some (dict_get param_overrides "real_wage_rigidity" (PyFloat real_wage_rigidity)) /\
  ss !! "rho_r" = Some (dict_get param_overrides "rho_r" (PyFloat rho_r)) /\
  ss !! "phi_y" = Some (dict_get param_overrides "phi_y" (PyFloat phi_y)) /\
  ss !! "kappa_p" = Some (dict_get param_overrides "kappa_p" (PyFloat kappa_p_ss)) /\
  ss !! "phi_pi" =
    Some (if fixed_nominal then PyFloat 0
          else dict_get param_overrides "phi_pi" (PyFloat phi_pi)).

(** What every solve is given for the two keys the experiments fix. *)
Definition fixed_keys (SteadyState_Dict : gmap string pyval) (c : solve_call) : Prop :=
  call_ss c !! "deficit_T" = Some (PyInt (-1)) /\
  call_ss c !! "lag" =
    (if decide (Block.taylor_lagged ∈ call_model c) then Some (PyInt 2)
     else SteadyState_Dict !! "lag").

(** A store with one Jacobian dictionary at reference 1, whose inner
    dictionaries sit at references 2 and 3 and hold two-by-two matrices for the
    six policy inputs and for one more input, ["r"]. *)
Definition sample_inner (M : matrix) : gmap string matrix :=
  list_to_map (("r", [[9; 9]; [9; 9]]) :: map (fun k => (k, M)) splurge_inputs).

Definition sample_heap : heap :=
  list_to_map
    [ (1%positive, NestedDict (list_to_map [("C", 2%positive); ("A", 3%positive)]));
      (2%positive, InputDict (sample_inner [[1; 2]; [3; 4]]));
      (3%positive, InputDict (sample_inner [[5; 6]; [7; 8]])) ].

(** ** Section 1 of the module, continued: the other global parameters *)

Definition alpha : Q := 0.65.
Definition phi_ss : Q := 0.71.
Definition r_ss : Q := R - 1.
Definition C_ss_sim : Q := 0.6910496136078721.
Definition A_ss_sim : Q := 1.4324029855872642.
Definition A_ss : Q := A_ss_sim.
Definition wage_ss : Q := 1.
Definition inc_ui_exhaust : Q := 0.5.
Definition tau_ss : Q := 0.3.
Definition UI : Q := 0.5 * (1 - tau_ss) * wage_ss.
Definition epsilon_p : Z := 6.
Definition varphi : Q := 96.9.
Definition MC_ss : Q := (inject_Z epsilon_p - 1) / inject_Z epsilon_p.
Definition phi_w : Q := 1.

(** ** Section 2 of the module, continued: general-equilibrium calibration *)

(** The dictionary [calibrate_general_equilibrium] returns: fourteen fixed
    keys, read back one by one at module level, hence a record. *)
Record ge_params := GeParams {
  v_ss : Q; theta_ss : Q; chi_ss : Q; eta_ss : Q; delta : Q; qb_ss : Q;
  B_ss : Q; Y_priv : Q; G_ss : Q; kappa : Q; HC_ss : Q; Z_ss : Q; Y_ss : Q;
  pi_ss : Q
}.

(** Reads the globals [job_sep], [phi_ss], [alpha], [R], [A_ss], [wage_ss],
    [inc_ui_exhaust], [tau_ss], [UI] and [MC_ss]. [x ** y] with an exponent
    that is not a whole number has irrational values and is the parameter
    [float_pow]. [1 / (R - delta)] divides Python floats and raises when the
    denominator is zero; the quotients of numpy floats do not raise (they
    give [inf] or [nan]), and the statements that depend on one assume its
    denominator is not zero. *)
Definition calibrate_general_equilibrium (float_pow : Q -> Q -> Q)
    (N_ss : Q) (ss_dstn : vec) : option ge_params :=
  let job_sep := job_sep job_find EU_prob in
  let v_ss := N_ss * job_sep / phi_ss in
  ss1 ← ss_dstn !! 1%nat; ss2 ← ss_dstn !! 2%nat; ss3 ← ss_dstn !! 3%nat;
  ss4 ← ss_dstn !! 4%nat; ss5 ← ss_dstn !! 5%nat;
  let unemployed_searchers := ss1 + ss2 + ss3 + ss4 + ss5 in
  let seachers := unemployed_searchers + N_ss * job_sep in
  let theta_ss := v_ss / seachers in
  let chi_ss := float_pow (float_pow phi_ss (1 / - alpha) / theta_ss) (- alpha) in
  let eta_ss := chi_ss * float_pow theta_ss (1 - alpha) in
  let delta := float_pow (R ^ 4 * (1 - 1 / 5)) (1 / 4) in
  if Qeq_bool (R - delta) 0 then None else
  let qb_ss := 1 / (R - delta) in
  let B_ss := A_ss / qb_ss in
  let Y_priv :=
    inc_ui_exhaust * (1 - tau_ss) * wage_ss * (ss3 + ss4 + ss5)
    + (0.7 - 0.5) * (1 - tau_ss) * wage_ss * (ss1 + ss2) in
  ss0 ← ss_dstn !! 0%nat;
  let G_ss :=
    tau_ss * wage_ss * ss0
    - (UI * (ss1 + ss2) + (1 + delta * qb_ss) * B_ss - qb_ss * B_ss) in
  let kappa := 0.07 * (wage_ss * phi_ss) in
  let HC_ss := (kappa / phi_ss) * (1 - (1 / R) * (1 - job_sep)) + wage_ss in
  let Z_ss := HC_ss / MC_ss in
  let Y_ss := Z_ss * N_ss in
  let pi_ss := 0 in
  Some {| v_ss := v_ss; theta_ss := theta_ss; chi_ss := chi_ss; eta_ss := eta_ss;
          delta := delta; qb_ss := qb_ss; B_ss := B_ss; Y_priv := Y_priv;
          G_ss := G_ss; kappa := kappa; HC_ss := HC_ss; Z_ss := Z_ss; Y_ss := Y_ss;
          pi_ss := pi_ss |}.

(** ** Section 3 of the module: the equilibrium blocks *)

(** An argument of a block is a path over dates; [x(k)] inside a block is the
    path displaced by [k] periods. A block is given here by the values of its
    outputs at a date [t]. *)
Definition path := Z -> Q.

Definition displace (x : path) (k : Z) : path := fun t => x (t + k)%Z.

Section Blocks.

(** Globals the blocks read: the employment rate of the labour-market
    calibration and the calibrated dictionary. *)
Variable N_ss : Q.
Variable ge : ge_params.

(** [x ** y] and [np.log]. *)
Variable float_pow : Q -> Q -> Q.
Variable np_log : Q -> Q.

Definition marginal_cost (HC Z' : path) (t : Z) : Q :=
  let MC := HC t / Z' t in
  MC.

Definition hiring_cost (HC Z' phi job_sep r_ante w : path) (t : Z) : Q :=
  let HC_resid :=
    HC t - (w t + kappa ge / phi t
            - (1 / (1 + r_ante t)) * (1 - job_sep t) * (kappa ge / displace phi 1 t)) in
  HC_resid.

Definition wage_ (w N phi_w : path) (t : Z) : Q :=
  let wage_resid :=
    np_log (w t / wage_ss)
    - (phi_w t * np_log (displace w (-1) t / wage_ss)
       + (1 - phi_w t) * np_log (N t / N_ss)) in
  wage_resid.

Definition Phillips_Curve (pi MC Y r_ante kappa_p : path) (t : Z) : Q :=
  let nkpc_resid :=
    np_log (1 + pi t)
    - (kappa_p t * (MC t - MC_ss)
       + (1 / (1 + r_ante t)) * (displace Y 1 t / Y t) * np_log (1 + displace pi 1 t)) in
  nkpc_resid.

Definition taylor (i pi Y ev rho_r phi_y phi_pi : path) (t : Z) : Q :=
  let taylor_resid :=
    i t - rho_r t * displace i (-1) t
    - (1 - rho_r t) * (phi_pi t * pi t + phi_y t * Y t) - ev t in
  taylor_resid.

Definition taylor_lagged (i pi Y ev rho_r phi_y phi_pi : path) (lag : Z) (t : Z) : Q :=
  let taylor_resid :=
    i t - rho_r t * displace i (-1) t
    - (1 - rho_r t) * (phi_pi t * displace pi (- lag) t + phi_y t * displace Y (- lag) t)
    - ev t in
  taylor_resid.

Definition matching (theta chi : path) (t : Z) : Q * Q :=
  let eta := chi t * float_pow (theta t) (1 - alpha) in
  let phi := chi t * float_pow (theta t) (- alpha) in
  (eta, phi).

Definition fiscal (B N qb G w v pi phi_b UI U1 U2 U3 U4 transfers UI_extend : path)
    (deficit_T : Z) (UI_rr : path) (t : Z) : Q * Q * Q * Q :=
  let fiscal_resid :=
    (1 + delta ge * qb t) * displace B (-1) t
    + G t
    + transfers t
    + UI t * (U1 t + U2 t)
    + UI_rr t * wage_ss * (1 - tau_ss) * (U1 t + U2 t)
    + UI_extend t * wage_ss * (1 - tau_ss) * (U3 t + U4 t)
    + - qb t * B t
    - (tau_ss + phi_b t * qb_ss ge * (displace B deficit_T t - B_ss ge) / Y_ss ge)
      * w t * N t in
  let UI_extension_cost := UI_extend t * wage_ss * (1 - tau_ss) * (U3 t + U4 t) in
  let UI_rr_cost := UI_rr t * wage_ss * (1 - tau_ss) * (U1 t + U2 t) in
  let debt := qb t * B t in
  (fiscal_resid, UI_extension_cost, debt, UI_rr_cost).

Definition fiscal_rule (B phi_b : path) (deficit_T : Z) (t : Z) : Q :=
  let tau := tau_ss + phi_b t * qb_ss ge * (displace B deficit_T t - B_ss ge) / Y_ss ge in
  tau.

Definition fiscal_G (B N qb w v pi UI U1 U2 transfers phi_G tau : path)
    (deficit_T : Z) (t : Z) : Q * Q :=
  let fiscal_resid :=
    (1 + delta ge * qb t) * displace B (-1) t
    + G_ss ge
    + phi_G t * qb_ss ge * (displace B deficit_T t - B_ss ge) / Y_ss ge
    + transfers t
    + UI t * (U1 t + U2 t)
    + - qb t * B t
    - tau t * w t * N t in
  let tax_cost := tau t * 1 * N_ss in
  (fiscal_resid, tax_cost).

Definition fiscal_rule_G (B phi_G : path) (deficit_T : Z) (t : Z) : Q :=
  let G := G_ss ge + phi_G t * qb_ss ge * (displace B deficit_T t - B_ss ge) / Y_ss ge in
  G.

Definition production (Z' N : path) (t : Z) : Q :=
  let Y := Z' t * N t in
  Y.

Definition ex_post_longbonds_rate (qb : path) (t : Z) : Q :=
  let r := (1 + delta ge * qb t) / displace qb (-1) t - 1 in
  r.

Definition longbonds_price (qb r_ante : path) (t : Z) : Q :=
  let lbp_resid := qb t - (1 + delta ge * displace qb 1 t) / (1 + r_ante t) in
  lbp_resid.

Definition vacancies (N phi job_sep : path) (t : Z) : Q :=
  let v := (N t - (1 - displace job_sep (-1) t) * displace N (-1) t) / phi t in
  v.

Definition mkt_clearing (C G A qb B w N U1 U2 U3 U4 U5 : path) (t : Z) : Q * Q * Q :=
  let Y_priv :=
    (1 - tau_ss) * wage_ss * 0.5 * (U3 t + U4 t + U5 t)
    + (1 - tau_ss) * wage_ss * 0.2 * (U1 t + U2 t) in
  let goods_mkt := C t + G t - w t * N t - Y_priv in
  let asset_mkt := A t - qb t * B t in
  (goods_mkt, asset_mkt, Y_priv).

Definition fisher_clearing (r_ante pi i : path) (t : Z) : Q :=
  let fisher_resid := 1 + r_ante t - ((1 + i t) / (1 + displace pi 1 t)) in
  fisher_resid.

Definition fisher_clearing_fixed_real_rate (pi : path) (t : Z) : Q :=
  let i := (1 + displace pi 1 t) * (1 + r_ss) - 1 in
  i.

Definition fiscal_fixed_real_rate
    (B N G w v pi phi_b UI U1 U2 U3 U4 transfers UI_extend : path)
    (deficit_T : Z) (UI_rr : path) (t : Z) : Q * Q * Q :=
  let fiscal_resid :=
    (1 + delta ge * qb_ss ge) * displace B (-1) t
    + G t
    + transfers t
    + UI t * (U1 t + U2 t)
    + UI_rr t * wage_ss * (1 - tau_ss) * (U1 t + U2 t)
    + UI_extend t * wage_ss * (1 - tau_ss) * (U3 t + U4 t)
    + - qb_ss ge * B t
    - (tau_ss + phi_b t * qb_ss ge * (displace B deficit_T t - B_ss ge) / Y_ss ge)
      * w t * N t in
  let UI_extension_cost := UI_extend t * wage_ss * (1 - tau_ss) * (U3 t + U4 t) in
  let UI_rr_cost := UI_rr t * wage_ss * (1 - tau_ss) * (U1 t + U2 t) in
  (fiscal_resid, UI_extension_cost, UI_rr_cost).

Definition fiscal_G_fixed_real_rate (B N w v pi UI U1 U2 transfers phi_G tau : path)
    (deficit_T : Z) (t : Z) : Q * Q :=
  let fiscal_resid :=
    (1 + delta ge * qb_ss ge) * displace B (-1) t
    + G_ss ge
    + phi_G t * qb_ss ge * (displace B deficit_T t - B_ss ge) / Y_ss ge
    + transfers t
    + UI t * (U1 t + U2 t)
    + - qb_ss ge * B t
    - tau t * w t * N t in
  let tax_cost := tau t * 1 * N_ss in
  (fiscal_resid, tax_cost).

End Blocks.

(** ** Section 4 of the module: the steady-state dictionary *)

(** The module-level [SteadyState_Dict], from the two calibrations. *)
Definition SteadyState_Dict (N_ss : Q) (ss_dstn : vec) (ge : ge_params)
    : option (gmap string pyval) :=
  U1 ← ss_dstn !! 1%nat; U2 ← ss_dstn !! 2%nat; U3 ← ss_dstn !! 3%nat;
  U4 ← ss_dstn !! 4%nat; U5 ← ss_dstn !! 5%nat;
  Some (list_to_map
    [ ("asset_mkt", PyFloat 0); ("goods_mkt", PyFloat 0);
      ("arg_fisher_resid", PyFloat 0); ("lbp_resid", PyFloat 0);
      ("fiscal_resid", PyFloat 0); ("labor_evo_resid", PyFloat 0);
      ("taylor_resid", PyFloat 0); ("nkpc_resid", PyFloat 0);
      ("epsilon_p", PyInt epsilon_p);
      ("U", PyFloat (1 - N_ss));
      ("U1", PyFloat U1); ("U2", PyFloat U2); ("U3", PyFloat U3);
      ("U4", PyFloat U4); ("U5", PyFloat U5);
      ("HC", PyFloat (MC_ss * Z_ss ge)); ("MC", PyFloat MC_ss);
      ("C", PyFloat C_ss_sim); ("r", PyFloat r_ss); ("r_ante", PyFloat r_ss);
      ("Y", PyFloat (Y_ss ge)); ("B", PyFloat (B_ss ge)); ("G", PyFloat (G_ss ge));
      ("A", PyFloat A_ss_sim); ("tau", PyFloat tau_ss); ("eta", PyFloat (eta_ss ge));
      ("phi_b", PyFloat phi_b); ("phi_w", PyFloat phi_w); ("N", PyFloat N_ss);
      ("phi", PyFloat phi_ss); ("v", PyFloat (v_ss ge)); ("ev", PyFloat 0);
      ("Z", PyFloat (Z_ss ge)); ("job_sep", PyFloat (job_sep job_find EU_prob));
      ("w", PyFloat wage_ss); ("pi", PyFloat (pi_ss ge)); ("i", PyFloat r_ss);
      ("qb", PyFloat (qb_ss ge)); ("varphi", PyFloat varphi); ("rho_r", PyFloat rho_r);
      ("kappa_p", PyFloat kappa_p_ss); ("phi_pi", PyFloat phi_pi);
      ("phi_y", PyFloat phi_y); ("chi", PyFloat (chi_ss ge));
      ("theta", PyFloat (theta_ss ge)); ("UI", PyFloat UI);
      ("transfers", PyFloat 0); ("UI_extend", PyFloat 0); ("deficit_T", PyInt (-1));
      ("UI_extension_cost", PyFloat 0); ("UI_rr", PyFloat 0);
      ("debt", PyFloat (qb_ss ge * B_ss ge));
      ("tax_cost", PyFloat (tau_ss * wage_ss * N_ss)); ("lag", PyInt (-1)) ]).

(** The number a dictionary entry stands for. *)
Definition py_float (v : pyval) : Q :=
  match v with PyInt z => inject_Z z | PyFloat q => q end.

(** The input a block receives for the argument [name] when the model sits
    at the steady state [d]: the dictionary's value, at every date. *)
Definition steady (d : gmap string pyval) (name : string) : path :=
  fun _ => py_float (default (PyFloat 0) (d !! name)).

(** The same for an argument used as a displacement. *)
Definition steady_int (d : gmap string pyval) (name : string) : Z :=
  match d !! name with Some (PyInt z) => z | _ => 0%Z end.

(** A stand-in for [**] with a fractional exponent, for sample runs. *)
Definition sample_pow (x y : Q) : Q := x.

(** The value a dictionary literal holds for a key: the first pair with that
    key. *)
Fixpoint assoc_lookup {V : Type} (k : string) (l : list (string * V)) : option V :=
  match l with
  | [] => None
  | (k', v) :: l' => if String.eqb k k' then Some v else assoc_lookup k l'
  end.

(** A sample distribution over the six states, and its employment rate. *)
Definition sample_dstn : vec := [0.9; 0.04; 0.03; 0.02; 0.005; 0.005].
Definition sample_N_ss : Q := 0.9.

(** A stand-in for [np.log] that vanishes at one. *)
Definition sample_log (x : Q) : Q := x - 1.

(** The sample store with the wage Jacobian taken out of the asset
    dictionary. *)
Definition sample_heap_without_w : heap :=
  <[3%positive := InputDict (delete "w" (sample_inner [[5; 6]; [7; 8]]))]> sample_heap.

(** The sample solver, returning nothing for the lagged-Taylor-rule model and
    for the UI-realisations model. *)
Definition sample_solve_nine (model : list Block.t) (ss : gmap string pyval)
    (unknowns targets : list string) (shocks : gmap string vec) : gmap string vec :=
  if decide (model = HANK_SAM_lagged_taylor_rule \/
             model = HANK_SAM_fixed_real_rate_UI_extend_real)
  then ∅ else sample_solve model ss unknowns targets shocks.

(** The sum of column [s], read off the rows. *)
Definition column_total (M : matrix) (s : nat) : Q :=
  foldr (fun row acc => default 0 (row !! s) + acc) 0 M.


(** * Properties *)

(** ** Six-state vectors *)

Lemma vec6_inv (v : vec) :
  length v = 6%nat -> exists a b c d e g, v = [a; b; c; d; e; g].
Proof.
  intros H.
  destruct v as [|a [|b [|c [|d [|e [|g [|]]]]]]]; try discriminate.
  by exists a, b, c, d, e, g.
Qed.

Lemma np_dot_length (M : matrix) (v : vec) : length (np_dot M v) = length M.
Proof. unfold np_dot. by rewrite length_map. Qed.

Ltac unfold_dot :=
  cbv [np_dot dot vsum zip_with foldr map create_matrix_U markov_array_ss
       col_sums replicate].

(** ** Column sums and conservation of mass *)

Lemma create_matrix_U_col_sums (jf eu dx : Q) :
  vec_eq (col_sums 6 (create_matrix_U jf eu dx)) (replicate 6 1).
Proof. unfold_dot. repeat constructor; ring. Qed.

Lemma markov_array_ss_col_sums (jf eu : Q) :
  vec_eq (col_sums 6 (markov_array_ss jf eu)) (replicate 6 1).
Proof. unfold_dot. repeat constructor; ring. Qed.

Lemma create_matrix_U_zero (jf eu : Q) :
  mat_eq (create_matrix_U jf eu 0) (markov_array_ss jf eu).
Proof. unfold_dot. repeat constructor; ring. Qed.

Lemma create_matrix_U_mass (jf eu dx : Q) (dstn : vec) :
  length dstn = 6%nat -> vsum (np_dot (create_matrix_U jf eu dx) dstn) == vsum dstn.
Proof.
  intros (a & b & c & d & e & g & ->)%vec6_inv. unfold_dot. ring.
Qed.

Lemma markov_array_ss_mass (jf eu : Q) (dstn : vec) :
  length dstn = 6%nat -> vsum (np_dot (markov_array_ss jf eu) dstn) == vsum dstn.
Proof.
  intros (a & b & c & d & e & g & ->)%vec6_inv. unfold_dot. ring.
Qed.

Lemma jacobian_step_mass (jf eu dx : Q) (s i : nat) (dstn : vec) :
  length dstn = 6%nat ->
  length (jacobian_step jf eu (markov_array_ss jf eu) dx s i dstn) = 6%nat /\
  vsum (jacobian_step jf eu (markov_array_ss jf eu) dx s i dstn) == vsum dstn.
Proof.
  intros H. unfold jacobian_step. destruct (i =? s)%nat.
  - split; [by rewrite np_dot_length | by apply create_matrix_U_mass].
  - split; [by rewrite np_dot_length | by apply markov_array_ss_mass].
Qed.

(** The distribution component of the loop state does not depend on the
    Jacobian array. *)
Lemma fst_foldl_jacobian_body (jf eu : Q) (M : matrix) (ss : vec) (dx : Q)
    (s : nat) (l : list nat) (st : vec * array3) :
  fst (foldl (jacobian_body jf eu M ss dx s) st l) =
  foldl (fun d i => jacobian_step jf eu M dx s i d) (fst st) l.
Proof.
  revert st. induction l as [|i l IH]; intros st; [done|].
  cbn [foldl]. by rewrite IH.
Qed.

Lemma fst_jacobian_column (jf eu : Q) (T : nat) (M : matrix) (ss : vec) (dx : Q)
    (st : vec * array3) (s : nat) :
  fst (jacobian_column jf eu T M ss dx st s) =
  foldl (fun d i => jacobian_step jf eu M dx s i d) (fst st) (seq 0 T).
Proof. apply fst_foldl_jacobian_body. Qed.

Lemma foldl_step_mass (jf eu dx : Q) (s : nat) (l : list nat) (dstn : vec) :
  length dstn = 6%nat ->
  length (foldl (fun d i => jacobian_step jf eu (markov_array_ss jf eu) dx s i d) dstn l) = 6%nat /\
  vsum (foldl (fun d i => jacobian_step jf eu (markov_array_ss jf eu) dx s i d) dstn l) == vsum dstn.
Proof.
  revert dstn. induction l as [|i l IH]; intros dstn H; [done|].
  cbn [foldl].
  destruct (jacobian_step_mass jf eu dx s i dstn H) as [Hl Hs].
  destruct (IH _ Hl) as [Hl' Hs']. split; [done|].
  exact (Qeq_trans _ _ _ Hs' Hs).
Qed.

Lemma jacobian_columns_mass (jf eu dx : Q) (T num : nat) (ss : vec) (n : nat) :
  length ss = 6%nat ->
  length (dstn_at_column_start jf eu T (markov_array_ss jf eu) ss num dx n) = 6%nat /\
  vsum (dstn_at_column_start jf eu T (markov_array_ss jf eu) ss num dx n) == vsum ss.
Proof.
  intros H. unfold dstn_at_column_start, jacobian_columns.
  induction n as [|n IH]; [done|].
  rewrite seq_S, foldl_app. cbn [foldl plus].
  rewrite !fst_jacobian_column.
  destruct IH as [Hl Hs].
  destruct (foldl_step_mass jf eu dx n (seq 0 T) _ Hl) as [Hl' Hs'].
  split; [done|]. exact (Qeq_trans _ _ _ Hs' Hs).
Qed.

(** C9. For every perturbation [dx] every column of the transition matrix of
    [create_matrix_U], and of the steady-state matrix of
    [calibrate_labor_market], sums to one; so [np.dot] with either matrix keeps
    the total mass of a six-state distribution, and the running distribution
    of the Jacobian forward simulation has the mass of the steady-state
    distribution after any number of shock columns and any number of further
    periods of the next one. *)
Theorem transition_matrix_column_stochastic
    (jf eu dx : Q) (T num : nat) (ss dstn : vec) (s i : nat)
    (Hss : length ss = 6%nat) (Hdstn : length dstn = 6%nat) :
  vec_eq (col_sums 6 (create_matrix_U jf eu dx)) (replicate 6 1) /\
  vec_eq (col_sums 6 (markov_array_ss jf eu)) (replicate 6 1) /\
  vsum (np_dot (create_matrix_U jf eu dx) dstn) == vsum dstn /\
  vsum (np_dot (markov_array_ss jf eu) dstn) == vsum dstn /\
  vsum (fst (foldl (jacobian_body jf eu (markov_array_ss jf eu) ss dx s)
               (jacobian_columns jf eu T (markov_array_ss jf eu) ss num dx s)
               (seq 0 i))) == vsum ss.
Proof.
  split; [apply create_matrix_U_col_sums|].
  split; [apply markov_array_ss_col_sums|].
  split; [by apply create_matrix_U_mass|].
  split; [by apply markov_array_ss_mass|].
  rewrite fst_foldl_jacobian_body.
  destruct (jacobian_columns_mass jf eu dx T num ss s Hss) as [Hl Hs].
  destruct (foldl_step_mass jf eu dx s (seq 0 i) _ Hl) as [_ Hs'].
  exact (Qeq_trans _ _ _ Hs' Hs).
Qed.

(** ** The stationary distribution *)

Lemma vec_eq_refl (u : vec) : vec_eq u u.
Proof. induction u; by constructor. Qed.

Lemma vec_eq_sym (u v : vec) : vec_eq u v -> vec_eq v u.
Proof. induction 1; constructor; [by symmetry | done]. Qed.

Lemma vec_eq_trans (u v w : vec) : vec_eq u v -> vec_eq v w -> vec_eq u w.
Proof. apply Forall2_trans. intros x y z. apply Qeq_trans. Qed.

Lemma Qsq_nonneg (a : Q) : 0 <= a * a.
Proof.
  destruct (Qlt_le_dec a 0) as [H|H].
  - assert (E : a * a == (- a) * (- a)) by ring. rewrite E.
    apply Qmult_le_0_compat; lra.
  - by apply Qmult_le_0_compat.
Qed.

Lemma Qsq_zero (a : Q) : a * a == 0 -> a == 0.
Proof. intros H. by apply Qmult_integral in H as [|]. Qed.

Lemma Qsq_sum_zero (a b : Q) : a * a + b * b == 0 -> a == 0 /\ b == 0.
Proof.
  intros H. pose proof (Qsq_nonneg a). pose proof (Qsq_nonneg b).
  split; apply Qsq_zero; lra.
Qed.

Lemma eigenvalue_is_one (a b Sx Sy : Q) :
  Sx == a * Sx - b * Sy -> Sy == a * Sy + b * Sx ->
  ~ (Sx == 0 /\ Sy == 0) -> a == 1 /\ b == 0.
Proof.
  intros H1 H2 Hnz.
  assert (E1 : (a - 1) * Sx - b * Sy == 0) by lra.
  assert (E2 : (a - 1) * Sy + b * Sx == 0) by lra.
  assert (Hx : ((a - 1) * (a - 1) + b * b) * Sx == 0).
  { transitivity ((a - 1) * ((a - 1) * Sx - b * Sy) + b * ((a - 1) * Sy + b * Sx));
      [ring|]. rewrite E1, E2. ring. }
  assert (Hy : ((a - 1) * (a - 1) + b * b) * Sy == 0).
  { transitivity ((a - 1) * ((a - 1) * Sy + b * Sx) - b * ((a - 1) * Sx - b * Sy));
      [ring|]. rewrite E1, E2. ring. }
  assert (Hn : (a - 1) * (a - 1) + b * b == 0).
  { destruct (Qeq_dec ((a - 1) * (a - 1) + b * b) 0) as [|Hne]; [done|].
    exfalso. apply Hnz. split.
    - apply Qmult_integral in Hx as [|]; [contradiction|done].
    - apply Qmult_integral in Hy as [|]; [contradiction|done]. }
  apply Qsq_sum_zero in Hn as [Ha Hb]. split; lra.
Qed.

Lemma modulus_pos (Sx Sy : Q) : ~ (Sx == 0 /\ Sy == 0) -> 0 < Sx * Sx + Sy * Sy.
Proof.
  intros Hnz. pose proof (Qsq_nonneg Sx). pose proof (Qsq_nonneg Sy).
  destruct (Qeq_dec (Sx * Sx + Sy * Sy) 0) as [E|E]; [|lra].
  by apply Qsq_sum_zero in E.
Qed.

(** A fixed point of the steady-state matrix has entries of one sign. *)
Lemma fixed_point_same_sign (jf eu : Q) (x0 x1 x2 x3 x4 x5 : Q) :
  valid_probabilities jf eu ->
  vec_eq (np_dot (markov_array_ss jf eu) [x0; x1; x2; x3; x4; x5]) [x0; x1; x2; x3; x4; x5] ->
  Forall (fun x => 0 <= x * (x0 + x1 + x2 + x3 + x4 + x5)) [x0; x1; x2; x3; x4; x5].
Proof.
  intros (Hf0 & Hf1 & He0 & He1) H.
  cbv [np_dot dot vsum zip_with foldr map markov_array_ss] in H.
  repeat (apply Forall2_cons_1 in H as [? H]).
  assert (Ejs : job_sep jf eu * (1 - jf) == eu) by (unfold job_sep; field; lra).
  set (r := 1 - jf) in *.
  assert (Hr : 0 <= r) by (unfold r in *; lra).
  assert (E1 : x1 == eu * x0) by (rewrite <- Ejs; lra).
  assert (E2 : x2 == (r * eu) * x0).
  { transitivity (r * x1); [lra | rewrite E1; ring]. }
  assert (E3 : x3 == (r * (r * eu)) * x0).
  { transitivity (r * x2); [lra | rewrite E2; ring]. }
  assert (E4 : x4 == (r * (r * (r * eu))) * x0).
  { transitivity (r * x3); [lra | rewrite E3; ring]. }
  assert (E5 : x5 == (r * (r * (r * (r * eu))) / jf) * x0).
  { transitivity (r * x4 / jf); [|rewrite E4; field; lra].
    assert (E : jf * x5 == r * x4) by (unfold r in *; lra).
    rewrite <- E. field. lra. }
  set (c2 := r * eu) in *. set (c3 := r * c2) in *. set (c4 := r * c3) in *.
  set (c5 := r * c4 / jf) in *.
  assert (Hc2 : 0 <= c2) by (by apply Qmult_le_0_compat).
  assert (Hc3 : 0 <= c3) by (by apply Qmult_le_0_compat).
  assert (Hc4 : 0 <= c4) by (by apply Qmult_le_0_compat).
  assert (Hc5 : 0 <= c5).
  { unfold c5, Qdiv. apply Qmult_le_0_compat; [by apply Qmult_le_0_compat|].
    apply Qinv_le_0_compat. lra. }
  assert (ES : x0 + x1 + x2 + x3 + x4 + x5 == (1 + eu + c2 + c3 + c4 + c5) * x0).
  { rewrite E1, E2, E3, E4, E5. ring. }
  assert (HS : 0 <= 1 + eu + c2 + c3 + c4 + c5) by lra.
  assert (Hk : forall c x, 0 <= c -> x == c * x0 ->
             0 <= x * (x0 + x1 + x2 + x3 + x4 + x5)).
  { intros c x Hc Ex. rewrite ES, Ex.
    assert (E : c * x0 * ((1 + eu + c2 + c3 + c4 + c5) * x0)
                == c * (1 + eu + c2 + c3 + c4 + c5) * (x0 * x0)) by ring.
    rewrite E. apply Qmult_le_0_compat; [by apply Qmult_le_0_compat|].
    apply Qsq_nonneg. }
  repeat constructor.
  - apply (Hk 1); [lra | ring].
  - by apply (Hk eu).
  - by apply (Hk c2).
  - by apply (Hk c3).
  - by apply (Hk c4).
  - by apply (Hk c5).
Qed.

Lemma complex_vec6_inv (z : list complex) :
  length z = 6%nat ->
  exists x0 y0 x1 y1 x2 y2 x3 y3 x4 y4 x5 y5,
    z = [Cx x0 y0; Cx x1 y1; Cx x2 y2; Cx x3 y3; Cx x4 y4; Cx x5 y5].
Proof.
  intros H.
  destruct z as [|[x0 y0] [|[x1 y1] [|[x2 y2] [|[x3 y3] [|[x4 y4] [|[x5 y5] [|]]]]]]];
    try discriminate.
  by exists x0, y0, x1, y1, x2, y2, x3, y3, x4, y4, x5, y5.
Qed.

Lemma Qabs_tolerance (q : Q) : q == 1 -> Qabs (q - 1) <= 1e-10.
Proof.
  intros H. assert (E : q - 1 == 0) by lra. rewrite E. by apply Qle_bool_imp_le.
Qed.

Ltac unfold_calibrate :=
  cbv [calibrate_labor_market csum cdiv cadd cmul re im foldr map vsum
       np_dot dot zip_with option_bind mbind lookup list_lookup length].

(** C6. For valid transition probabilities, when the eigen-solver returns an
    eigenpair of the steady-state matrix whose entry sum is not zero,
    [calibrate_labor_market] returns a distribution of six entries (the
    eigenvector divided by its sum, real part taken) that sums to one, exactly
    and hence within [1e-10], and whose entries are all non-negative. *)
Theorem stationary_distribution_valid
    (jf eu : Q) (eigs : matrix -> complex * list complex)
    (Hv : valid_probabilities jf eu)
    (He : eigs_contract (markov_array_ss jf eu) (eigs (markov_array_ss jf eu))) :
  exists ss U N,
    calibrate_labor_market jf eu eigs = Some (markov_array_ss jf eu, ss, U, N, 6%nat) /\
    length ss = 6%nat /\
    vsum ss == 1 /\
    Qabs (vsum ss - 1) <= 1e-10 /\
    Forall (fun p => 0 <= p) ss.
Proof.
  unfold calibrate_labor_market.
  destruct (eigs (markov_array_ss jf eu)) as [[a b] z].
  destruct He as (Hlen & Hre & Him & Hnz). cbn [fst snd] in *.
  apply complex_vec6_inv in Hlen
    as (x0 & y0 & x1 & y1 & x2 & y2 & x3 & y3 & x4 & y4 & x5 & y5 & ->).
  cbn [map re im cmul] in Hre, Him.
  cbv [cnonzero csum foldr cadd re im] in Hnz.
  set (Sx := x0 + (x1 + (x2 + (x3 + (x4 + (x5 + 0)))))) in *.
  set (Sy := y0 + (y1 + (y2 + (y3 + (y4 + (y5 + 0)))))) in *.
  pose proof (modulus_pos Sx Sy Hnz) as Hn.
  cbv [map cdiv csum foldr cadd re im length markov_array_ss].
  fold Sx Sy. fold (markov_array_ss jf eu).
  set (n := Sx * Sx + Sy * Sy) in *.
  assert (ESx : Sx == x0 + x1 + x2 + x3 + x4 + x5) by (unfold Sx; ring).
  assert (ESy : Sy == y0 + y1 + y2 + y3 + y4 + y5) by (unfold Sy; ring).
  assert (En : n == Sx * Sx + Sy * Sy) by reflexivity.
  clearbody n. clearbody Sx Sy.
  cbn [lookup list_lookup mbind option_bind].
  eexists _, _, _. split; [reflexivity|]. split; [reflexivity|].
  assert (Hsum : vsum [(x0 * Sx + y0 * Sy) / n; (x1 * Sx + y1 * Sy) / n;
                       (x2 * Sx + y2 * Sy) / n; (x3 * Sx + y3 * Sy) / n;
                       (x4 * Sx + y4 * Sy) / n; (x5 * Sx + y5 * Sy) / n] == 1).
  { cbv [vsum foldr].
    transitivity ((Sx * (x0 + x1 + x2 + x3 + x4 + x5)
                   + Sy * (y0 + y1 + y2 + y3 + y4 + y5)) / n); [field; lra|].
    rewrite <- ESx, <- ESy, <- En. field. lra. }
  split; [exact Hsum|]. split; [by apply Qabs_tolerance|].
  assert (Hab : a == 1 /\ b == 0).
  { pose proof Hre as Hre'. pose proof Him as Him'.
    cbv [np_dot dot vsum zip_with foldr map markov_array_ss] in Hre', Him'.
    repeat (apply Forall2_cons_1 in Hre' as [? Hre']).
    repeat (apply Forall2_cons_1 in Him' as [? Him']).
    apply (eigenvalue_is_one a b Sx Sy); [| |done].
    - rewrite ESx, ESy. lra.
    - rewrite ESx, ESy. lra. }
  destruct Hab as [Ha Hb].
  assert (Hx : vec_eq (np_dot (markov_array_ss jf eu) [x0; x1; x2; x3; x4; x5])
                 [x0; x1; x2; x3; x4; x5]).
  { eapply vec_eq_trans; [exact Hre|].
    repeat constructor; rewrite Ha, Hb; ring. }
  assert (Hy : vec_eq (np_dot (markov_array_ss jf eu) [y0; y1; y2; y3; y4; y5])
                 [y0; y1; y2; y3; y4; y5]).
  { eapply vec_eq_trans; [exact Him|].
    repeat constructor; rewrite Ha, Hb; ring. }
  apply (fixed_point_same_sign jf eu) in Hx; [|done].
  apply (fixed_point_same_sign jf eu) in Hy; [|done].
  assert (Hk : forall x y,
             0 <= x * (x0 + x1 + x2 + x3 + x4 + x5) ->
             0 <= y * (y0 + y1 + y2 + y3 + y4 + y5) ->
             0 <= (x * Sx + y * Sy) / n).
  { intros x y Hpx Hpy. apply Qle_shift_div_l; [done|].
    rewrite ESx, ESy. lra. }
  repeat (apply Forall_cons_1 in Hx as [? Hx]).
  repeat (apply Forall_cons_1 in Hy as [? Hy]).
  repeat constructor; by apply Hk.
Qed.

Lemma calibrated_probabilities_valid : valid_probabilities job_find EU_prob.
Proof. by repeat split. Qed.

Lemma csum_scaled (phase : complex) (l : vec) :
  re (csum (map (fun u => cmul phase (Cx u 0)) l)) == re phase * vsum l /\
  im (csum (map (fun u => cmul phase (Cx u 0)) l)) == im phase * vsum l.
Proof.
  induction l as [|u l [IHr IHi]]; cbn [map csum vsum foldr cadd re im].
  - split; ring.
  - fold (csum (map (fun u => cmul phase (Cx u 0)) l)). fold (vsum l).
    rewrite IHr, IHi. cbn [cmul re im]. split; ring.
Qed.

Lemma exact_eigs_contract (phase : complex) :
  cnonzero phase ->
  eigs_contract (markov_array_ss job_find EU_prob)
    (exact_eigs phase (markov_array_ss job_find EU_prob)).
Proof.
  intros Hnz. unfold eigs_contract, exact_eigs. cbn [fst snd].
  split; [done|]. split; [|split].
  - cbv [stationary_direction map cmul re im np_dot dot vsum zip_with foldr
         markov_array_ss].
    repeat constructor; unfold job_sep, job_find, EU_prob; field.
  - cbv [stationary_direction map cmul re im np_dot dot vsum zip_with foldr
         markov_array_ss].
    repeat constructor; unfold job_sep, job_find, EU_prob; field.
  - destruct (csum_scaled phase (stationary_direction job_find EU_prob)) as [Er Ei].
    intros [Hp Hq]. apply Hnz. rewrite Er in Hp. rewrite Ei in Hq.
    apply Qmult_integral in Hp as [Hp|Hp]; [|by vm_compute in Hp].
    apply Qmult_integral in Hq as [Hq|Hq]; [|by vm_compute in Hq].
    done.
Qed.

(** C6, at the calibrated probabilities with a complex-scaled eigenvector. *)
Lemma stationary_distribution_valid_witness :
  valid_probabilities job_find EU_prob /\
  eigs_contract (markov_array_ss job_find EU_prob)
    (exact_eigs (Cx 1 2) (markov_array_ss job_find EU_prob)) /\
  exists ss U N,
    calibrate_labor_market job_find EU_prob (exact_eigs (Cx 1 2)) =
      Some (markov_array_ss job_find EU_prob, ss, U, N, 6%nat) /\
    length ss = 6%nat /\
    vsum ss == 1 /\
    Qabs (vsum ss - 1) <= 1e-10 /\
    Forall (fun p => 0 <= p) ss.
Proof.
  assert (Hc : eigs_contract (markov_array_ss job_find EU_prob)
                 (exact_eigs (Cx 1 2) (markov_array_ss job_find EU_prob))).
  { apply exact_eigs_contract. intros [H _]. by vm_compute in H. }
  split; [exact calibrated_probabilities_valid|]. split; [exact Hc|].
  exact (stationary_distribution_valid job_find EU_prob (exact_eigs (Cx 1 2))
           calibrated_probabilities_valid Hc).
Defined.

(** Normalising by the entry sum: whatever six-entry vector the eigen-solver
    returns, if its sum is not zero the real parts of the normalised entries
    add up to one. *)
Lemma calibrate_labor_market_sum
    (jf eu : Q) (eigs : matrix -> complex * list complex) :
  length (snd (eigs (markov_array_ss jf eu))) = 6%nat ->
  cnonzero (csum (snd (eigs (markov_array_ss jf eu)))) ->
  exists p0 p1 p2 p3 p4 p5,
    calibrate_labor_market jf eu eigs =
      Some (markov_array_ss jf eu, [p0; p1; p2; p3; p4; p5], 1 - p0, p0, 6%nat) /\
    p0 + p1 + p2 + p3 + p4 + p5 == 1.
Proof.
  unfold calibrate_labor_market.
  destruct (eigs (markov_array_ss jf eu)) as [[a b] z]. cbn [fst snd].
  intros Hlen Hnz.
  apply complex_vec6_inv in Hlen
    as (x0 & y0 & x1 & y1 & x2 & y2 & x3 & y3 & x4 & y4 & x5 & y5 & ->).
  cbv [cnonzero csum foldr cadd re im] in Hnz.
  set (Sx := x0 + (x1 + (x2 + (x3 + (x4 + (x5 + 0)))))) in *.
  set (Sy := y0 + (y1 + (y2 + (y3 + (y4 + (y5 + 0)))))) in *.
  pose proof (modulus_pos Sx Sy Hnz) as Hn.
  cbv [map cdiv csum foldr cadd re im length markov_array_ss].
  fold Sx Sy. fold (markov_array_ss jf eu).
  set (n := Sx * Sx + Sy * Sy) in *.
  assert (ESx : Sx == x0 + x1 + x2 + x3 + x4 + x5) by (unfold Sx; ring).
  assert (ESy : Sy == y0 + y1 + y2 + y3 + y4 + y5) by (unfold Sy; ring).
  assert (En : n == Sx * Sx + Sy * Sy) by reflexivity.
  clearbody n. clearbody Sx Sy.
  cbn [lookup list_lookup mbind option_bind].
  eexists _, _, _, _, _, _. split; [reflexivity|].
  transitivity ((Sx * (x0 + x1 + x2 + x3 + x4 + x5)
                 + Sy * (y0 + y1 + y2 + y3 + y4 + y5)) / n); [field; lra|].
  rewrite <- ESx, <- ESy, <- En. field. lra.
Qed.

(** C8. The employment rate [N_ss] and the five unemployed masses of the
    calibrated distribution, aggregated by the [unemployment1] block, add up
    to one (exactly, hence within [1e-10]); the aggregate is the returned
    [U_ss]. *)
Theorem employment_plus_unemployment_is_one
    (jf eu : Q) (eigs : matrix -> complex * list complex)
    (He : eigs_contract (markov_array_ss jf eu) (eigs (markov_array_ss jf eu))) :
  exists N_ss U1 U2 U3 U4 U5 U_ss,
    calibrate_labor_market jf eu eigs =
      Some (markov_array_ss jf eu, [N_ss; U1; U2; U3; U4; U5], U_ss, N_ss, 6%nat) /\
    N_ss + unemployment1 U1 U2 U3 U4 U5 == 1 /\
    Qabs (N_ss + unemployment1 U1 U2 U3 U4 U5 - 1) <= 1e-10 /\
    unemployment1 U1 U2 U3 U4 U5 == U_ss.
Proof.
  destruct He as (Hlen & _ & _ & Hnz).
  destruct (calibrate_labor_market_sum jf eu eigs Hlen Hnz)
    as (p0 & p1 & p2 & p3 & p4 & p5 & Hc & Hs).
  exists p0, p1, p2, p3, p4, p5, (1 - p0). split; [exact Hc|].
  unfold unemployment1.
  assert (E : p0 + (p1 + p2 + p3 + p4 + p5) == 1) by lra.
  split; [exact E|]. split; [by apply Qabs_tolerance | lra].
Qed.

(** C8, at the calibrated probabilities. *)
Lemma employment_plus_unemployment_is_one_witness :
  eigs_contract (markov_array_ss job_find EU_prob)
    (exact_eigs (Cx 1 2) (markov_array_ss job_find EU_prob)) /\
  exists N_ss U1 U2 U3 U4 U5 U_ss,
    calibrate_labor_market job_find EU_prob (exact_eigs (Cx 1 2)) =
      Some (markov_array_ss job_find EU_prob, [N_ss; U1; U2; U3; U4; U5], U_ss,
            N_ss, 6%nat) /\
    N_ss + unemployment1 U1 U2 U3 U4 U5 == 1 /\
    Qabs (N_ss + unemployment1 U1 U2 U3 U4 U5 - 1) <= 1e-10 /\
    unemployment1 U1 U2 U3 U4 U5 == U_ss.
Proof.
  assert (Hc : eigs_contract (markov_array_ss job_find EU_prob)
                 (exact_eigs (Cx 1 2) (markov_array_ss job_find EU_prob))).
  { apply exact_eigs_contract. intros [H _]. by vm_compute in H. }
  split; [exact Hc|].
  exact (employment_plus_unemployment_is_one job_find EU_prob
           (exact_eigs (Cx 1 2)) Hc).
Defined.

(** C9, at the calibrated probabilities with a horizon of two periods. *)
Lemma transition_matrix_column_stochastic_witness :
  length ss_dstn_calibrated = 6%nat /\
  length [1; 0; 0; 0; 0; 0] = 6%nat /\
  vec_eq (col_sums 6 (create_matrix_U job_find EU_prob 0.0001)) (replicate 6 1) /\
  vec_eq (col_sums 6 (markov_array_ss job_find EU_prob)) (replicate 6 1) /\
  vsum (np_dot (create_matrix_U job_find EU_prob 0.0001) [1; 0; 0; 0; 0; 0])
    == vsum [1; 0; 0; 0; 0; 0] /\
  vsum (np_dot (markov_array_ss job_find EU_prob) [1; 0; 0; 0; 0; 0])
    == vsum [1; 0; 0; 0; 0; 0] /\
  vsum (fst (foldl (jacobian_body job_find EU_prob (markov_array_ss job_find EU_prob)
                      ss_dstn_calibrated 0.0001 1)
               (jacobian_columns job_find EU_prob 2 (markov_array_ss job_find EU_prob)
                  ss_dstn_calibrated 6 0.0001 1)
               (seq 0 1))) == vsum ss_dstn_calibrated.
Proof.
  split; [reflexivity|]. split; [reflexivity|].
  apply (transition_matrix_column_stochastic job_find EU_prob 0.0001 2 6
           ss_dstn_calibrated [1; 0; 0; 0; 0; 0] 1 1); reflexivity.
Defined.

(** ** Reads and writes of the Jacobian array *)

Lemma entry3_set_slice (U : array3) (i s : nat) (v : vec) (k i' s' : nat) :
  entry3 (set_slice U i s v) k i' s' =
  match entry3 U k i' s' with
  | None => None
  | Some old =>
      if decide (i' = i /\ s' = s) then Some (default old (v !! k)) else Some old
  end.
Proof.
  unfold entry3, set_slice. rewrite list_lookup_imap.
  destruct (U !! k) as [plane|]; cbn [fmap option_fmap option_map mbind option_bind]; [|done].
  destruct (v !! k) as [x|] eqn:Hv; cbn [default].
  - destruct (decide (i' = i)) as [->|Hi].
    + rewrite list_lookup_alter_eq.
      destruct (plane !! i) as [row|]; cbn; [|done].
      destruct (decide (s' = s)) as [->|Hs].
      * destruct (row !! s) as [old|] eqn:Hr.
        -- rewrite list_lookup_insert_eq; [|by eapply lookup_lt_Some].
           by rewrite decide_True.
        -- apply lookup_ge_None in Hr. rewrite list_insert_ge by done.
           by apply lookup_ge_None in Hr as ->.
      * rewrite list_lookup_insert_ne by done.
        destruct (row !! s'); [|done]. by rewrite decide_False by tauto.
    + rewrite list_lookup_alter_ne by done.
      destruct (plane !! i' ≫= _); [|done]. by rewrite decide_False by tauto.
  - destruct (plane !! i' ≫= _); [|done]. by destruct (decide _).
Qed.

Lemma entry3_set_slice_other (U : array3) (i s : nat) (v : vec) (k i' s' : nat) :
  ~ (i' = i /\ s' = s) ->
  entry3 (set_slice U i s v) k i' s' = entry3 U k i' s'.
Proof.
  intros H. rewrite entry3_set_slice.
  destruct (entry3 U k i' s'); [|done]. by rewrite decide_False.
Qed.

Lemma entry3_set_slice_same (U : array3) (i s : nat) (v : vec) (k : nat) (x : Q) :
  is_Some (entry3 U k i s) -> v !! k = Some x ->
  entry3 (set_slice U i s v) k i s = Some x.
Proof.
  intros [old Ho] Hv. rewrite entry3_set_slice, Ho, Hv.
  by rewrite decide_True.
Qed.

Lemma entry3_set_slice_is_Some (U : array3) (i s : nat) (v : vec) (k i' s' : nat) :
  is_Some (entry3 U k i' s') -> is_Some (entry3 (set_slice U i s v) k i' s').
Proof.
  intros [old Ho]. rewrite entry3_set_slice, Ho. by destruct (decide _).
Qed.

Lemma entry3_zeros3 (a b c k i s : nat) :
  (k < a)%nat -> (i < b)%nat -> (s < c)%nat -> entry3 (zeros3 a b c) k i s = Some 0.
Proof.
  intros Hk Hi Hs. unfold entry3, zeros3.
  rewrite lookup_replicate_2 by done. cbn.
  rewrite lookup_replicate_2 by done. cbn.
  by rewrite lookup_replicate_2.
Qed.

Section JacobianArray.
Variables (jf eu : Q) (T : nat) (M : matrix) (ss : vec) (dx : Q).

Lemma jacobian_body_is_Some (s : nat) (l : list nat) (st : vec * array3) (k i0 s0 : nat) :
  is_Some (entry3 (snd st) k i0 s0) ->
  is_Some (entry3 (snd (foldl (jacobian_body jf eu M ss dx s) st l)) k i0 s0).
Proof.
  revert st. induction l as [|i l IH]; intros st H; [done|].
  cbn [foldl]. apply IH. cbn [jacobian_body snd]. by apply entry3_set_slice_is_Some.
Qed.

Lemma jacobian_column_is_Some (ls : list nat) (st : vec * array3) (k i0 s0 : nat) :
  is_Some (entry3 (snd st) k i0 s0) ->
  is_Some (entry3 (snd (foldl (jacobian_column jf eu T M ss dx) st ls)) k i0 s0).
Proof.
  revert st. induction ls as [|s ls IH]; intros st H; [done|].
  cbn [foldl]. apply IH. by apply jacobian_body_is_Some.
Qed.

Lemma jacobian_body_frame (s : nat) (l : list nat) (st : vec * array3) (k i0 s0 : nat) :
  Forall (fun i => ~ (i0 = i /\ s0 = s)) l ->
  entry3 (snd (foldl (jacobian_body jf eu M ss dx s) st l)) k i0 s0 =
  entry3 (snd st) k i0 s0.
Proof.
  revert st. induction l as [|i l IH]; intros st H; [done|].
  apply Forall_cons_1 in H as [Hi Hl]. cbn [foldl]. rewrite IH by done.
  cbn [jacobian_body snd]. by apply entry3_set_slice_other.
Qed.

Lemma jacobian_column_frame (ls : list nat) (st : vec * array3) (k i0 s0 : nat) :
  Forall (fun s => s0 <> s) ls ->
  entry3 (snd (foldl (jacobian_column jf eu T M ss dx) st ls)) k i0 s0 =
  entry3 (snd st) k i0 s0.
Proof.
  revert st. induction ls as [|s ls IH]; intros st H; [done|].
  apply Forall_cons_1 in H as [Hs Hl]. cbn [foldl]. rewrite IH by done.
  apply jacobian_body_frame. apply Forall_forall. intros i _ [_ ?]. done.
Qed.

End JacobianArray.

(** ** The employed mass along the forward simulation *)

Lemma unperturbed_step_mass0 (jf eu : Q) (ss d : vec) :
  length ss = 6%nat -> length d = 6%nat ->
  vec_eq (np_dot (markov_array_ss jf eu) ss) ss ->
  vsum d == vsum ss ->
  mass0 (np_dot (markov_array_ss jf eu) d) - mass0 ss
    == carry_factor jf eu * (mass0 d - mass0 ss).
Proof.
  intros (s0 & s1 & s2 & s3 & s4 & s5 & ->)%vec6_inv
         (d0 & d1 & d2 & d3 & d4 & d5 & ->)%vec6_inv Hfix Hsum.
  cbv [np_dot dot vsum zip_with foldr map markov_array_ss] in Hfix.
  apply Forall2_cons_1 in Hfix as [H0 _].
  cbv [np_dot dot vsum zip_with foldr map markov_array_ss mass0 default from_option id lookup
       list_lookup carry_factor] in *.
  set (A := job_sep jf eu * (1 - jf)) in *. clearbody A.
  assert (Ed : d1 + d2 + d3 + d4 + d5 == (s1 + s2 + s3 + s4 + s5) - (d0 - s0)) by lra.
  transitivity ((1 - A) * d0 + jf * (d1 + d2 + d3 + d4 + d5)
                - ((1 - A) * s0 + jf * (s1 + s2 + s3 + s4 + s5))); [lra|].
  rewrite Ed. ring.
Qed.

Lemma perturbed_step_mass0 (jf eu dx : Q) (ss : vec) :
  length ss = 6%nat ->
  vec_eq (np_dot (markov_array_ss jf eu) ss) ss ->
  mass0 (np_dot (create_matrix_U jf eu dx) ss) - mass0 ss
    == dx * (job_sep jf eu * mass0 ss + (vsum ss - mass0 ss)).
Proof.
  intros (s0 & s1 & s2 & s3 & s4 & s5 & ->)%vec6_inv Hfix.
  cbv [np_dot dot vsum zip_with foldr map markov_array_ss] in Hfix.
  apply Forall2_cons_1 in Hfix as [H0 _].
  cbv [np_dot dot vsum zip_with foldr map create_matrix_U mass0 default from_option id lookup
       list_lookup] in *.
  set (js := job_sep jf eu) in *. clearbody js.
  transitivity ((1 - js * (1 - (jf + dx))) * s0 + (jf + dx) * (s1 + s2 + s3 + s4 + s5)
                - ((1 - js * (1 - jf)) * s0 + jf * (s1 + s2 + s3 + s4 + s5))); [lra|].
  ring.
Qed.

Lemma vec_eq_mass0 (u v : vec) : vec_eq u v -> mass0 u == mass0 v.
Proof. intros H. destruct H; [reflexivity | done]. Qed.

Lemma recorded_mass0 (d ss : vec) (dx : Q) :
  length d = 6%nat -> length ss = 6%nat ->
  vdiv (vsub d ss) dx !! 0%nat = Some ((mass0 d - mass0 ss) / dx).
Proof.
  intros (d0 & d1 & d2 & d3 & d4 & d5 & ->)%vec6_inv
         (s0 & s1 & s2 & s3 & s4 & s5 & ->)%vec6_inv.
  reflexivity.
Qed.

Section CarryOver.
Variables (jf eu dx : Q) (ss : vec).
Hypothesis Hlen : length ss = 6%nat.
Hypothesis Hfix : vec_eq (np_dot (markov_array_ss jf eu) ss) ss.
Hypothesis Hcarry : ~ carry_factor jf eu == 0.

Lemma unperturbed_run_off_steady (s : nat) (l : list nat) (d : vec) :
  Forall (fun i => i <> s) l ->
  length d = 6%nat -> vsum d == vsum ss -> ~ mass0 d == mass0 ss ->
  length (foldl (fun d i => jacobian_step jf eu (markov_array_ss jf eu) dx s i d) d l) = 6%nat /\
  vsum (foldl (fun d i => jacobian_step jf eu (markov_array_ss jf eu) dx s i d) d l) == vsum ss /\
  ~ mass0 (foldl (fun d i => jacobian_step jf eu (markov_array_ss jf eu) dx s i d) d l)
      == mass0 ss.
Proof.
  revert d. induction l as [|i l IH]; intros d Hl Hd Hs Hm; [done|].
  apply Forall_cons_1 in Hl as [Hi Hl]. cbn [foldl].
  apply IH; [done| | |].
  - by apply jacobian_step_mass.
  - destruct (jacobian_step_mass jf eu dx s i d Hd) as [_ E].
    exact (Qeq_trans _ _ _ E Hs).
  - unfold jacobian_step. rewrite (proj2 (Nat.eqb_neq i s)) by done.
    intros E.
    pose proof (unperturbed_step_mass0 jf eu ss d Hlen Hd Hfix Hs) as Hstep.
    rewrite E in Hstep.
    assert (E0 : carry_factor jf eu * (mass0 d - mass0 ss) == 0) by lra.
    apply Qmult_integral in E0 as [E0|E0]; [done|]. apply Hm. lra.
Qed.

Hypothesis Hshock :
  ~ dx * (job_sep jf eu * mass0 ss + (vsum ss - mass0 ss)) == 0.

(** After the whole of shock column 0 the employed mass is still off its
    steady-state value. *)
Lemma column_one_starts_off_steady (T' num : nat) :
  length (dstn_at_column_start jf eu (S T') (markov_array_ss jf eu) ss num dx 1) = 6%nat /\
  vsum (dstn_at_column_start jf eu (S T') (markov_array_ss jf eu) ss num dx 1) == vsum ss /\
  ~ mass0 (dstn_at_column_start jf eu (S T') (markov_array_ss jf eu) ss num dx 1)
      == mass0 ss.
Proof.
  unfold dstn_at_column_start, jacobian_columns. cbn [seq foldl].
  rewrite fst_jacobian_column. cbn [seq foldl jacobian_init fst].
  apply unperturbed_run_off_steady.
  - apply Forall_forall. intros i Hi%elem_of_seq. lia.
  - unfold jacobian_step. cbn [Nat.eqb]. by rewrite np_dot_length.
  - unfold jacobian_step. cbn [Nat.eqb]. by apply create_matrix_U_mass.
  - unfold jacobian_step. cbn [Nat.eqb]. intros E.
    pose proof (perturbed_step_mass0 jf eu dx ss Hlen Hfix) as Hstep.
    rewrite E in Hstep. apply Hshock. lra.
Qed.

Hypothesis Hdx : ~ dx == 0.

(** The array entry for employed state 0, response period 0, shock period 1. *)
Lemma entry_before_shock_nonzero (T'' : nat) :
  exists q,
    entry3 (snd (jacobian_columns jf eu (S (S T'')) (markov_array_ss jf eu) ss 6 dx
                   (S (S T'')))) 0 0 1 = Some q /\
    ~ q == 0.
Proof.
  set (T := S (S T'')).
  set (M := markov_array_ss jf eu).
  destruct (column_one_starts_off_steady (S T'') 6) as (Hl1 & Hs1 & Hm1).
  fold T M in Hl1, Hs1, Hm1.
  set (d0 := dstn_at_column_start jf eu T M ss 6 dx 1) in *.
  set (d1 := np_dot M d0).
  exists ((mass0 d1 - mass0 ss) / dx). split.
  - unfold jacobian_columns.
    change (seq 0 T) with (0 :: 1 :: seq 2 T'')%nat. cbn [foldl].
    rewrite jacobian_column_frame
      by (apply Forall_forall; intros s Hs%elem_of_seq; lia).
    unfold jacobian_column at 1.
    change (seq 0 T) with (0 :: seq 1 (S T''))%nat. cbn [foldl].
    rewrite jacobian_body_frame
      by (apply Forall_forall; intros i Hi%elem_of_seq; lia).
    cbn [jacobian_body snd fst].
    apply entry3_set_slice_same.
    + apply jacobian_body_is_Some. cbn [jacobian_init snd].
      rewrite entry3_zeros3; [done|lia|lia|lia].
    + unfold jacobian_step. cbn [Nat.eqb].
      change (vdiv (vsub d1 ss) dx !! 0%nat = Some ((mass0 d1 - mass0 ss) / dx)).
      apply recorded_mass0; [|done]. unfold d1. by rewrite np_dot_length.
  - intros E.
    pose proof (unperturbed_step_mass0 jf eu ss d0 Hlen Hl1 Hfix Hs1) as Hstep.
    fold M d1 in Hstep. clearbody d1. clearbody d0.
    assert (E0 : mass0 d1 - mass0 ss == 0).
    { transitivity ((mass0 d1 - mass0 ss) / dx * dx); [by field|].
      rewrite E. ring. }
    rewrite E0 in Hstep. symmetry in Hstep.
    apply Qmult_integral in Hstep as [H|H]; [done|]. apply Hm1. lra.
Qed.

End CarryOver.

(** What the loops record: the cell [(k, i, s)] of the array holds the gap
    between the running distribution after period [i] of shock column [s]
    and the steady state, over [dx]; the running distribution of a column
    starts from whatever the previous column left and takes the perturbed
    matrix at period [s] only. *)
Lemma jacobian_entry_recorded (jf eu : Q) (T : nat) (M : matrix) (ss : vec)
    (num : nat) (dx : Q) (k i s : nat) (x : Q) :
  (k < num)%nat -> (i < T)%nat -> (s < T)%nat ->
  vdiv (vsub (foldl (fun d j => jacobian_step jf eu M dx s j d)
                (dstn_at_column_start jf eu T M ss num dx s) (seq 0 (S i)))
          ss) dx !! k = Some x ->
  entry3 (snd (jacobian_columns jf eu T M ss num dx T)) k i s = Some x.
Proof.
  intros Hk Hi Hs Hx. unfold jacobian_columns.
  replace T with (s + S (T - S s))%nat at 3 by lia.
  rewrite seq_app, foldl_app. cbn [seq foldl plus].
  rewrite jacobian_column_frame
    by (apply Forall_forall; intros s' Hs'%elem_of_seq; lia).
  set (st := foldl (jacobian_column jf eu T M ss dx) (jacobian_init T ss num) (seq 0 s)).
  unfold jacobian_column.
  replace T with (i + S (T - S i))%nat at 1 by lia.
  rewrite seq_app, foldl_app. cbn [seq foldl plus].
  rewrite jacobian_body_frame
    by (apply Forall_forall; intros i' Hi'%elem_of_seq; lia).
  cbn [jacobian_body snd fst]. rewrite fst_foldl_jacobian_body.
  apply entry3_set_slice_same.
  - apply jacobian_body_is_Some. unfold st. apply jacobian_column_is_Some.
    cbn [jacobian_init snd]. by rewrite entry3_zeros3.
  - rewrite seq_S, foldl_app in Hx. exact Hx.
Qed.

Lemma ss_dstn_calibrated_fixed :
  vec_eq (np_dot (markov_array_ss job_find EU_prob) ss_dstn_calibrated)
    ss_dstn_calibrated.
Proof. repeat constructor; by vm_compute. Qed.

(** C1. The loops of [compute_unemployment_jacobian] set the running
    distribution to the steady state once, before the first shock column, and
    never again: at the calibrated matrix, horizon 300 and [dx = 0.0001] the
    distribution that starts shock column 1 is the one column 0 ended with,
    which is not the steady state, and the recorded entry for the employed
    state at response period 0 of shock column 1 is not zero, although a
    simulation restarted from the steady state records zero there. *)
Theorem unemployment_jacobian_carries_over :
  vec_eq (np_dot (markov_array_ss job_find EU_prob) ss_dstn_calibrated)
    ss_dstn_calibrated /\
  ~ vec_eq (dstn_at_column_start job_find EU_prob bigT
              (markov_array_ss job_find EU_prob) ss_dstn_calibrated 6 0.0001 1)
      ss_dstn_calibrated /\
  vec_eq (vdiv (vsub (np_dot (markov_array_ss job_find EU_prob) ss_dstn_calibrated)
                  ss_dstn_calibrated) 0.0001)
    (replicate 6 0) /\
  exists q,
    entry3 (compute_unemployment_jacobian job_find EU_prob bigT
              (markov_array_ss job_find EU_prob) ss_dstn_calibrated 6) 0 0 1 = Some q /\
    ~ q == 0.
Proof.
  assert (Hcarry : ~ carry_factor job_find EU_prob == 0)
    by (intros H; by vm_compute in H).
  assert (Hshock : ~ 0.0001 * (job_sep job_find EU_prob * mass0 ss_dstn_calibrated
                               + (vsum ss_dstn_calibrated - mass0 ss_dstn_calibrated)) == 0)
    by (intros H; by vm_compute in H).
  assert (Hdx : ~ 0.0001 == 0) by (intros H; by vm_compute in H).
  split; [exact ss_dstn_calibrated_fixed|]. split; [|split].
  - intros E%vec_eq_mass0. revert E.
    change bigT with (S 299).
    by apply (column_one_starts_off_steady job_find EU_prob 0.0001 ss_dstn_calibrated
                eq_refl ss_dstn_calibrated_fixed Hcarry Hshock 299 6).
  - repeat constructor; by vm_compute.
  - unfold compute_unemployment_jacobian. change bigT with (S (S 298)).
    by apply (entry_before_shock_nonzero job_find EU_prob 0.0001 ss_dstn_calibrated
                eq_refl ss_dstn_calibrated_fixed Hcarry Hshock Hdx 298).
Qed.

(** ** Net present value *)

Lemma lincomb_lookup (a b : Q) (x y : vec) (i : nat) (xi yi : Q) :
  x !! i = Some xi -> y !! i = Some yi ->
  lincomb a x b y !! i = Some (a * xi + b * yi).
Proof.
  intros Hx Hy. unfold lincomb.
  rewrite lookup_zip_with, !list_lookup_fmap, Hx, Hy. done.
Qed.

Lemma NPV_loop_linear (a b : Q) (x y : vec) (r : Q) (range : list nat)
    (accx accy acc : Q) :
  length x = length y ->
  Forall (fun i => (i < length x)%nat) range ->
  acc == a * accx + b * accy ->
  exists vx vy v,
    NPV_loop x r range accx = Some vx /\
    NPV_loop y r range accy = Some vy /\
    NPV_loop (lincomb a x b y) r range acc = Some v /\
    v == a * vx + b * vy.
Proof.
  intros Hlen. revert accx accy acc.
  induction range as [|i range IH]; intros accx accy acc Hr Hacc.
  - exists accx, accy, acc. by cbn.
  - apply Forall_cons_1 in Hr as [Hi Hr].
    destruct (lookup_lt_is_Some_2 x i Hi) as [xi Hx].
    destruct (lookup_lt_is_Some_2 y i ltac:(lia)) as [yi Hy].
    cbn [NPV_loop]. rewrite Hx, Hy, (lincomb_lookup a b x y i xi yi Hx Hy). cbn.
    apply IH; [done|]. rewrite Hacc. unfold Qdiv. ring.
Qed.

(** The loop computes the discounted sum. *)
Lemma NPV_loop_sum (x : vec) (r : Q) (range : list nat) (acc : Q) :
  Forall (fun i => (i < length x)%nat) range ->
  exists v,
    NPV_loop x r range acc = Some v /\
    v == acc + vsum (map (fun i => default 0 (x !! i) / r ^ Z.of_nat i) range).
Proof.
  revert acc. induction range as [|i range IH]; intros acc Hr.
  - exists acc. split; [done|]. cbn. ring.
  - apply Forall_cons_1 in Hr as [Hi Hr].
    destruct (lookup_lt_is_Some_2 x i Hi) as [xi Hx].
    cbn [NPV_loop]. rewrite Hx. cbn [mbind option_bind].
    destruct (IH (acc + xi / r ^ Z.of_nat i) Hr) as (v & Hv & Ev).
    exists v. split; [done|]. rewrite Ev. cbn [map vsum foldr].
    rewrite Hx. cbn. fold (vsum (map (fun i => default 0 (x !! i) / r ^ Z.of_nat i) range)).
    ring.
Qed.

Lemma seq_below (n m : nat) : (n <= m)%nat -> Forall (fun i => (i < m)%nat) (seq 0 n).
Proof. intros H. apply Forall_forall. intros i Hi%elem_of_seq. lia. Qed.

Lemma NPV_discounted_sum (x : vec) (n : nat) (discount_rate : option Q) :
  (n <= length x)%nat ->
  exists v, NPV x n discount_rate = Some v /\
            v == discounted_sum x (default R discount_rate) n.
Proof.
  intros Hn. unfold NPV, discounted_sum.
  destruct (NPV_loop_sum x (default R discount_rate) (seq 0 n) 0 (seq_below n _ Hn))
    as (v & Hv & Ev).
  exists v. split; [done|]. rewrite Ev. ring.
Qed.

(** C7. [NPV] is linear in the series: for scalars [a], [b], series [x], [y]
    of one length and a truncation [n] within that length, the three calls
    return, and [NPV(a*x + b*y, n) = a*NPV(x, n) + b*NPV(y, n)] under the same
    discount rate (given or the default [R]). *)
Theorem NPV_linear (a b : Q) (x y : vec) (n : nat) (discount_rate : option Q)
    (Hlen : length x = length y) (Hn : (n <= length x)%nat) :
  exists vx vy v,
    NPV x n discount_rate = Some vx /\
    NPV y n discount_rate = Some vy /\
    NPV (lincomb a x b y) n discount_rate = Some v /\
    v == a * vx + b * vy.
Proof.
  unfold NPV. apply NPV_loop_linear; [done| |ring].
  by apply seq_below.
Qed.

(** C7, on two series of length three with default and explicit discount. *)
Lemma NPV_linear_witness :
  length [1; 2; 3] = length [4; 5; 6] /\ (2 <= length [1; 2; 3])%nat /\
  exists vx vy v,
    NPV [1; 2; 3] 2 None = Some vx /\
    NPV [4; 5; 6] 2 None = Some vy /\
    NPV (lincomb 2 [1; 2; 3] (-3) [4; 5; 6]) 2 None = Some v /\
    v == 2 * vx + (-3) * vy.
Proof.
  split; [reflexivity|]. split; [cbn; lia|].
  apply (NPV_linear 2 (-3) [1; 2; 3] [4; 5; 6] 2 None); [reflexivity | cbn; lia].
Defined.

(** ** Loops of assignments *)

Lemma assign_lookup_same (name : string) (i : nat) (v : Q) (env : gmap string vec) :
  assign name i v env !! name = (fun arr => <[i := v]> arr) <$> env !! name.
Proof. unfold assign. by rewrite lookup_alter_eq. Qed.

Lemma assign_lookup_other (name n : string) (i : nat) (v : Q) (env : gmap string vec) :
  name <> n -> assign name i v env !! n = env !! n.
Proof. intros H. unfold assign. by rewrite lookup_alter_ne. Qed.

Lemma assign_all_notin (i : nat) (l : list (string * option Q))
    (env env' : gmap string vec) (n : string) :
  n ∉ l.*1 -> assign_all i l env = Some env' -> env' !! n = env !! n.
Proof.
  revert env. induction l as [|[name o] l IH]; intros env Hn H.
  - by injection H as <-.
  - cbn in Hn. apply not_elem_of_cons in Hn as [Hne Hn].
    cbn [assign_all] in H. destruct o as [v|]; [|done]. cbn in H.
    rewrite (IH _ Hn H). by apply assign_lookup_other.
Qed.

Lemma assign_all_in (i : nat) (l : list (string * option Q))
    (env env' : gmap string vec) (n : string) (o : option Q) :
  NoDup l.*1 -> assign_all i l env = Some env' -> (n, o) ∈ l ->
  exists v, o = Some v /\ env' !! n = (fun arr => <[i := v]> arr) <$> env !! n.
Proof.
  revert env. induction l as [|[name o'] l IH]; intros env Hnd H Hin.
  - by apply elem_of_nil in Hin.
  - cbn in Hnd. apply NoDup_cons in Hnd as [Hname Hnd].
    cbn [assign_all] in H. destruct o' as [v'|]; [|done]. cbn in H.
    apply elem_of_cons in Hin as [Heq|Hin].
    + injection Heq as -> ->. exists v'. split; [done|].
      rewrite (assign_all_notin _ _ _ _ _ Hname H). apply assign_lookup_same.
    + destruct (IH _ Hnd H Hin) as (v & -> & Hv). exists v. split; [done|].
      rewrite Hv. rewrite assign_lookup_other; [done|].
      intros ->. apply Hname. apply list_elem_of_fmap. by exists (n, Some v).
Qed.

Lemma assign_all_some (i : nat) (l : list (string * option Q)) (env : gmap string vec) :
  Forall (fun p => is_Some p.2) l -> is_Some (assign_all i l env).
Proof.
  revert env. induction l as [|[name o] l IH]; intros env H; [done|].
  apply Forall_cons_1 in H as [Ho H]. cbn in Ho. destruct Ho as [v ->].
  cbn. by apply IH.
Qed.

Lemma loop_option_snoc {S I : Type} (body : S -> I -> option S) (range : list I)
    (i : I) (st : S) :
  loop_option body (range ++ [i]) st = st' ← loop_option body range st; body st' i.
Proof.
  revert st. induction range as [|j range IH]; intros st; cbn.
  - by destruct (body st i).
  - destruct (body st j); cbn; [apply IH | done].
Qed.

(** A loop over [range(k)] whose body assigns, at index [i], the values of
    [L i] to arrays of length [H]: every array ends with those values in its
    first [k] cells. *)
Lemma loop_assign_all (L : nat -> list (string * option Q)) (names : list string)
    (H k : nat) (env0 : gmap string vec) :
  NoDup names -> (forall i, (L i).*1 = names) ->
  (forall i, (i < k)%nat -> Forall (fun p => is_Some p.2) (L i)) ->
  (k <= H)%nat ->
  (forall n, n ∈ names -> exists arr, env0 !! n = Some arr /\ length arr = H) ->
  exists env,
    loop_option (fun env i => assign_all i (L i) env) (seq 0 k) env0 = Some env /\
    forall n, n ∈ names ->
      exists arr, env !! n = Some arr /\ length arr = H /\
        forall j o, (j < k)%nat -> (n, o) ∈ L j -> arr !! j = o.
Proof.
  intros Hnd Hnames Hsome Hk H0. induction k as [|k IH].
  - exists env0. split; [done|]. intros n Hn.
    destruct (H0 n Hn) as (arr & Ha & Hl). exists arr. repeat split; [done..|]. lia.
  - destruct IH as (env & Hloop & Henv); [intros; apply Hsome; lia | lia |].
    rewrite seq_S, loop_option_snoc, Hloop. cbn [mbind option_bind plus].
    destruct (assign_all_some k (L k) env (Hsome k ltac:(lia))) as [env' Henv'].
    exists env'. split; [done|]. intros n Hn.
    destruct (Henv n Hn) as (arr & Ha & Hl & Hv).
    assert (Hin : exists o, (n, o) ∈ L k).
    { rewrite <- (Hnames k) in Hn. apply list_elem_of_fmap in Hn as ([n' o] & -> & Hin).
      by exists o. }
    destruct Hin as [o Hin].
    destruct (assign_all_in k (L k) env env' n o) as (v & -> & Hv'); [|done..|].
    { by rewrite Hnames. }
    rewrite Ha in Hv'. cbn in Hv'.
    exists (<[k := v]> arr). split; [done|]. split; [by rewrite length_insert|].
    intros j o Hj Hjo. destruct (decide (j = k)) as [->|Hne].
    + rewrite list_lookup_insert_eq by lia.
      destruct (assign_all_in k (L k) env env' n o) as (v2 & -> & Hv2); [|done..|].
      { by rewrite Hnames. }
      rewrite Hv', Ha in Hv2. cbn in Hv2. injection Hv2 as Hv2.
      f_equal. apply (f_equal (fun l => l !! k)) in Hv2.
      rewrite !list_lookup_insert_eq in Hv2 by lia. by injection Hv2.
    + rewrite list_lookup_insert_ne by done. apply Hv; [lia|done].
Qed.

(** ** The experiments and their solver calls *)

Section ExperimentRuns.
Variable SS : gmap string pyval.
Variable solve : list Block.t -> gmap string pyval -> list string -> list string ->
                 gmap string vec -> gmap string vec.

Lemma run_transfer_experiments_eq (po : option (gmap string pyval)) (log : list solve_call) :
  let ss := overridden_ss SS (default ∅ po) in
  let sh : gmap string vec :=
    {[ "transfers" := shock_path stimulus_check_length (C_ss * 0.05) ]} in
  run_transfer_experiments SS solve po log =
    Some ((solve HANK_SAM ss ["theta"; "r_ante"] ["asset_mkt"; "fisher_resid"] sh,
           solve HANK_SAM (<["phi_pi" := PyFloat 0]> ss) ["theta"; "r_ante"]
             ["asset_mkt"; "fisher_resid"] sh,
           solve HANK_SAM_fixed_real_rate ss ["theta"] ["asset_mkt"] sh,
           solve HANK_SAM_lagged_taylor_rule (<["lag" := PyInt 2]> ss) ["theta"; "r_ante"]
             ["asset_mkt"; "fisher_resid"] sh,
           ss, sh),
          log ++ transfer_calls ss sh).
Proof.
  cbv [run_transfer_experiments tbind tlift tret solve_impulse_linear slice_assign
       overridden_ss transfer_calls].
  rewrite <- !app_assoc. reflexivity.
Qed.

Lemma slice_assign_int (po : gmap string pyval) (key : string) (dflt : Z) (v : Q) :
  int_or_absent po key ->
  slice_assign (replicate bigT 0) (dict_get po key (PyInt dflt)) v =
    Some (shock_path (override_length po key dflt) v).
Proof.
  unfold int_or_absent, dict_get, override_length, slice_assign, shock_path.
  destruct (po !! key) as [[z|q]|]; cbn [default from_option id]; [|done|];
    by rewrite length_replicate.
Qed.

Lemma run_ui_extension_experiments_eq (po : option (gmap string pyval))
    (log : list solve_call) :
  int_or_absent (default ∅ po) "UI_extension_length" ->
  let ss := overridden_ss SS (default ∅ po) in
  let sh : gmap string vec :=
    {[ "UI_extend" :=
         shock_path (override_length (default ∅ po) "UI_extension_length"
                       UI_extension_length) 0.2 ]} in
  run_ui_extension_experiments SS solve po log =
    Some ((solve HANK_SAM ss ["theta"; "r_ante"] ["asset_mkt"; "fisher_resid"] sh,
           solve HANK_SAM (<["phi_pi" := PyFloat 0]> ss) ["theta"; "r_ante"]
             ["asset_mkt"; "fisher_resid"] sh,
           solve HANK_SAM_fixed_real_rate ss ["theta"] ["asset_mkt"] sh,
           solve HANK_SAM_fixed_real_rate_UI_extend_real ss ["theta"] ["asset_mkt"] sh,
           ss, sh),
          log ++ ui_extension_calls ss sh).
Proof.
  intros Hint. unfold run_ui_extension_experiments, tbind, tlift.
  rewrite (slice_assign_int _ _ _ _ Hint).
  cbv [tret solve_impulse_linear overridden_ss ui_extension_calls].
  rewrite <- !app_assoc. reflexivity.
Qed.

Lemma run_tax_cut_experiments_eq (po : option (gmap string pyval))
    (log : list solve_call) :
  int_or_absent (default ∅ po) "tax_cut_length" ->
  let ss := overridden_ss_tax SS (default ∅ po) in
  let sh : gmap string vec :=
    {[ "tau" :=
         shock_path (override_length (default ∅ po) "tax_cut_length" tax_cut_length)
           (-0.02) ]} in
  run_tax_cut_experiments SS solve po log =
    Some ((solve HANK_SAM_tax_rate_shock ss ["theta"; "r_ante"]
             ["asset_mkt"; "fisher_resid"] sh,
           solve HANK_SAM_tax_rate_shock (<["phi_pi" := PyFloat 0]> ss) ["theta"; "r_ante"]
             ["asset_mkt"; "fisher_resid"] sh,
           solve HANK_SAM_tax_cut_fixed_real_rate ss ["theta"] ["asset_mkt"] sh,
           ss, sh),
          log ++ tax_cut_calls ss sh).
Proof.
  intros Hint. unfold run_tax_cut_experiments, tbind, tlift.
  rewrite (slice_assign_int _ _ _ _ Hint).
  cbv [tret solve_impulse_linear overridden_ss_tax tax_cut_calls].
  rewrite <- !app_assoc. reflexivity.
Qed.

End ExperimentRuns.

(** ** Fiscal multipliers *)

Lemma NPV_ratio_spec (irf : gmap string vec) (target cost : string) (h n : nat) :
  irf_has irf target -> irf_has irf cost -> (h <= bigT)%nat -> (n <= bigT)%nat ->
  exists c k num den,
    irf !! target = Some c /\ irf !! cost = Some k /\
    NPV c h None = Some num /\ NPV k n None = Some den /\
    num == discounted_sum c R h /\ den == discounted_sum k R n /\
    NPV_ratio irf target cost h n = Some (num / den) /\
    neg_NPV_ratio irf target cost h n = Some (- num / den).
Proof.
  intros (c & Hc & Hlc) (k & Hk & Hlk) Hh Hn.
  destruct (NPV_discounted_sum c h None) as (num & Hnum & Enum); [lia|].
  destruct (NPV_discounted_sum k n None) as (den & Hden & Eden); [lia|].
  exists c, k, num, den. unfold NPV_ratio, neg_NPV_ratio.
  rewrite Hc, Hk. cbn. rewrite Hnum, Hden. cbn. done.
Qed.


Ltac in_model := apply (bool_decide_unpack _); by vm_compute.

Ltac in_list :=
  repeat first [apply list_elem_of_here | apply list_elem_of_further].

Lemma shock_path_length (stop : Z) (v : Q) : length (shock_path stop v) = bigT.
Proof.
  unfold shock_path. rewrite length_app, length_replicate, length_drop, length_replicate.
  assert (slice_stop bigT stop <= bigT)%nat; [|lia].
  unfold slice_stop. destruct (Z.ltb_spec stop 0); lia.
Qed.

Lemma multipliers_init_lookup (H : nat) (n : string) :
  n ∈ ["multipliers_transfers_fixed_nominal_rate";
       "multipliers_UI_extensions_fixed_nominal_rate";
       "multipliers_tax_cut_fixed_nominal_rate";
       "multipliers_transfers"; "multipliers_UI_extend"; "multipliers_tax_cut";
       "multipliers_transfers_fixed_real_rate";
       "multipliers_UI_extensions_fixed_real_rate";
       "multipliers_tax_cut_fixed_real_rate"] ->
  exists arr, multipliers_init H !! n = Some arr /\ length arr = H.
Proof.
  intros Hn. exists (replicate H 0). split; [|by rewrite length_replicate].
  unfold multipliers_init.
  repeat (apply elem_of_cons in Hn as [->|Hn]; [by simplify_map_eq|]).
  by apply elem_of_nil in Hn.
Qed.



(** ** Regimes, unknowns and targets *)


Ltac regime_case :=
  first [ by intros _ | let Hreg := fresh in intros Hreg; exfalso; revert Hreg; in_model ].

Ltac pairing_one :=
  split; [regime_case | split; [regime_case|]];
  first [ left; in_model | right; left; in_model | right; right; in_model ].

Ltac pairing :=
  repeat apply Forall_cons_2; try apply Forall_nil_2; pairing_one.

Ltac regimes :=
  do 3 eexists;
  split; [reflexivity|]; split; [reflexivity|]; split; [reflexivity|];
  split; [in_model|]; split; [reflexivity|]; split; [reflexivity|];
  split; [reflexivity|]; split; [in_model|]; by repeat split.

Lemma ui_extension_calls_ok (ss : gmap string pyval) (sh : gmap string vec) :
  Forall pairing_ok (ui_extension_calls ss sh) /\ regimes_ok (ui_extension_calls ss sh).
Proof. split; [unfold ui_extension_calls; pairing | regimes]. Qed.

Lemma transfer_calls_ok (ss : gmap string pyval) (sh : gmap string vec) :
  Forall pairing_ok (transfer_calls ss sh) /\ regimes_ok (transfer_calls ss sh).
Proof. split; [unfold transfer_calls; pairing | regimes]. Qed.

Lemma tax_cut_calls_ok (ss : gmap string pyval) (sh : gmap string vec) :
  Forall pairing_ok (tax_cut_calls ss sh) /\ regimes_ok (tax_cut_calls ss sh).
Proof. split; [unfold tax_cut_calls; pairing | regimes]. Qed.

(** C5. Every solve of the three experiments whose model has the [taylor]
    block (standard Taylor rule, and fixed nominal rate) is invoked with
    unknowns [theta, r_ante] and targets [asset_mkt, fisher_resid]; every solve
    whose model pins the real rate is invoked with [theta] alone against
    [asset_mkt] alone, one pair fewer; and in each experiment the
    fixed-nominal-rate solve is the standard one with [phi_pi] set to zero in
    the steady-state dictionary. *)
Theorem solves_pair_unknowns_with_targets
    (SS : gmap string pyval)
    (solve : list Block.t -> gmap string pyval -> list string -> list string ->
             gmap string vec -> gmap string vec)
    (param_overrides : gmap string pyval) (log : list solve_call)
    (Hui : int_or_absent param_overrides "UI_extension_length")
    (Htax : int_or_absent param_overrides "tax_cut_length") :
  exists r_ui r_transfer r_tax calls_ui calls_transfer calls_tax,
    run_ui_extension_experiments SS solve (Some param_overrides) log
      = Some (r_ui, log ++ calls_ui) /\
    run_transfer_experiments SS solve (Some param_overrides) log
      = Some (r_transfer, log ++ calls_transfer) /\
    run_tax_cut_experiments SS solve (Some param_overrides) log
      = Some (r_tax, log ++ calls_tax) /\
    Forall pairing_ok (calls_ui ++ calls_transfer ++ calls_tax) /\
    regimes_ok calls_ui /\ regimes_ok calls_transfer /\ regimes_ok calls_tax.
Proof.
  pose proof (run_ui_extension_experiments_eq SS solve (Some param_overrides) log Hui) as E1.
  pose proof (run_transfer_experiments_eq SS solve (Some param_overrides) log) as E2.
  pose proof (run_tax_cut_experiments_eq SS solve (Some param_overrides) log Htax) as E3.
  cbv zeta in E1, E2, E3.
  eexists _, _, _, _, _, _.
  split; [exact E1|]. split; [exact E2|]. split; [exact E3|].
  split; [|split; [|split]].
  - rewrite !Forall_app. repeat split.
    + apply ui_extension_calls_ok.
    + apply transfer_calls_ok.
    + apply tax_cut_calls_ok.
  - apply ui_extension_calls_ok.
  - apply transfer_calls_ok.
  - apply tax_cut_calls_ok.
Qed.

(** ** Parameter overrides *)

Section Overrides.
Variable SS : gmap string pyval.
Variable solve : list Block.t -> gmap string pyval -> list string -> list string ->
                 gmap string vec -> gmap string vec.

Lemma overridden_ss_applied (ov : gmap string pyval) :
  overrides_applied SS ov false false (overridden_ss SS ov) /\
  overrides_applied SS ov false true (<["phi_pi" := PyFloat 0]> (overridden_ss SS ov)) /\
  overrides_applied SS ov false false (<["lag" := PyInt 2]> (overridden_ss SS ov)).
Proof.
  unfold overrides_applied, overridden_ss. repeat split; by simplify_map_eq.
Qed.

Lemma overridden_ss_tax_applied (ov : gmap string pyval) :
  overrides_applied SS ov true false (overridden_ss_tax SS ov) /\
  overrides_applied SS ov true true (<["phi_pi" := PyFloat 0]> (overridden_ss_tax SS ov)).
Proof.
  unfold overrides_applied, overridden_ss_tax. repeat split; by simplify_map_eq.
Qed.

Lemma overridden_ss_insert (ov : gmap string pyval) (key : string) (v : pyval) :
  key = "deficit_T" \/ key = "lag" ->
  overridden_ss SS (<[key := v]> ov) = overridden_ss SS ov /\
  overridden_ss_tax SS (<[key := v]> ov) = overridden_ss_tax SS ov /\
  (forall k d, k = "UI_extension_length" \/ k = "tax_cut_length" ->
     override_length (<[key := v]> ov) k d = override_length ov k d /\
     (int_or_absent ov k -> int_or_absent (<[key := v]> ov) k)).
Proof.
  intros Hkey. unfold overridden_ss, overridden_ss_tax, dict_get, override_length,
    int_or_absent.
  split; [|split].
  - destruct Hkey as [-> | ->]; by rewrite !lookup_insert_ne.
  - destruct Hkey as [-> | ->]; by rewrite !lookup_insert_ne.
  - intros k d Hk.
    destruct Hkey as [-> | ->]; destruct Hk as [-> | ->]; by rewrite !lookup_insert_ne.
Qed.


Ltac fixed_keys_case :=
  unfold fixed_keys, overridden_ss, overridden_ss_tax; cbn [call_ss call_model];
  split; [by simplify_map_eq|];
  let Hd := fresh "Hd" in
  case_decide as Hd;
  [ first [ by simplify_map_eq | exfalso; revert Hd; in_model ]
  | first [ by simplify_map_eq | exfalso; apply Hd; in_model ] ].

(** The solves of an experiment, by position: the second one is the
    fixed-nominal-rate solve. *)
Lemma ui_extension_calls_overrides (ov : gmap string pyval) (sh : gmap string vec)
    (i : nat) (c : solve_call) :
  ui_extension_calls (overridden_ss SS ov) sh !! i = Some c ->
  overrides_applied SS ov false (bool_decide (i = 1%nat)) (call_ss c) /\
  fixed_keys SS c /\ call_shocks c = sh.
Proof.
  destruct (overridden_ss_applied ov) as (H1 & H2 & H3).
  unfold ui_extension_calls. intros H.
  destruct i as [|[|[|[|i]]]]; [..|done]; injection H as <-;
    (split; [done | split; [fixed_keys_case | done]]).
Qed.

Lemma transfer_calls_overrides (ov : gmap string pyval) (sh : gmap string vec)
    (i : nat) (c : solve_call) :
  transfer_calls (overridden_ss SS ov) sh !! i = Some c ->
  overrides_applied SS ov false (bool_decide (i = 1%nat)) (call_ss c) /\
  fixed_keys SS c /\ call_shocks c = sh.
Proof.
  destruct (overridden_ss_applied ov) as (H1 & H2 & H3).
  unfold transfer_calls. intros H.
  destruct i as [|[|[|[|i]]]]; [..|done]; injection H as <-;
    (split; [done | split; [fixed_keys_case | done]]).
Qed.

Lemma tax_cut_calls_overrides (ov : gmap string pyval) (sh : gmap string vec)
    (i : nat) (c : solve_call) :
  tax_cut_calls (overridden_ss_tax SS ov) sh !! i = Some c ->
  overrides_applied SS ov true (bool_decide (i = 1%nat)) (call_ss c) /\
  fixed_keys SS c /\ call_shocks c = sh.
Proof.
  destruct (overridden_ss_tax_applied ov) as (H1 & H2).
  unfold tax_cut_calls. intros H.
  destruct i as [|[|[|i]]]; [..|done]; injection H as <-;
    (split; [done | split; [fixed_keys_case | done]]).
Qed.

End Overrides.

(** C4 (amended). The overrides [phi_pi], [phi_y], [rho_r], [kappa_p],
    [phi_b] and [real_wage_rigidity] are written into the steady-state
    dictionary of every solve of the three experiments, each where the code
    puts it: the UI-extension experiment solves [HANK_SAM] twice, the
    fixed-real-rate model and the UI-realisations model, the transfer
    experiment [HANK_SAM] twice, the fixed-real-rate model and the
    lagged-Taylor-rule model, the tax-cut experiment the tax-rate-shock model
    twice and its fixed-real-rate model; [real_wage_rigidity] is stored as
    [phi_w] and [rho_r], [phi_y], [kappa_p] under their names in all eleven
    solves; [phi_pi] is stored in every solve but the second of each
    experiment (the fixed-nominal-rate solve), which gets zero; [phi_b] is
    stored as [phi_b] in the eight solves of the UI-extension and transfer
    experiments and negated as [phi_G] in the three of the tax-cut
    experiment, whose [phi_b] is the module-level one. [UI_extension_length]
    and [tax_cut_length] set the length of the UI-extension and tax-cut
    shocks, the transfer shock being fixed. The keys [deficit_T] and [lag]
    are not read: every solve gets [deficit_T = -1], the lagged-Taylor solve
    gets [lag = 2] and the others the module-level [lag], and supplying either
    key changes nothing in what the three experiments compute. *)
Theorem overrides_reach_the_solves
    (SS : gmap string pyval)
    (solve : list Block.t -> gmap string pyval -> list string -> list string ->
             gmap string vec -> gmap string vec)
    (param_overrides : gmap string pyval) (log : list solve_call)
    (Hui : int_or_absent param_overrides "UI_extension_length")
    (Htax : int_or_absent param_overrides "tax_cut_length") :
  exists r_ui r_transfer r_tax calls_ui calls_transfer calls_tax,
    run_ui_extension_experiments SS solve (Some param_overrides) log
      = Some (r_ui, log ++ calls_ui) /\
    run_transfer_experiments SS solve (Some param_overrides) log
      = Some (r_transfer, log ++ calls_transfer) /\
    run_tax_cut_experiments SS solve (Some param_overrides) log
      = Some (r_tax, log ++ calls_tax) /\
    call_model <$> calls_ui =
      [HANK_SAM; HANK_SAM; HANK_SAM_fixed_real_rate;
       HANK_SAM_fixed_real_rate_UI_extend_real] /\
    call_model <$> calls_transfer =
      [HANK_SAM; HANK_SAM; HANK_SAM_fixed_real_rate; HANK_SAM_lagged_taylor_rule] /\
    call_model <$> calls_tax =
      [HANK_SAM_tax_rate_shock; HANK_SAM_tax_rate_shock;
       HANK_SAM_tax_cut_fixed_real_rate] /\
    (forall i c, calls_ui !! i = Some c ->
       overrides_applied SS param_overrides false (bool_decide (i = 1%nat)) (call_ss c) /\
       fixed_keys SS c /\
       call_shocks c =
         {[ "UI_extend" :=
              shock_path (override_length param_overrides
                            "UI_extension_length" UI_extension_length) 0.2 ]}) /\
    (forall i c, calls_transfer !! i = Some c ->
       overrides_applied SS param_overrides false (bool_decide (i = 1%nat)) (call_ss c) /\
       fixed_keys SS c /\
       call_shocks c = {[ "transfers" := shock_path stimulus_check_length (C_ss * 0.05) ]}) /\
    (forall i c, calls_tax !! i = Some c ->
       overrides_applied SS param_overrides true (bool_decide (i = 1%nat)) (call_ss c) /\
       fixed_keys SS c /\
       call_shocks c =
         {[ "tau" :=
              shock_path (override_length param_overrides
                            "tax_cut_length" tax_cut_length) (-0.02) ]}) /\
    forall key v, key = "deficit_T" \/ key = "lag" ->
      run_ui_extension_experiments SS solve (Some (<[key := v]> param_overrides)) log
        = run_ui_extension_experiments SS solve (Some param_overrides) log /\
      run_transfer_experiments SS solve (Some (<[key := v]> param_overrides)) log
        = run_transfer_experiments SS solve (Some param_overrides) log /\
      run_tax_cut_experiments SS solve (Some (<[key := v]> param_overrides)) log
        = run_tax_cut_experiments SS solve (Some param_overrides) log.
Proof.
  pose proof (run_ui_extension_experiments_eq SS solve (Some param_overrides) log Hui) as E1.
  pose proof (run_transfer_experiments_eq SS solve (Some param_overrides) log) as E2.
  pose proof (run_tax_cut_experiments_eq SS solve (Some param_overrides) log Htax) as E3.
  cbv zeta in E1, E2, E3. cbn [default from_option id] in E1, E2, E3.
  eexists _, _, _, _, _, _.
  split; [exact E1|]. split; [exact E2|]. split; [exact E3|].
  split; [reflexivity|]. split; [reflexivity|]. split; [reflexivity|].
  split; [apply (ui_extension_calls_overrides SS)|].
  split; [apply (transfer_calls_overrides SS)|].
  split; [apply (tax_cut_calls_overrides SS)|].
  intros key v Hkey.
  destruct (overridden_ss_insert SS param_overrides key v Hkey) as (Es & Et & Hlen).
  destruct (Hlen "UI_extension_length" UI_extension_length ltac:(by left)) as [Elu Hiu].
  destruct (Hlen "tax_cut_length" tax_cut_length ltac:(by right)) as [Elt Hit].
  pose proof (run_ui_extension_experiments_eq SS solve
                (Some (<[key := v]> param_overrides)) log (Hiu Hui)) as E1'.
  pose proof (run_transfer_experiments_eq SS solve
                (Some (<[key := v]> param_overrides)) log) as E2'.
  pose proof (run_tax_cut_experiments_eq SS solve
                (Some (<[key := v]> param_overrides)) log (Hit Htax)) as E3'.
  cbv zeta in E1', E2', E3'. cbn [default from_option id] in E1', E2', E3'.
  rewrite Es, ?Elu in E1'. rewrite Es in E2'. rewrite Et, ?Elt in E3'.
  rewrite E1, E2, E3. done.
Qed.


(** ** The sample inputs meet the assumptions *)

Lemma sample_solve_has (model : list Block.t) (ss : gmap string pyval)
    (unknowns targets : list string) (shocks : gmap string vec) (k : string) :
  is_Some (shocks !! k) \/ k ∈ ["C"; "Y"; "UI_extension_cost"; "tax_cost"] ->
  irf_has (sample_solve model ss unknowns targets shocks) k.
Proof.
  intros Hk. exists (replicate bigT 1). split; [|by rewrite length_replicate].
  unfold sample_solve. rewrite lookup_union, lookup_fmap.
  destruct (shocks !! k) as [x|].
  - match goal with |- context [?m !! k] => destruct (m !! k) end; reflexivity.
  - destruct Hk as [[? ?]|Hk]; [done|].
    repeat (apply elem_of_cons in Hk as [->|Hk]; [reflexivity|]).
    by apply elem_of_nil in Hk.
Qed.

Lemma sample_solve_contract : solver_contract sample_solve.
Proof.
  intros model ss unknowns targets shocks irf. unfold irf.
  repeat split; intros; apply sample_solve_has; first [by left | right; in_list].
Qed.

Lemma sample_overrides_UI_length : int_or_absent sample_overrides "UI_extension_length".
Proof. by vm_compute. Qed.

Lemma sample_overrides_tax_length : int_or_absent sample_overrides "tax_cut_length".
Proof. by vm_compute. Qed.

(** C5, for the sample solver and overrides. *)
Lemma solves_pair_unknowns_with_targets_witness :
  int_or_absent sample_overrides "UI_extension_length" /\
  int_or_absent sample_overrides "tax_cut_length" /\
  exists r_ui r_transfer r_tax calls_ui calls_transfer calls_tax,
    run_ui_extension_experiments SteadyState_Dict_literals sample_solve
      (Some sample_overrides) [] = Some (r_ui, [] ++ calls_ui) /\
    run_transfer_experiments SteadyState_Dict_literals sample_solve
      (Some sample_overrides) [] = Some (r_transfer, [] ++ calls_transfer) /\
    run_tax_cut_experiments SteadyState_Dict_literals sample_solve
      (Some sample_overrides) [] = Some (r_tax, [] ++ calls_tax) /\
    Forall pairing_ok (calls_ui ++ calls_transfer ++ calls_tax) /\
    regimes_ok calls_ui /\ regimes_ok calls_transfer /\ regimes_ok calls_tax.
Proof.
  split; [exact sample_overrides_UI_length|].
  split; [exact sample_overrides_tax_length|].
  apply (solves_pair_unknowns_with_targets SteadyState_Dict_literals sample_solve
           sample_overrides []);
    [exact sample_overrides_UI_length | exact sample_overrides_tax_length].
Defined.

(** C4 (amended), for the sample solver and overrides. *)
Lemma overrides_reach_the_solves_witness :
  int_or_absent sample_overrides "UI_extension_length" /\
  int_or_absent sample_overrides "tax_cut_length" /\
  exists r_ui r_transfer r_tax calls_ui calls_transfer calls_tax,
    run_ui_extension_experiments SteadyState_Dict_literals sample_solve
      (Some sample_overrides) [] = Some (r_ui, [] ++ calls_ui) /\
    run_transfer_experiments SteadyState_Dict_literals sample_solve
      (Some sample_overrides) [] = Some (r_transfer, [] ++ calls_transfer) /\
    run_tax_cut_experiments SteadyState_Dict_literals sample_solve
      (Some sample_overrides) [] = Some (r_tax, [] ++ calls_tax) /\
    call_model <$> calls_ui =
      [HANK_SAM; HANK_SAM; HANK_SAM_fixed_real_rate;
       HANK_SAM_fixed_real_rate_UI_extend_real] /\
    call_model <$> calls_transfer =
      [HANK_SAM; HANK_SAM; HANK_SAM_fixed_real_rate; HANK_SAM_lagged_taylor_rule] /\
    call_model <$> calls_tax =
      [HANK_SAM_tax_rate_shock; HANK_SAM_tax_rate_shock;
       HANK_SAM_tax_cut_fixed_real_rate] /\
    (forall i c, calls_ui !! i = Some c ->
       overrides_applied SteadyState_Dict_literals sample_overrides false
         (bool_decide (i = 1%nat)) (call_ss c) /\
       fixed_keys SteadyState_Dict_literals c /\
       call_shocks c =
         {[ "UI_extend" :=
              shock_path (override_length sample_overrides
                            "UI_extension_length" UI_extension_length) 0.2 ]}) /\
    (forall i c, calls_transfer !! i = Some c ->
       overrides_applied SteadyState_Dict_literals sample_overrides false
         (bool_decide (i = 1%nat)) (call_ss c) /\
       fixed_keys SteadyState_Dict_literals c /\
       call_shocks c = {[ "transfers" := shock_path stimulus_check_length (C_ss * 0.05) ]}) /\
    (forall i c, calls_tax !! i = Some c ->
       overrides_applied SteadyState_Dict_literals sample_overrides true
         (bool_decide (i = 1%nat)) (call_ss c) /\
       fixed_keys SteadyState_Dict_literals c /\
       call_shocks c =
         {[ "tau" :=
              shock_path (override_length sample_overrides
                            "tax_cut_length" tax_cut_length) (-0.02) ]}) /\
    forall key v, key = "deficit_T" \/ key = "lag" ->
      run_ui_extension_experiments SteadyState_Dict_literals sample_solve
        (Some (<[key := v]> sample_overrides)) []
        = run_ui_extension_experiments SteadyState_Dict_literals sample_solve
            (Some sample_overrides) [] /\
      run_transfer_experiments SteadyState_Dict_literals sample_solve
        (Some (<[key := v]> sample_overrides)) []
        = run_transfer_experiments SteadyState_Dict_literals sample_solve
            (Some sample_overrides) [] /\
      run_tax_cut_experiments SteadyState_Dict_literals sample_solve
        (Some (<[key := v]> sample_overrides)) []
        = run_tax_cut_experiments SteadyState_Dict_literals sample_solve
            (Some sample_overrides) [].
Proof.
  split; [exact sample_overrides_UI_length|].
  split; [exact sample_overrides_tax_length|].
  apply (overrides_reach_the_solves SteadyState_Dict_literals sample_solve
           sample_overrides []);
    [exact sample_overrides_UI_length | exact sample_overrides_tax_length].
Defined.

(** C4 as stated fails: with [deficit_T = -40] and [lag = 4] supplied, the
    four solves of the transfer experiment still get [deficit_T = -1], none
    gets [lag = 4] (the lagged-Taylor solve gets 2, the others the
    module-level -1), and the experiment computes what it computes without
    the two keys. *)
Lemma deficit_T_and_lag_overrides_are_ignored :
  sample_overrides !! "deficit_T" = Some (PyInt (-40)) /\
  sample_overrides !! "lag" = Some (PyInt 4) /\
  exists r calls,
    run_transfer_experiments SteadyState_Dict_literals sample_solve
      (Some sample_overrides) [] = Some (r, calls) /\
    length calls = 4%nat /\
    Forall (fun c => call_ss c !! "deficit_T" = Some (PyInt (-1)) /\
                     call_ss c !! "deficit_T" <> Some (PyInt (-40)) /\
                     call_ss c !! "lag" <> Some (PyInt 4)) calls /\
    run_transfer_experiments SteadyState_Dict_literals sample_solve
      (Some sample_overrides) []
    = run_transfer_experiments SteadyState_Dict_literals sample_solve
        (Some honoured_overrides) [].
Proof.
  split; [reflexivity|]. split; [reflexivity|].
  pose proof (run_transfer_experiments_eq SteadyState_Dict_literals sample_solve
                (Some sample_overrides) []) as E.
  pose proof (run_transfer_experiments_eq SteadyState_Dict_literals sample_solve
                (Some honoured_overrides) []) as E'.
  cbv zeta in E, E'. cbn [default from_option id app] in E, E'.
  eexists _, _. split; [exact E|]. split; [reflexivity|]. split.
  - assert (Hlag : SteadyState_Dict_literals !! "lag" = Some (PyInt (-1)))
      by reflexivity.
    apply Forall_lookup. intros i c Hi.
    destruct (transfer_calls_overrides SteadyState_Dict_literals sample_overrides _ i c Hi)
      as (_ & [Hd Hl] & _).
    rewrite Hd, Hl, Hlag.
    split; [done|]. split; [done|]. by case_decide.
  - rewrite E, E'. unfold sample_overrides.
    destruct (overridden_ss_insert SteadyState_Dict_literals
                (<["deficit_T" := PyInt (-40)]> honoured_overrides) "lag" (PyInt 4))
      as (-> & _); [by right|].
    destruct (overridden_ss_insert SteadyState_Dict_literals honoured_overrides
                "deficit_T" (PyInt (-40))) as (-> & _); [by left|].
    reflexivity.
Qed.

(** ** The splurge transform *)

Lemma R_powers_length (T : nat) : length (R_powers T) = T.
Proof. unfold R_powers. by rewrite length_map, length_seq. Qed.

Lemma col_sums_length (n : nat) (M : matrix) :
  Forall (fun row => length row = n) M -> length (col_sums n M) = n.
Proof.
  unfold col_sums. induction 1 as [|row M Hrow _ IH]; cbn [foldr].
  - by rewrite length_replicate.
  - rewrite length_zip_with, IH, Hrow. lia.
Qed.

Lemma present_value_length (T : nat) (J : matrix) :
  is_square T J -> length (present_value T J) = T.
Proof.
  intros [_ Hrows]. unfold present_value, broadcast_div. apply col_sums_length.
  apply Forall_fmap. eapply Forall_impl; [exact Hrows|].
  intros row Hrow. unfold compose. rewrite length_zip_with, R_powers_length, Hrow. lia.
Qed.

Lemma np_diag_square (v : vec) : is_square (length v) (np_diag v).
Proof.
  unfold is_square, np_diag. split; [by rewrite length_imap|].
  apply Forall_forall. intros row Hrow.
  apply list_elem_of_lookup in Hrow as [i Hi].
  rewrite list_lookup_imap in Hi.
  destruct (v !! i); [|done]. injection Hi as <-.
  by rewrite length_insert, length_replicate.
Qed.

Lemma splurge_jacobian_component_square (T : nat) (J : matrix) :
  is_square T J -> is_square T (splurge_jacobian_component T J).
Proof.
  intros HJ. unfold splurge_jacobian_component.
  set (v := zip_with Qmult (present_value T J) (R_powers T)).
  assert (Hv : length v = T).
  { unfold v. rewrite length_zip_with, present_value_length, R_powers_length by done. lia. }
  rewrite <- Hv at 1. apply np_diag_square.
Qed.

(** Rows of equal length, pairwise. *)
Lemma same_shape (T : nat) (A B : matrix) :
  is_square T A -> is_square T B ->
  Forall2 (fun a b => length a = length b) A B.
Proof.
  intros [HlA HA] [HlB HB]. apply Forall2_same_length_lookup. split; [lia|].
  intros i a b Ha Hb.
  rewrite (proj1 (Forall_lookup _ _) HA i a Ha), (proj1 (Forall_lookup _ _) HB i b Hb).
  done.
Qed.

Lemma row_zero_one (d j : vec) :
  length d = length j ->
  vec_eq (zip_with Qplus (map (Qmult 0) d) (map (Qmult (1 - 0)) j)) j.
Proof.
  revert j. induction d as [|x d IH]; intros [|y j] Hl; try discriminate; cbn.
  - constructor.
  - constructor; [ring | apply IH; by injection Hl].
Qed.

Lemma row_one_zero (d j : vec) :
  length d = length j ->
  vec_eq (zip_with Qplus (map (Qmult 1) d) (map (Qmult (1 - 1)) j)) d.
Proof.
  revert j. induction d as [|x d IH]; intros [|y j] Hl; try discriminate; cbn.
  - constructor.
  - constructor; [ring | apply IH; by injection Hl].
Qed.

Lemma madd_zero_one (D J : matrix) :
  Forall2 (fun a b => length a = length b) D J ->
  mat_eq (madd (mscale 0 D) (mscale (1 - 0) J)) J.
Proof.
  induction 1 as [|d j D J Hl _ IH]; cbn; constructor; [by apply row_zero_one | exact IH].
Qed.

Lemma madd_one_zero (D J : matrix) :
  Forall2 (fun a b => length a = length b) D J ->
  mat_eq (madd (mscale 1 D) (mscale (1 - 1) J)) D.
Proof.
  induction 1 as [|d j D J Hl _ IH]; cbn; constructor; [by apply row_one_zero | exact IH].
Qed.

Lemma mentry_madd (A B : matrix) (t s : nat) (a b : Q) :
  mentry A t s = Some a -> mentry B t s = Some b ->
  mentry (madd A B) t s = Some (a + b).
Proof.
  unfold mentry, madd. intros HA HB. rewrite lookup_zip_with.
  destruct (A !! t) as [ra|]; [|done]. destruct (B !! t) as [rb|]; [|done].
  cbn in *. rewrite lookup_zip_with, HA, HB. done.
Qed.

Lemma mentry_mscale (c : Q) (M : matrix) (t s : nat) (m : Q) :
  mentry M t s = Some m -> mentry (mscale c M) t s = Some (c * m).
Proof.
  unfold mentry, mscale. intros HM. rewrite list_lookup_fmap.
  destruct (M !! t) as [r|]; [|done]. cbn in *. by rewrite list_lookup_fmap, HM.
Qed.

Lemma mentry_np_diag (v : vec) (t s : nat) (x : Q) :
  v !! t = Some x -> (s < length v)%nat ->
  mentry (np_diag v) t s = Some (if decide (t = s) then x else 0).
Proof.
  intros Hx Hs. unfold mentry, np_diag. rewrite list_lookup_imap, Hx. cbn.
  apply lookup_lt_Some in Hx as Ht.
  destruct (decide (t = s)) as [<-|Hne].
  - rewrite list_lookup_insert_eq; [done | by rewrite length_replicate].
  - rewrite list_lookup_insert_ne by done. by rewrite lookup_replicate_2.
Qed.

Lemma mentry_square (T : nat) (M : matrix) (t s : nat) :
  is_square T M -> (t < T)%nat -> (s < T)%nat -> is_Some (mentry M t s).
Proof.
  intros [Hl Hrows] Ht Hs. unfold mentry.
  destruct (lookup_lt_is_Some_2 M t ltac:(lia)) as [row Hrow]. rewrite Hrow. cbn.
  apply lookup_lt_is_Some_2.
  rewrite (proj1 (Forall_lookup _ _) Hrows t row Hrow). done.
Qed.

(** ** The splurge adjustment in place *)

Lemma square_b_true (T : nat) (M : matrix) : is_square T M -> square_b T M = true.
Proof.
  intros [Hl Hrows]. unfold square_b. apply andb_true_intro. split.
  - by apply Nat.eqb_eq.
  - apply forallb_forall. intros row Hrow%list_elem_of_In.
    apply Nat.eqb_eq. by apply (proj1 (Forall_forall _ _) Hrows).
Qed.

Section SplurgeFrame.
Variables (Jacobian_Dict : loc) (h0 : heap) (d : gmap string loc) (lC lA : loc).
Variables (dC dA : gmap string matrix) (T : nat).
Hypothesis HJ : h0 !! Jacobian_Dict = Some (NestedDict d).
Hypothesis HC : d !! "C" = Some lC.
Hypothesis HA : d !! "A" = Some lA.
Hypothesis HdC : h0 !! lC = Some (InputDict dC).
Hypothesis HdA : h0 !! lA = Some (InputDict dA).

Local Abbreviation inv := (splurge_inv Jacobian_Dict h0 d lC lA dC dA T).

Lemma Jacobian_Dict_not_inner : Jacobian_Dict <> lC /\ Jacobian_Dict <> lA.
Proof. split; intros ->; congruence. Qed.

Lemma splurge_inv_init : inv [] h0.
Proof.
  split; [done|]. split; [done|]. exists dC, dA.
  split; [done|]. split; [done|]. split; [done|].
  intros _ k Hk. by apply elem_of_nil in Hk.
Qed.

Lemma splurge_body_step (done : list string) (h : heap) (k : string) (JC JA : matrix) :
  inv done h -> k ∉ done ->
  dC !! k = Some JC -> is_square T JC -> dA !! k = Some JA ->
  exists h',
    splurge_body dC (Some dA) T Jacobian_Dict h k = Some h' /\
    inv (done ++ [k]) h'.
Proof.
  intros (HhJ & Hframe & dC' & dA' & HhC & HhA & Hkeep & Hnew) Hk HJC Hsq HJA.
  destruct Jacobian_Dict_not_inner as [HneC HneA].
  unfold splurge_body. rewrite HJC. cbn [mbind option_bind].
  rewrite (square_b_true T JC Hsq).
  unfold setitem at 2. unfold getitem. rewrite HhJ. cbn [mbind option_bind].
  rewrite HC. cbn [mbind option_bind]. rewrite HhC. cbn [mbind option_bind].
  rewrite HJA. cbn [mbind option_bind].
  set (h1 := <[lC := InputDict (<[k := splurge_jacobian 0.3 T JC]> dC')]> h).
  unfold setitem, getitem.
  assert (Hh1J : h1 !! Jacobian_Dict = Some (NestedDict d))
    by (unfold h1; by rewrite lookup_insert_ne).
  rewrite Hh1J. cbn [mbind option_bind]. rewrite HA. cbn [mbind option_bind].
  destruct (decide (lC = lA)) as [Heq|Hne].
  - (* both output names share one inner dictionary *)
    rewrite <- Heq in HhA |- *.
    assert (Hh1C : h1 !! lC = Some (InputDict (<[k := splurge_jacobian 0.3 T JC]> dC')))
      by (unfold h1; by rewrite lookup_insert_eq).
    rewrite Hh1C. cbn [mbind option_bind].
    eexists. split; [reflexivity|]. unfold splurge_inv. subst h1.
    split; [by rewrite !lookup_insert_ne|]. split.
    { intros l Hl _. rewrite !lookup_insert_ne by done.
      apply Hframe; [done | by rewrite <- Heq]. }
    eexists _, _. split; [by rewrite lookup_insert_eq|].
    split; [by rewrite lookup_insert_eq|]. split; [|done].
    intros k' Hk'. apply not_elem_of_app in Hk' as [Hk' Hkk%not_elem_of_cons].
    destruct Hkk as [Hkk _].
    rewrite !lookup_insert_ne by done.
    rewrite HhC in HhA. injection HhA as <-.
    exact (Hkeep k' Hk').
  - assert (Hh1A : h1 !! lA = Some (InputDict dA'))
      by (unfold h1; by rewrite lookup_insert_ne).
    rewrite Hh1A. cbn [mbind option_bind].
    eexists. split; [reflexivity|]. unfold splurge_inv. subst h1.
    split; [by rewrite !lookup_insert_ne|]. split.
    { intros l HlC HlA. rewrite !lookup_insert_ne by done. by apply Hframe. }
    eexists _, _. split; [by rewrite lookup_insert_ne, lookup_insert_eq|].
    split; [by rewrite lookup_insert_eq|]. split.
    + intros k' Hk'. apply not_elem_of_app in Hk' as [Hk' Hkk%not_elem_of_cons].
      destruct Hkk as [Hkk _]. rewrite !lookup_insert_ne by done. by apply Hkeep.
    + intros _ k' Hk'. apply elem_of_app in Hk' as [Hk'|Hk'].
      * assert (k <> k') by (intros ->; done).
        rewrite !lookup_insert_ne by done. by apply Hnew.
      * apply list_elem_of_singleton in Hk' as ->.
        rewrite !lookup_insert_eq, HJC, HJA. done.
Qed.

Lemma splurge_loop (inputs done : list string) (h : heap) :
  inv done h -> NoDup (done ++ inputs) ->
  (forall k, k ∈ inputs ->
     exists JC JA, dC !! k = Some JC /\ is_square T JC /\ dA !! k = Some JA) ->
  exists h',
    loop_option (splurge_body dC (Some dA) T Jacobian_Dict) inputs h = Some h' /\
    inv (done ++ inputs) h'.
Proof.
  revert done h. induction inputs as [|k inputs IH]; intros done h Hinv Hnd Hin.
  - exists h. split; [done|]. by rewrite app_nil_r.
  - destruct (Hin k) as (JC & JA & HJC & Hsq & HJA); [by left|].
    assert (Hk : k ∉ done).
    { apply NoDup_app in Hnd as (_ & Hdisj & _). intros Hk.
      apply (Hdisj k Hk). by left. }
    destruct (splurge_body_step done h k JC JA Hinv Hk HJC Hsq HJA) as (h1 & Hb & Hinv1).
    destruct (IH (done ++ [k]) h1 Hinv1) as (h' & Hl & Hinv').
    { by rewrite <- app_assoc. }
    { intros k' Hk'. apply Hin. by right. }
    exists h'. cbn [loop_option]. rewrite Hb. cbn [mbind option_bind].
    split; [done|]. by rewrite <- app_assoc in Hinv'.
Qed.

Lemma apply_splurge_behavior_frame
    (Hin : forall k, k ∈ splurge_inputs ->
             exists JC JA, dC !! k = Some JC /\ is_square T JC /\ dA !! k = Some JA) :
  exists h' dC' dA',
    apply_splurge_behavior Jacobian_Dict h0 = Some (Jacobian_Dict, h') /\
    h' !! Jacobian_Dict = h0 !! Jacobian_Dict /\
    (forall l, l <> lC -> l <> lA -> h' !! l = h0 !! l) /\
    h' !! lC = Some (InputDict dC') /\ h' !! lA = Some (InputDict dA') /\
    (forall k, k ∉ splurge_inputs -> dC' !! k = dC !! k /\ dA' !! k = dA !! k) /\
    (lC <> lA -> forall k, k ∈ splurge_inputs ->
       dC' !! k = splurge_jacobian 0.3 T <$> dC !! k /\
       dA' !! k = splurge_assets 0.3 <$> dA !! k).
Proof.
  destruct (Hin "transfers") as (Jt & _ & HJt & [Hlt _] & _); [by left|].
  destruct (splurge_loop splurge_inputs [] h0 splurge_inv_init) as (h' & Hloop & Hinv).
  { apply (bool_decide_unpack _). by vm_compute. }
  { exact Hin. }
  cbn [app] in Hinv.
  destruct Hinv as (HhJ & Hframe & dC' & dA' & HhC & HhA & Hkeep & Hnew).
  exists h', dC', dA'. split.
  - unfold apply_splurge_behavior, getitem.
    rewrite HJ. cbn [mbind option_bind]. rewrite HC, HA. cbn [mbind option_bind].
    rewrite HdC, HdA. cbn [mbind option_bind fmap option_fmap option_map snd].
    rewrite HJt. cbn [mbind option_bind]. rewrite Hlt, Hloop. done.
  - split; [by rewrite HhJ, HJ|]. done.
Qed.

End SplurgeFrame.

(** C10. [apply_splurge_behavior] returns the reference it was given and
    works on the store in place: the [JacobianDict] object and every object
    other than its two inner dictionaries are left as they were, and in the
    inner dictionaries of ["C"] and ["A"] every key other than the six policy
    inputs keeps its matrix, while (the two being distinct objects) each of
    the six inputs holds the splurge-adjusted consumption Jacobian and the
    scaled asset Jacobian of the matrices found on entry. *)
Theorem apply_splurge_behavior_in_place
    (Jacobian_Dict : loc) (h0 : heap) (d : gmap string loc) (lC lA : loc)
    (dC dA : gmap string matrix) (T : nat)
    (HJ : h0 !! Jacobian_Dict = Some (NestedDict d))
    (HC : d !! "C" = Some lC) (HA : d !! "A" = Some lA)
    (HdC : h0 !! lC = Some (InputDict dC)) (HdA : h0 !! lA = Some (InputDict dA))
    (Hin : forall k, k ∈ splurge_inputs ->
             exists JC JA, dC !! k = Some JC /\ is_square T JC /\ dA !! k = Some JA) :
  exists h' dC' dA',
    apply_splurge_behavior Jacobian_Dict h0 = Some (Jacobian_Dict, h') /\
    h' !! Jacobian_Dict = h0 !! Jacobian_Dict /\
    (forall l, l <> lC -> l <> lA -> h' !! l = h0 !! l) /\
    h' !! lC = Some (InputDict dC') /\ h' !! lA = Some (InputDict dA') /\
    (forall k, k ∉ splurge_inputs -> dC' !! k = dC !! k /\ dA' !! k = dA !! k) /\
    (lC <> lA -> forall k, k ∈ splurge_inputs ->
       dC' !! k = splurge_jacobian 0.3 T <$> dC !! k /\
       dA' !! k = splurge_assets 0.3 <$> dA !! k).
Proof. by apply (apply_splurge_behavior_frame Jacobian_Dict h0 d lC lA dC dA T). Qed.

(** C10, on the sample store. *)
Lemma apply_splurge_behavior_in_place_witness :
  sample_heap !! 1%positive
    = Some (NestedDict (list_to_map [("C", 2%positive); ("A", 3%positive)])) /\
  (list_to_map [("C", 2%positive); ("A", 3%positive)] : gmap string loc) !! "C"
    = Some 2%positive /\
  (list_to_map [("C", 2%positive); ("A", 3%positive)] : gmap string loc) !! "A"
    = Some 3%positive /\
  sample_heap !! 2%positive = Some (InputDict (sample_inner [[1; 2]; [3; 4]])) /\
  sample_heap !! 3%positive = Some (InputDict (sample_inner [[5; 6]; [7; 8]])) /\
  (forall k, k ∈ splurge_inputs ->
     exists JC JA, sample_inner [[1; 2]; [3; 4]] !! k = Some JC /\ is_square 2 JC /\
                   sample_inner [[5; 6]; [7; 8]] !! k = Some JA) /\
  exists h' dC' dA',
    apply_splurge_behavior 1%positive sample_heap = Some (1%positive, h') /\
    h' !! 1%positive = sample_heap !! 1%positive /\
    (forall l, l <> 2%positive -> l <> 3%positive -> h' !! l = sample_heap !! l) /\
    h' !! 2%positive = Some (InputDict dC') /\ h' !! 3%positive = Some (InputDict dA') /\
    (forall k, k ∉ splurge_inputs ->
       dC' !! k = sample_inner [[1; 2]; [3; 4]] !! k /\
       dA' !! k = sample_inner [[5; 6]; [7; 8]] !! k) /\
    (2%positive <> 3%positive -> forall k, k ∈ splurge_inputs ->
       dC' !! k = splurge_jacobian 0.3 2 <$> sample_inner [[1; 2]; [3; 4]] !! k /\
       dA' !! k = splurge_assets 0.3 <$> sample_inner [[5; 6]; [7; 8]] !! k).
Proof.
  assert (Hin : forall k, k ∈ splurge_inputs ->
            exists JC JA, sample_inner [[1; 2]; [3; 4]] !! k = Some JC /\ is_square 2 JC /\
                          sample_inner [[5; 6]; [7; 8]] !! k = Some JA).
  { intros k Hk.
    repeat (apply elem_of_cons in Hk as [->|Hk];
            [exists [[1; 2]; [3; 4]], [[5; 6]; [7; 8]];
             split; [reflexivity|]; split; [|reflexivity];
             split; [reflexivity | by repeat constructor]|]).
    by apply elem_of_nil in Hk. }
  split; [reflexivity|]. split; [reflexivity|]. split; [reflexivity|].
  split; [reflexivity|]. split; [reflexivity|]. split; [exact Hin|].
  apply (apply_splurge_behavior_in_place 1%positive sample_heap
           (list_to_map [("C", 2%positive); ("A", 3%positive)]) 2%positive 3%positive
           (sample_inner [[1; 2]; [3; 4]]) (sample_inner [[5; 6]; [7; 8]]) 2);
    first [reflexivity | exact Hin].
Defined.

(** ** Net present value: bounds, recurrence, prefix *)

Lemma NPV_loop_app (x : vec) (r : Q) (l1 l2 : list nat) (acc : Q) :
  NPV_loop x r (l1 ++ l2) acc = NPV_loop x r l1 acc ≫= NPV_loop x r l2.
Proof.
  revert acc. induction l1 as [|i l1 IH]; intros acc; [done|].
  cbn [app NPV_loop]. destruct (x !! i) as [xi|]; [|done]. cbn. apply IH.
Qed.

Lemma NPV_loop_is_Some (x : vec) (r : Q) (range : list nat) (acc : Q) :
  Forall (fun i => (i < length x)%nat) range -> is_Some (NPV_loop x r range acc).
Proof.
  intros H. destruct (NPV_loop_sum x r range acc H) as (v & -> & _). done.
Qed.

Lemma NPV_loop_ext (x y : vec) (r : Q) (range : list nat) (acc : Q) :
  Forall (fun i => x !! i = y !! i) range ->
  NPV_loop x r range acc = NPV_loop y r range acc.
Proof.
  revert acc. induction range as [|i range IH]; intros acc H; [done|].
  apply Forall_cons_1 in H as [Hi H]. cbn [NPV_loop]. rewrite Hi.
  destruct (y !! i); [|done]. cbn. by apply IH.
Qed.

Lemma NPV_past_the_end (irf : vec) (n : nat) (discount_rate : option Q) :
  (length irf < n)%nat -> NPV irf n discount_rate = None.
Proof.
  intros H. unfold NPV.
  replace n with (length irf + S (n - S (length irf)))%nat by lia.
  rewrite seq_app, NPV_loop_app. cbn [seq plus NPV_loop].
  destruct (NPV_loop irf _ (seq 0 (length irf)) 0) as [v|]; [|done].
  cbn [mbind option_bind]. by rewrite (lookup_ge_None_2 irf (length irf)).
Qed.

(** X1. With a discount rate that is not zero, [NPV] returns exactly when
    the requested length does not exceed the length of the series: a longer
    request reads past the end and raises. *)
Theorem NPV_index_bounds (irf : vec) (n : nat) (discount_rate : option Q)
    (Hrate : ~ default R discount_rate == 0) :
  ((n <= length irf)%nat -> is_Some (NPV irf n discount_rate)) /\
  ((length irf < n)%nat -> NPV irf n discount_rate = None).
Proof.
  split; [|apply NPV_past_the_end].
  intros H. unfold NPV. apply NPV_loop_is_Some. by apply seq_below.
Qed.

(** X1, on a series of three entries and the default rate: two periods are
    there, four are not. *)
Lemma NPV_index_bounds_witness :
  ~ default R None == 0 /\
  is_Some (NPV [1; 2; 3] 2 None) /\
  NPV [1; 2; 3] 4 None = None.
Proof.
  assert (H : ~ default R None == 0) by (intros H; by vm_compute in H).
  split; [exact H|]. split.
  - apply (NPV_index_bounds [1; 2; 3] 2 None H). cbn. lia.
  - apply (NPV_index_bounds [1; 2; 3] 4 None H). cbn. lia.
Defined.

(** X2. With a discount rate that is not zero, the empty sum is zero and one
    more period adds one more discounted term to the value of the shorter
    sum; the longer call raises when the shorter one does or when the new
    entry is past the end. *)
Theorem NPV_one_more_period (irf : vec) (n : nat) (discount_rate : option Q)
    (Hrate : ~ default R discount_rate == 0) :
  NPV irf 0 discount_rate = Some 0 /\
  NPV irf (S n) discount_rate =
    (v ← NPV irf n discount_rate;
     x ← irf !! n;
     Some (v + x / default R discount_rate ^ Z.of_nat n)).
Proof.
  split; [done|]. unfold NPV. rewrite seq_S, NPV_loop_app. cbn [plus].
  destruct (NPV_loop irf _ (seq 0 n) 0) as [v|]; [|done].
  cbn [mbind option_bind NPV_loop]. by destruct (irf !! n).
Qed.

(** X2, on a series of three entries and the default rate. *)
Lemma NPV_one_more_period_witness :
  ~ default R None == 0 /\
  NPV [1; 2; 3] 0 None = Some 0 /\
  NPV [1; 2; 3] 3 None =
    (v ← NPV [1; 2; 3] 2 None;
     x ← [1; 2; 3] !! 2%nat;
     Some (v + x / default R None ^ Z.of_nat 2)).
Proof.
  assert (H : ~ default R None == 0) by (intros H; by vm_compute in H).
  split; [exact H|].
  apply (NPV_one_more_period [1; 2; 3] 2 None H).
Defined.

(** X3. [NPV(irf, n)] reads the first [n] entries only: the call on the
    series cut to [n] entries returns (or raises) as the call on the whole
    series, and entries appended to a series change no value that was
    defined. *)
Theorem NPV_reads_a_prefix (irf more : vec) (n : nat) (discount_rate : option Q) :
  NPV (take n irf) n discount_rate = NPV irf n discount_rate /\
  ((n <= length irf)%nat ->
   NPV (irf ++ more) n discount_rate = NPV irf n discount_rate).
Proof.
  split; [|intros Hn]; unfold NPV; apply NPV_loop_ext, Forall_forall;
    intros i Hi%elem_of_seq.
  - rewrite lookup_take_lt; [done|lia].
  - rewrite lookup_app_l; [done|lia].
Qed.


Lemma vsum_map_div (f : nat -> Q) (c : Q) (l : list nat) :
  vsum (map (fun i => f i / c) l) == vsum (map f l) / c.
Proof.
  induction l as [|i l IH]; cbn.
  - unfold Qdiv. ring.
  - fold (vsum (map (fun i => f i / c) l)). fold (vsum (map f l)).
    rewrite IH. unfold Qdiv. ring.
Qed.

Lemma vsum_map_equiv (f g : nat -> Q) (l : list nat) :
  (forall i, f i == g i) -> vsum (map f l) == vsum (map g l).
Proof.
  intros H. induction l as [|i l IH]; cbn; [reflexivity|].
  fold (vsum (map f l)). fold (vsum (map g l)). by rewrite IH, (H i).
Qed.

(** X4. Delaying a series by one period divides its present value by the
    discount rate: [NPV] of the series with a zero put in front, over one
    more period, is [NPV] of the series divided by the rate. *)
Theorem NPV_of_a_delayed_series (irf : vec) (n : nat) (discount_rate : option Q)
    (Hn : (n <= length irf)%nat) (Hrate : ~ default R discount_rate == 0) :
  exists v w,
    NPV irf n discount_rate = Some v /\
    NPV (0 :: irf) (S n) discount_rate = Some w /\
    w == v / default R discount_rate.
Proof.
  destruct (NPV_discounted_sum irf n discount_rate Hn) as (v & Hv & Ev).
  destruct (NPV_discounted_sum (0 :: irf) (S n) discount_rate) as (w & Hw & Ew);
    [cbn; lia|].
  exists v, w. split; [exact Hv|]. split; [exact Hw|].
  rewrite Ew, Ev. unfold discounted_sum.
  set (r := default R discount_rate) in *. clearbody r.
  cbn [seq map]. rewrite <- seq_shift, map_map.
  change (vsum (?x :: ?l)) with (x + vsum l).
  rewrite <- vsum_map_div.
  transitivity (0 + vsum (map (fun i => default 0 (irf !! i) / r ^ Z.of_nat i / r) (seq 0 n))).
  - apply Qplus_comp.
    + cbn. unfold Qdiv. ring.
    + apply vsum_map_equiv. intros i.
      change ((0 :: irf) !! S i) with (irf !! i).
      rewrite Nat2Z.inj_succ. unfold Z.succ.
      rewrite Qpower.Qpower_plus by exact Hrate.
      rewrite Qpower.Qpower_1_r. field.
      repeat split; first [exact Hrate | by apply Qpower.Qpower_not_0].
  - ring.
Qed.

(** X4, on a series of three entries and the default rate. *)
Lemma NPV_of_a_delayed_series_witness :
  (3 <= length [1; 2; 3])%nat /\ ~ default R None == 0 /\
  exists v w,
    NPV [1; 2; 3] 3 None = Some v /\
    NPV (0 :: [1; 2; 3]) 4 None = Some w /\
    w == v / default R None.
Proof.
  assert (H : ~ default R None == 0) by (intros H; by vm_compute in H).
  split; [cbn; lia|]. split; [exact H|].
  apply (NPV_of_a_delayed_series [1; 2; 3] 3 None); [cbn; lia | exact H].
Defined.

(** ** The equilibrium blocks *)

Lemma list_to_map_lookup {V : Type} (l : list (string * V)) (k : string) :
  (list_to_map l : gmap string V) !! k = assoc_lookup k l.
Proof.
  induction l as [|[k' v] l IH]; cbn [list_to_map foldr assoc_lookup uncurry Datatypes.uncurry].
  - apply lookup_empty.
  - destruct (String.eqb_spec k k') as [->|Hne].
    + apply lookup_insert_eq.
    + rewrite lookup_insert_ne by done. exact IH.
Qed.

Lemma calibrate_general_equilibrium_inv (fp : Q -> Q -> Q) (N_ss : Q) (ss : vec)
    (ge : ge_params) :
  calibrate_general_equilibrium fp N_ss ss = Some ge ->
  exists s0 s1 s2 s3 s4 s5,
    (ss !! 0%nat = Some s0 /\ ss !! 1%nat = Some s1 /\ ss !! 2%nat = Some s2 /\
     ss !! 3%nat = Some s3 /\ ss !! 4%nat = Some s4 /\ ss !! 5%nat = Some s5) /\
    ~ R - delta ge == 0 /\
    qb_ss ge = 1 / (R - delta ge) /\
    B_ss ge = A_ss / qb_ss ge /\
    G_ss ge = tau_ss * wage_ss * s0
              - (UI * (s1 + s2) + (1 + delta ge * qb_ss ge) * B_ss ge
                 - qb_ss ge * B_ss ge) /\
    Y_priv ge = inc_ui_exhaust * (1 - tau_ss) * wage_ss * (s3 + s4 + s5)
                + (0.7 - 0.5) * (1 - tau_ss) * wage_ss * (s1 + s2) /\
    v_ss ge = N_ss * job_sep job_find EU_prob / phi_ss /\
    kappa ge = 0.07 * (wage_ss * phi_ss) /\
    HC_ss ge = (kappa ge / phi_ss) * (1 - (1 / R) * (1 - job_sep job_find EU_prob))
               + wage_ss /\
    Z_ss ge = HC_ss ge / MC_ss /\
    Y_ss ge = Z_ss ge * N_ss /\
    pi_ss ge = 0.
Proof.
  unfold calibrate_general_equilibrium.
  destruct (ss !! 1%nat) as [s1|] eqn:E1; [|done].
  destruct (ss !! 2%nat) as [s2|] eqn:E2; [|done].
  destruct (ss !! 3%nat) as [s3|] eqn:E3; [|done].
  destruct (ss !! 4%nat) as [s4|] eqn:E4; [|done].
  destruct (ss !! 5%nat) as [s5|] eqn:E5; [|done].
  cbn [mbind option_bind].
  destruct (Qeq_bool _ 0) eqn:Hdelta; [done|].
  destruct (ss !! 0%nat) as [s0|] eqn:E0; [|done].
  cbn [mbind option_bind]. intros H. apply (inj Some) in H. subst ge.
  exists s0, s1, s2, s3, s4, s5. cbn.
  split; [done|]. split; [by apply Qeq_bool_neq|]. done.
Qed.

Ltac steady_lookups :=
  cbv [steady steady_int];
  rewrite ?list_to_map_lookup;
  lazy [assoc_lookup String.eqb Ascii.eqb Bool.eqb];
  cbn [default from_option id py_float].

(** Opens the two calibrations: the entries of the distribution, the
    equations of the calibrated values, and the dictionary as a literal. *)
Ltac steady_state Hge Hd :=
  apply calibrate_general_equilibrium_inv in Hge
    as (?s0 & ?s1 & ?s2 & ?s3 & ?s4 & ?s5 & (?E0 & ?E1 & ?E2 & ?E3 & ?E4 & ?E5)
        & ?Hdelta & ?Eqb & ?EB & ?EG & ?EYp & ?Ev & ?Ek & ?EHC & ?EZ & ?EY & ?Epi);
  unfold SteadyState_Dict in Hd;
  repeat match goal with E : _ !! _ = Some _ |- _ => rewrite E in Hd end;
  cbn [mbind option_bind] in Hd; apply (inj Some) in Hd as <-.

(** X5. The two fixed-real-rate budget blocks are the general budget blocks
    with the bond price held at its steady-state value [qb_ss]: same residual
    and same cost outputs, at every date and for all input paths. *)
Theorem fixed_real_rate_budget_pins_bond_price
    (N_ss : Q) (ge : ge_params)
    (B N G w v pi phi_b UI U1 U2 U3 U4 transfers UI_extend UI_rr phi_G tau : path)
    (deficit_T t : Z) :
  let qb : path := fun _ => qb_ss ge in
  fiscal_fixed_real_rate ge B N G w v pi phi_b UI U1 U2 U3 U4 transfers UI_extend
      deficit_T UI_rr t
    = (let '(fiscal_resid, UI_extension_cost, debt, UI_rr_cost) :=
         fiscal ge B N qb G w v pi phi_b UI U1 U2 U3 U4 transfers UI_extend
           deficit_T UI_rr t in
       (fiscal_resid, UI_extension_cost, UI_rr_cost)) /\
  fiscal_G_fixed_real_rate N_ss ge B N w v pi UI U1 U2 transfers phi_G tau deficit_T t
    = fiscal_G N_ss ge B N qb w v pi UI U1 U2 transfers phi_G tau deficit_T t.
Proof.
  intros qb. split.
  - unfold fiscal_fixed_real_rate, fiscal, qb. reflexivity.
  - unfold fiscal_G_fixed_real_rate, fiscal_G, qb. reflexivity.
Qed.

(** X6. The budget blocks and the rule blocks agree: the tax rate inside
    the residual of [fiscal] is the rate [fiscal_rule] reports, and the
    spending inside the residual of [fiscal_G] is the spending
    [fiscal_rule_G] reports. Term by term, the residual of [fiscal] is
    maturing debt plus spending, transfers and basic benefits, plus the two
    cost outputs of the block, less its debt output and less the tax revenue
    at the rule's rate; [tax_cost] of [fiscal_G] is the tax rate times the
    steady-state employment rate. *)
Theorem budget_residual_terms
    (N_ss : Q) (ge : ge_params)
    (B N qb G w v pi phi_b UI U1 U2 U3 U4 transfers UI_extend UI_rr phi_G tau : path)
    (deficit_T t : Z) :
  (let '(fiscal_resid, UI_extension_cost, debt, UI_rr_cost) :=
     fiscal ge B N qb G w v pi phi_b UI U1 U2 U3 U4 transfers UI_extend deficit_T UI_rr t in
   fiscal_resid ==
     (1 + delta ge * qb t) * B (t + -1)%Z + G t + transfers t + UI t * (U1 t + U2 t)
     + UI_rr_cost + UI_extension_cost - debt
     - fiscal_rule ge B phi_b deficit_T t * w t * N t) /\
  (let '(fiscal_resid, tax_cost) :=
     fiscal_G N_ss ge B N qb w v pi UI U1 U2 transfers phi_G tau deficit_T t in
   fiscal_resid ==
     (1 + delta ge * qb t) * B (t + -1)%Z + fiscal_rule_G ge B phi_G deficit_T t
     + transfers t + UI t * (U1 t + U2 t) - qb t * B t - tau t * w t * N t /\
   tax_cost == tau t * N_ss).
Proof.
  unfold fiscal, fiscal_G, fiscal_rule, fiscal_rule_G, displace.
  split; [ring | split; ring].
Qed.

(** X7. With the spending coefficient set to minus the tax coefficient, as
    the tax-cut experiment sets [phi_G], the spending rule moves government
    consumption off [G_ss] by the opposite of what the tax rule would move the
    tax rate off [tau_ss]. *)
Theorem spending_rule_mirrors_tax_rule
    (ge : ge_params) (B phi_b : path) (deficit_T t : Z) :
  fiscal_rule_G ge B (fun t => - phi_b t) deficit_T t - G_ss ge
    == - (fiscal_rule ge B phi_b deficit_T t - tau_ss).
Proof. unfold fiscal_rule_G, fiscal_rule, Qdiv. ring. Qed.

(** X8. [taylor_lagged] is [taylor] fed with inflation and output displaced
    by [-lag], and equals it at lag zero. With [phi_pi] at zero, as in the
    fixed-nominal-rate solves, the Taylor residual is the same for any two
    inflation paths; it still moves with output unless [phi_y] is zero too,
    in which case it is [i - rho_r * i(-1) - ev]. *)
Theorem taylor_rule_variants
    (i pi pi' Y Y' ev rho_r phi_y phi_pi : path) (lag t : Z) :
  taylor_lagged i pi Y ev rho_r phi_y phi_pi lag t
    = taylor i (displace pi (- lag)) (displace Y (- lag)) ev rho_r phi_y phi_pi t /\
  taylor_lagged i pi Y ev rho_r phi_y phi_pi 0 t = taylor i pi Y ev rho_r phi_y phi_pi t /\
  taylor i pi Y ev rho_r phi_y (fun _ => 0) t == taylor i pi' Y ev rho_r phi_y (fun _ => 0) t /\
  taylor i pi Y ev rho_r phi_y (fun _ => 0) t - taylor i pi Y' ev rho_r phi_y (fun _ => 0) t
    == - (1 - rho_r t) * phi_y t * (Y t - Y' t) /\
  taylor i pi Y ev rho_r (fun _ => 0) (fun _ => 0) t == i t - rho_r t * i (t + -1)%Z - ev t.
Proof.
  split; [reflexivity|]. split.
  - unfold taylor_lagged, taylor, displace. cbn [Z.opp]. by rewrite Z.add_0_r.
  - unfold taylor, displace. repeat split; ring.
Qed.

(** X9. No arbitrage: when the bond-pricing residual of [longbonds_price] is
    zero at the previous date, the ex-post return [ex_post_longbonds_rate]
    gives for the current date is the ex-ante rate of the previous date. *)
Theorem ex_post_return_is_last_ex_ante_rate
    (ge : ge_params) (qb r_ante : path) (t : Z)
    (Hprice : longbonds_price ge qb r_ante (t - 1) == 0)
    (Hqb : ~ qb (t - 1)%Z == 0) (Hr : ~ 1 + r_ante (t - 1)%Z == 0) :
  ex_post_longbonds_rate ge qb t == r_ante (t - 1)%Z.
Proof.
  unfold longbonds_price, ex_post_longbonds_rate, displace in *.
  replace (t - 1 + 1)%Z with t in Hprice by lia.
  replace (t + -1)%Z with (t - 1)%Z by lia.
  set (q0 := qb (t - 1)%Z) in *. set (q1 := qb t) in *. set (r := r_ante (t - 1)%Z) in *.
  clearbody q0 q1 r.
  assert (E : 1 + delta ge * q1 == q0 * (1 + r)).
  { transitivity ((1 + delta ge * q1) / (1 + r) * (1 + r)); [by field|].
    assert (E' : (1 + delta ge * q1) / (1 + r) == q0) by lra.
    rewrite E'. ring. }
  rewrite E. by field.
Qed.

(** X10. The nominal rate [fisher_clearing_fixed_real_rate] sets satisfies the
    Fisher equation of [fisher_clearing] with the real rate held at [r_ss],
    whatever the inflation path: the residual the fixed-real-rate solves drop
    from their targets is zero by construction. *)
Theorem fixed_real_rate_satisfies_fisher (pi : path) (t : Z)
    (Hpi : ~ 1 + pi (t + 1)%Z == 0) :
  fisher_clearing (fun _ => r_ss) pi (fisher_clearing_fixed_real_rate pi) t == 0.
Proof.
  unfold fisher_clearing, fisher_clearing_fixed_real_rate, displace. by field.
Qed.

(** ** The steady state and the blocks *)

Ltac nonzero_constant :=
  let H := fresh in intros H; vm_compute in H; discriminate H.

(** Side conditions of [field]: denominators known not to be zero. *)
Ltac denominators := repeat split; first [assumption | nonzero_constant].

(** X11. The module-level steady state balances the government budget:
    with every input of [fiscal] at its value in [SteadyState_Dict] (built
    from the two calibrations, [N_ss] being the employed mass and steady-state
    output not zero), the residual is the dictionary's [fiscal_resid], which
    is zero, and the outputs [UI_extension_cost] and [debt] are the
    dictionary's; [fiscal_rule] returns the dictionary's [tau]; and
    [fiscal_fixed_real_rate] has the same zero residual. *)
Theorem steady_state_balances_the_budget
    (fp : Q -> Q -> Q) (N_ss : Q) (ss : vec) (ge : ge_params)
    (d : gmap string pyval) (t : Z)
    (Hge : calibrate_general_equilibrium fp N_ss ss = Some ge)
    (Hd : SteadyState_Dict N_ss ss ge = Some d)
    (HN : ss !! 0%nat = Some N_ss)
    (HY : ~ Y_ss ge == 0) :
  let s := steady d in
  let deficit_T := steady_int d "deficit_T" in
  (let '(fiscal_resid, UI_extension_cost, debt, UI_rr_cost) :=
     fiscal ge (s "B") (s "N") (s "qb") (s "G") (s "w") (s "v") (s "pi") (s "phi_b")
       (s "UI") (s "U1") (s "U2") (s "U3") (s "U4") (s "transfers") (s "UI_extend")
       deficit_T (s "UI_rr") t in
   fiscal_resid == s "fiscal_resid" t /\ fiscal_resid == 0 /\
   UI_extension_cost == s "UI_extension_cost" t /\ debt == s "debt" t) /\
  fiscal_rule ge (s "B") (s "phi_b") deficit_T t == s "tau" t /\
  (let '(fiscal_resid, UI_extension_cost, UI_rr_cost) :=
     fiscal_fixed_real_rate ge (s "B") (s "N") (s "G") (s "w") (s "v") (s "pi")
       (s "phi_b") (s "UI") (s "U1") (s "U2") (s "U3") (s "U4") (s "transfers")
       (s "UI_extend") deficit_T (s "UI_rr") t in
   fiscal_resid == s "fiscal_resid" t /\ fiscal_resid == 0 /\
   UI_extension_cost == s "UI_extension_cost" t).
Proof.
  intros s deficit_T. subst s deficit_T.
  steady_state Hge Hd.
  rewrite HN in E0. injection E0 as <-.
  unfold fiscal, fiscal_fixed_real_rate, fiscal_rule, displace. steady_lookups.
  rewrite EG. clear - HY.
  set (Y := Y_ss ge) in *. set (D := delta ge). set (q := qb_ss ge). set (B := B_ss ge).
  clearbody Y D q B.
  repeat split; try ring; field; denominators.
Qed.


(** X12. At the values of [SteadyState_Dict] the firm side is at rest:
    the hiring-cost residual is zero, [marginal_cost] returns the dictionary's
    [MC], [production] its [Y], [vacancies] its [v], and the wage residual is
    zero, for every reading of [**] and [np.log]. *)
Theorem steady_state_solves_the_firm_blocks
    (fp : Q -> Q -> Q) (np_log : Q -> Q) (N_ss : Q) (ss : vec) (ge : ge_params)
    (d : gmap string pyval) (t : Z)
    (Hge : calibrate_general_equilibrium fp N_ss ss = Some ge)
    (Hd : SteadyState_Dict N_ss ss ge = Some d)
    (HN : ~ N_ss == 0) :
  let s := steady d in
  hiring_cost ge (s "HC") (s "Z") (s "phi") (s "job_sep") (s "r_ante") (s "w") t == 0 /\
  marginal_cost (s "HC") (s "Z") t == s "MC" t /\
  production (s "Z") (s "N") t == s "Y" t /\
  vacancies (s "N") (s "phi") (s "job_sep") t == s "v" t /\
  wage_ N_ss np_log (s "w") (s "N") (s "phi_w") t == 0.
Proof.
  intros s. subst s.
  steady_state Hge Hd.
  unfold hiring_cost, marginal_cost, production, vacancies, wage_, displace.
  steady_lookups.
  rewrite EY, Ev, EZ, EHC, Ek.
  assert (HHC : ~ 0.07 * (wage_ss * phi_ss) / phi_ss
                  * (1 - 1 / R * (1 - job_sep job_find EU_prob)) + wage_ss == 0)
    by nonzero_constant.
  set (HC := 0.07 * (wage_ss * phi_ss) / phi_ss
             * (1 - 1 / R * (1 - job_sep job_find EU_prob)) + wage_ss) in *.
  assert (EHC' : HC == 0.07 * (wage_ss * phi_ss) / phi_ss
                       * (1 - 1 / R * (1 - job_sep job_find EU_prob)) + wage_ss)
    by reflexivity.
  clearbody HC.
  assert (HMC : ~ MC_ss == 0) by nonzero_constant.
  assert (Hphi : ~ phi_ss == 0) by nonzero_constant.
  assert (HR : ~ 1 + r_ss == 0) by nonzero_constant.
  assert (ER : 1 + r_ss == R) by (unfold r_ss; ring).
  split; [|split; [|split; [|split]]].
  - transitivity (HC - (wage_ss + 0.07 * (wage_ss * phi_ss) / phi_ss
                        * (1 - 1 / R * (1 - job_sep job_find EU_prob)))).
    + rewrite <- ER. field; denominators.
    + rewrite EHC'. ring.
  - field; denominators.
  - reflexivity.
  - field; denominators.
  - unfold phi_w. ring.
Qed.

(** X13. At the values of [SteadyState_Dict] the long bond is priced
    without arbitrage and the asset market clears: the residual of
    [longbonds_price] is the dictionary's [lbp_resid] (zero),
    [ex_post_longbonds_rate] returns the dictionary's [r], and [mkt_clearing]
    returns an [asset_mkt] of zero (the dictionary's) and the calibrated
    [Y_priv]. *)
Theorem steady_state_prices_the_bonds
    (fp : Q -> Q -> Q) (N_ss : Q) (ss : vec) (ge : ge_params)
    (d : gmap string pyval) (t : Z)
    (Hge : calibrate_general_equilibrium fp N_ss ss = Some ge)
    (Hd : SteadyState_Dict N_ss ss ge = Some d) :
  let s := steady d in
  longbonds_price ge (s "qb") (s "r_ante") t == s "lbp_resid" t /\
  ex_post_longbonds_rate ge (s "qb") t == s "r" t /\
  (let '(goods_mkt, asset_mkt, Y_priv_out) :=
     mkt_clearing (s "C") (s "G") (s "A") (s "qb") (s "B") (s "w") (s "N")
       (s "U1") (s "U2") (s "U3") (s "U4") (s "U5") t in
   asset_mkt == s "asset_mkt" t /\ asset_mkt == 0 /\ Y_priv_out == Y_priv ge).
Proof.
  intros s. subst s.
  steady_state Hge Hd.
  unfold longbonds_price, ex_post_longbonds_rate, mkt_clearing, displace.
  steady_lookups.
  rewrite EYp, EB, Eqb. clear - Hdelta.
  set (D := delta ge) in *. clearbody D.
  assert (HR : ~ 1 + r_ss == 0) by nonzero_constant.
  assert (ER : 1 + r_ss == R) by (unfold r_ss; ring).
  assert (E1 : forall x, ~ x == 0 -> ~ 1 / x == 0).
  { intros x Hx H. apply Hx.
    transitivity (x * x * (1 / x)); [by field | rewrite H; ring]. }
  split; [|split; [|split; [|split]]].
  - transitivity (1 / (R - D) - (1 + D * (1 / (R - D))) / R).
    + rewrite <- ER. reflexivity.
    + field; denominators.
  - unfold r_ss. field; denominators.
  - unfold A_ss. field; denominators.
  - unfold A_ss. field; denominators.
  - unfold inc_ui_exhaust, tau_ss, wage_ss. ring.
Qed.

(** X14. At the values of [SteadyState_Dict] the Fisher residual is
    zero, [fisher_clearing_fixed_real_rate] returns the dictionary's nominal
    rate [i], and the Phillips-curve residual is the dictionary's
    [nkpc_resid] (zero), for any [np.log] that vanishes at one. *)
Theorem steady_state_satisfies_fisher_and_phillips
    (fp : Q -> Q -> Q) (np_log : Q -> Q) (N_ss : Q) (ss : vec) (ge : ge_params)
    (d : gmap string pyval) (t : Z)
    (Hge : calibrate_general_equilibrium fp N_ss ss = Some ge)
    (Hd : SteadyState_Dict N_ss ss ge = Some d)
    (HY : ~ Y_ss ge == 0)
    (Hlog1 : np_log 1 == 0)
    (Hlog : forall x y, x == y -> np_log x == np_log y) :
  let s := steady d in
  fisher_clearing (s "r_ante") (s "pi") (s "i") t == 0 /\
  fisher_clearing_fixed_real_rate (s "pi") t == s "i" t /\
  Phillips_Curve np_log (s "pi") (s "MC") (s "Y") (s "r_ante") (s "kappa_p") t
    == s "nkpc_resid" t.
Proof.
  intros s. subst s.
  steady_state Hge Hd.
  unfold fisher_clearing, fisher_clearing_fixed_real_rate, Phillips_Curve, displace.
  steady_lookups.
  rewrite Epi. clear - HY Hlog1 Hlog.
  assert (HR : ~ 1 + r_ss == 0) by nonzero_constant.
  assert (EL : np_log (1 + 0) == 0).
  { rewrite (Hlog (1 + 0) 1) by ring. exact Hlog1. }
  split; [|split].
  - field; denominators.
  - ring.
  - rewrite EL. field; denominators.
Qed.

(** The steady-state dictionaries the experiments hand to the solver. *)
Lemma overridden_ss_other (d po : gmap string pyval) (k : string) :
  k ∉ ["phi_b"; "phi_w"; "rho_r"; "phi_y"; "phi_pi"; "kappa_p"; "deficit_T"] ->
  overridden_ss d po !! k = d !! k.
Proof.
  intros Hk. unfold overridden_ss.
  rewrite !lookup_insert_ne; [done|..]; intros <-; apply Hk; in_list.
Qed.

Lemma overridden_ss_tax_other (d po : gmap string pyval) (k : string) :
  k ∉ ["phi_G"; "phi_w"; "rho_r"; "phi_y"; "phi_pi"; "kappa_p"; "deficit_T"] ->
  overridden_ss_tax d po !! k = d !! k.
Proof.
  intros Hk. unfold overridden_ss_tax.
  rewrite !lookup_insert_ne; [done|..]; intros <-; apply Hk; in_list.
Qed.

Lemma overridden_ss_fiscal_keys (d po : gmap string pyval) :
  overridden_ss d po !! "phi_b" = Some (dict_get po "phi_b" (PyFloat phi_b)) /\
  overridden_ss d po !! "deficit_T" = Some (PyInt (-1)) /\
  overridden_ss_tax d po !! "phi_G" = Some (py_neg (dict_get po "phi_b" (PyFloat phi_b))) /\
  overridden_ss_tax d po !! "deficit_T" = Some (PyInt (-1)).
Proof. unfold overridden_ss, overridden_ss_tax. repeat split; by simplify_map_eq. Qed.

Ltac not_in_list := apply (bool_decide_unpack _); by vm_compute.

Ltac override_lookups d po :=
  cbv [steady steady_int];
  (let H1 := fresh in let H2 := fresh in let H3 := fresh in let H4 := fresh in
   destruct (overridden_ss_fiscal_keys d po) as (H1 & H2 & H3 & H4);
   rewrite ?H1, ?H2, ?H3, ?H4; clear H1 H2 H3 H4);
  repeat match goal with
  | |- context [overridden_ss d po !! ?k] =>
      rewrite (overridden_ss_other d po k) by not_in_list
  | |- context [overridden_ss_tax d po !! ?k] =>
      rewrite (overridden_ss_tax_other d po k) by not_in_list
  end.

(** X15. Whatever [param_overrides] holds, the steady-state dictionaries
    the experiments hand to the solver still balance the budget: at the
    dictionary of the UI-extension and transfer experiments the residuals of
    [fiscal] and [fiscal_fixed_real_rate] are zero, and at the dictionary of
    the tax-cut experiment the residuals of [fiscal_G] and
    [fiscal_G_fixed_real_rate] are zero, their [tax_cost] is the dictionary's
    and [fiscal_rule_G] returns the dictionary's [G]. The overridden
    coefficients [phi_b] and [phi_G] multiply a debt gap that is zero at the
    steady state. *)
Theorem experiments_start_from_a_balanced_budget
    (fp : Q -> Q -> Q) (N_ss : Q) (ss : vec) (ge : ge_params)
    (d param_overrides : gmap string pyval) (t : Z)
    (Hge : calibrate_general_equilibrium fp N_ss ss = Some ge)
    (Hd : SteadyState_Dict N_ss ss ge = Some d)
    (HN : ss !! 0%nat = Some N_ss)
    (HY : ~ Y_ss ge == 0) :
  (let s := steady (overridden_ss d param_overrides) in
   let deficit_T := steady_int (overridden_ss d param_overrides) "deficit_T" in
   fst (fst (fst (fiscal ge (s "B") (s "N") (s "qb") (s "G") (s "w") (s "v") (s "pi")
                    (s "phi_b") (s "UI") (s "U1") (s "U2") (s "U3") (s "U4")
                    (s "transfers") (s "UI_extend") deficit_T (s "UI_rr") t))) == 0 /\
   fst (fst (fiscal_fixed_real_rate ge (s "B") (s "N") (s "G") (s "w") (s "v") (s "pi")
               (s "phi_b") (s "UI") (s "U1") (s "U2") (s "U3") (s "U4")
               (s "transfers") (s "UI_extend") deficit_T (s "UI_rr") t)) == 0) /\
  (let s := steady (overridden_ss_tax d param_overrides) in
   let deficit_T := steady_int (overridden_ss_tax d param_overrides) "deficit_T" in
   (let '(fiscal_resid, tax_cost) :=
      fiscal_G N_ss ge (s "B") (s "N") (s "qb") (s "w") (s "v") (s "pi") (s "UI")
        (s "U1") (s "U2") (s "transfers") (s "phi_G") (s "tau") deficit_T t in
    fiscal_resid == 0 /\ tax_cost == s "tax_cost" t) /\
   (let '(fiscal_resid, tax_cost) :=
      fiscal_G_fixed_real_rate N_ss ge (s "B") (s "N") (s "w") (s "v") (s "pi") (s "UI")
        (s "U1") (s "U2") (s "transfers") (s "phi_G") (s "tau") deficit_T t in
    fiscal_resid == 0 /\ tax_cost == s "tax_cost" t) /\
   fiscal_rule_G ge (s "B") (s "phi_G") deficit_T t == s "G" t).
Proof.
  cbv zeta.
  unfold fiscal, fiscal_fixed_real_rate, fiscal_G, fiscal_G_fixed_real_rate,
    fiscal_rule_G, displace.
  override_lookups d param_overrides.
  steady_state Hge Hd.
  rewrite HN in E0. injection E0 as <-.
  rewrite ?list_to_map_lookup.
  lazy [assoc_lookup String.eqb Ascii.eqb Bool.eqb].
  cbn [default from_option id py_float fst snd].
  rewrite EG. clear - HY.
  set (Y := Y_ss ge) in *. set (D := delta ge). set (q := qb_ss ge). set (B := B_ss ge).
  clearbody Y D q B.
  set (pb := py_float (dict_get param_overrides "phi_b" (PyFloat phi_b))). clearbody pb.
  set (pg := py_float (py_neg (dict_get param_overrides "phi_b" (PyFloat phi_b)))).
  clearbody pg.
  unfold UI, wage_ss, tau_ss.
  repeat split; try ring; field; denominators.
Qed.

(** ** The steady state and the blocks, on sample inputs *)

(** X11, on the sample distribution. *)
Lemma steady_state_balances_the_budget_witness :
  exists ge d,
    calibrate_general_equilibrium sample_pow sample_N_ss sample_dstn = Some ge /\
    SteadyState_Dict sample_N_ss sample_dstn ge = Some d /\
    sample_dstn !! 0%nat = Some sample_N_ss /\
    ~ Y_ss ge == 0 /\
  let s := steady d in
  let deficit_T := steady_int d "deficit_T" in
  (let '(fiscal_resid, UI_extension_cost, debt, UI_rr_cost) :=
     fiscal ge (s "B") (s "N") (s "qb") (s "G") (s "w") (s "v") (s "pi") (s "phi_b")
       (s "UI") (s "U1") (s "U2") (s "U3") (s "U4") (s "transfers") (s "UI_extend")
       deficit_T (s "UI_rr") 0%Z in
   fiscal_resid == s "fiscal_resid" 0%Z /\ fiscal_resid == 0 /\
   UI_extension_cost == s "UI_extension_cost" 0%Z /\ debt == s "debt" 0%Z) /\
  fiscal_rule ge (s "B") (s "phi_b") deficit_T 0%Z == s "tau" 0%Z /\
  (let '(fiscal_resid, UI_extension_cost, UI_rr_cost) :=
     fiscal_fixed_real_rate ge (s "B") (s "N") (s "G") (s "w") (s "v") (s "pi")
       (s "phi_b") (s "UI") (s "U1") (s "U2") (s "U3") (s "U4") (s "transfers")
       (s "UI_extend") deficit_T (s "UI_rr") 0%Z in
   fiscal_resid == s "fiscal_resid" 0%Z /\ fiscal_resid == 0 /\
   UI_extension_cost == s "UI_extension_cost" 0%Z).
Proof.
  eexists _, _.
  split; [reflexivity|]. split; [reflexivity|]. split; [reflexivity|].
  split; [nonzero_constant|].
  apply (steady_state_balances_the_budget sample_pow sample_N_ss sample_dstn);
    [reflexivity | reflexivity | reflexivity | nonzero_constant].
Defined.

(** X12, on the sample distribution. *)
Lemma steady_state_solves_the_firm_blocks_witness :
  exists ge d,
    calibrate_general_equilibrium sample_pow sample_N_ss sample_dstn = Some ge /\
    SteadyState_Dict sample_N_ss sample_dstn ge = Some d /\
    ~ sample_N_ss == 0 /\
  let s := steady d in
  hiring_cost ge (s "HC") (s "Z") (s "phi") (s "job_sep") (s "r_ante") (s "w") 0%Z == 0 /\
  marginal_cost (s "HC") (s "Z") 0%Z == s "MC" 0%Z /\
  production (s "Z") (s "N") 0%Z == s "Y" 0%Z /\
  vacancies (s "N") (s "phi") (s "job_sep") 0%Z == s "v" 0%Z /\
  wage_ sample_N_ss sample_log (s "w") (s "N") (s "phi_w") 0%Z == 0.
Proof.
  eexists _, _.
  split; [reflexivity|]. split; [reflexivity|]. split; [nonzero_constant|].
  eapply (steady_state_solves_the_firm_blocks sample_pow sample_log sample_N_ss sample_dstn);
    [reflexivity | reflexivity | nonzero_constant].
Defined.

(** X13, on the sample distribution. *)
Lemma steady_state_prices_the_bonds_witness :
  exists ge d,
    calibrate_general_equilibrium sample_pow sample_N_ss sample_dstn = Some ge /\
    SteadyState_Dict sample_N_ss sample_dstn ge = Some d /\
  let s := steady d in
  longbonds_price ge (s "qb") (s "r_ante") 0%Z == s "lbp_resid" 0%Z /\
  ex_post_longbonds_rate ge (s "qb") 0%Z == s "r" 0%Z /\
  (let '(goods_mkt, asset_mkt, Y_priv_out) :=
     mkt_clearing (s "C") (s "G") (s "A") (s "qb") (s "B") (s "w") (s "N")
       (s "U1") (s "U2") (s "U3") (s "U4") (s "U5") 0%Z in
   asset_mkt == s "asset_mkt" 0%Z /\ asset_mkt == 0 /\ Y_priv_out == Y_priv ge).
Proof.
  eexists _, _.
  split; [reflexivity|]. split; [reflexivity|].
  eapply (steady_state_prices_the_bonds sample_pow sample_N_ss sample_dstn);
    reflexivity.
Defined.

(** X14, on the sample distribution. *)
Lemma steady_state_satisfies_fisher_and_phillips_witness :
  exists ge d,
    calibrate_general_equilibrium sample_pow sample_N_ss sample_dstn = Some ge /\
    SteadyState_Dict sample_N_ss sample_dstn ge = Some d /\
    ~ Y_ss ge == 0 /\
    sample_log 1 == 0 /\
    (forall x y, x == y -> sample_log x == sample_log y) /\
  let s := steady d in
  fisher_clearing (s "r_ante") (s "pi") (s "i") 0%Z == 0 /\
  fisher_clearing_fixed_real_rate (s "pi") 0%Z == s "i" 0%Z /\
  Phillips_Curve sample_log (s "pi") (s "MC") (s "Y") (s "r_ante") (s "kappa_p") 0%Z
    == s "nkpc_resid" 0%Z.
Proof.
  assert (Hlog : forall x y, x == y -> sample_log x == sample_log y)
    by (intros x y E; unfold sample_log; by rewrite E).
  eexists _, _.
  split; [reflexivity|]. split; [reflexivity|]. split; [nonzero_constant|].
  split; [reflexivity|]. split; [exact Hlog|].
  eapply (steady_state_satisfies_fisher_and_phillips sample_pow sample_log sample_N_ss
           sample_dstn);
    [reflexivity | reflexivity | nonzero_constant | reflexivity | exact Hlog].
Defined.

(** X15, on the sample distribution and the sample overrides. *)
Lemma experiments_start_from_a_balanced_budget_witness :
  exists ge d,
    calibrate_general_equilibrium sample_pow sample_N_ss sample_dstn = Some ge /\
    SteadyState_Dict sample_N_ss sample_dstn ge = Some d /\
    sample_dstn !! 0%nat = Some sample_N_ss /\
    ~ Y_ss ge == 0 /\
  (let s := steady (overridden_ss d sample_overrides) in
   let deficit_T := steady_int (overridden_ss d sample_overrides) "deficit_T" in
   fst (fst (fst (fiscal ge (s "B") (s "N") (s "qb") (s "G") (s "w") (s "v") (s "pi")
                    (s "phi_b") (s "UI") (s "U1") (s "U2") (s "U3") (s "U4")
                    (s "transfers") (s "UI_extend") deficit_T (s "UI_rr") 0%Z))) == 0 /\
   fst (fst (fiscal_fixed_real_rate ge (s "B") (s "N") (s "G") (s "w") (s "v") (s "pi")
               (s "phi_b") (s "UI") (s "U1") (s "U2") (s "U3") (s "U4")
               (s "transfers") (s "UI_extend") deficit_T (s "UI_rr") 0%Z)) == 0) /\
  (let s := steady (overridden_ss_tax d sample_overrides) in
   let deficit_T := steady_int (overridden_ss_tax d sample_overrides) "deficit_T" in
   (let '(fiscal_resid, tax_cost) :=
      fiscal_G sample_N_ss ge (s "B") (s "N") (s "qb") (s "w") (s "v") (s "pi") (s "UI")
        (s "U1") (s "U2") (s "transfers") (s "phi_G") (s "tau") deficit_T 0%Z in
    fiscal_resid == 0 /\ tax_cost == s "tax_cost" 0%Z) /\
   (let '(fiscal_resid, tax_cost) :=
      fiscal_G_fixed_real_rate sample_N_ss ge (s "B") (s "N") (s "w") (s "v") (s "pi") (s "UI")
        (s "U1") (s "U2") (s "transfers") (s "phi_G") (s "tau") deficit_T 0%Z in
    fiscal_resid == 0 /\ tax_cost == s "tax_cost" 0%Z) /\
   fiscal_rule_G ge (s "B") (s "phi_G") deficit_T 0%Z == s "G" 0%Z).
Proof.
  eexists _, _.
  split; [reflexivity|]. split; [reflexivity|]. split; [reflexivity|].
  split; [nonzero_constant|].
  apply (experiments_start_from_a_balanced_budget sample_pow sample_N_ss sample_dstn);
    [reflexivity | reflexivity | reflexivity | nonzero_constant].
Defined.

(** X9, on constant paths. *)
Lemma ex_post_return_is_last_ex_ante_rate_witness :
  exists ge,
    calibrate_general_equilibrium sample_pow sample_N_ss sample_dstn = Some ge /\
    let qb : path := fun _ => qb_ss ge in
    let r_ante : path := fun _ => r_ss in
    longbonds_price ge qb r_ante (0 - 1) == 0 /\
    ~ qb (0 - 1)%Z == 0 /\ ~ 1 + r_ante (0 - 1)%Z == 0 /\
    ex_post_longbonds_rate ge qb 0 == r_ante (0 - 1)%Z.
Proof.
  eexists. split; [reflexivity|]. cbv zeta.
  match goal with
  | |- ?P /\ ?Q /\ ?R /\ _ =>
      assert (H1 : P) by (vm_compute; reflexivity);
      assert (H2 : Q) by nonzero_constant;
      assert (H3 : R) by nonzero_constant
  end.
  split; [exact H1|]. split; [exact H2|]. split; [exact H3|].
  exact (ex_post_return_is_last_ex_ante_rate _ _ _ 0 H1 H2 H3).
Defined.

(** X10, on a constant inflation path. *)
Lemma fixed_real_rate_satisfies_fisher_witness :
  let pi : path := fun t => 0.02 + inject_Z t / 100 in
  ~ 1 + pi (3 + 1)%Z == 0 /\
  fisher_clearing (fun _ => r_ss) pi (fisher_clearing_fixed_real_rate pi) 3 == 0.
Proof.
  intros pi.
  assert (H : ~ 1 + pi (3 + 1)%Z == 0) by nonzero_constant.
  split; [exact H|].
  exact (fixed_real_rate_satisfies_fisher pi 3 H).
Defined.

(** ** The unemployment Jacobian: shape, zero sums, impact response *)

Lemma entry3_set_slice_None (U : array3) (i s : nat) (v : vec) (k i' s' : nat) :
  entry3 U k i' s' = None -> entry3 (set_slice U i s v) k i' s' = None.
Proof. intros H. by rewrite entry3_set_slice, H. Qed.

Lemma entry3_zeros3_None (a b c k i s : nat) :
  ~ ((k < a)%nat /\ (i < b)%nat /\ (s < c)%nat) -> entry3 (zeros3 a b c) k i s = None.
Proof.
  intros H. unfold entry3, zeros3.
  destruct (replicate a (replicate b (replicate c 0)) !! k) as [plane|] eqn:Hk; [|done].
  apply lookup_replicate in Hk as [-> Hk]. cbn.
  destruct (replicate b (replicate c 0) !! i) as [row|] eqn:Hi; [|done].
  apply lookup_replicate in Hi as [-> Hi]. cbn.
  apply lookup_replicate_None. lia.
Qed.

Lemma jacobian_columns_None (jf eu : Q) (T : nat) (M : matrix) (ss : vec)
    (num : nat) (dx : Q) (n k i s : nat) :
  ~ ((k < num)%nat /\ (i < T)%nat /\ (s < T)%nat) ->
  entry3 (snd (jacobian_columns jf eu T M ss num dx n)) k i s = None.
Proof.
  intros H. unfold jacobian_columns.
  assert (Hbody : forall s0 l st, entry3 (snd st) k i s = None ->
            entry3 (snd (foldl (jacobian_body jf eu M ss dx s0) st l)) k i s = None).
  { intros s0 l. induction l as [|j l IH]; intros st Hst; [done|].
    cbn [foldl]. apply IH. cbn [jacobian_body snd]. by apply entry3_set_slice_None. }
  assert (Hcol : forall l st, entry3 (snd st) k i s = None ->
            entry3 (snd (foldl (jacobian_column jf eu T M ss dx) st l)) k i s = None).
  { intros l. induction l as [|j l IH]; intros st Hst; [done|].
    cbn [foldl]. apply IH. by apply Hbody. }
  apply Hcol. cbn [jacobian_init snd]. by apply entry3_zeros3_None.
Qed.

Lemma vdiv_vsub_sum (d ss : vec) (dx : Q) :
  length d = 6%nat -> length ss = 6%nat -> vsum d == vsum ss ->
  exists q0 q1 q2 q3 q4 q5,
    vdiv (vsub d ss) dx = [q0; q1; q2; q3; q4; q5] /\
    q0 + q1 + q2 + q3 + q4 + q5 == 0.
Proof.
  intros (d0 & d1 & d2 & d3 & d4 & d5 & ->)%vec6_inv
         (s0 & s1 & s2 & s3 & s4 & s5 & ->)%vec6_inv Hs.
  cbv [vsum foldr] in Hs.
  eexists _, _, _, _, _, _. split; [reflexivity|].
  unfold Qdiv.
  transitivity ((d0 + d1 + d2 + d3 + d4 + d5 - (s0 + s1 + s2 + s3 + s4 + s5)) * / dx);
    [ring|].
  assert (E : d0 + d1 + d2 + d3 + d4 + d5 - (s0 + s1 + s2 + s3 + s4 + s5) == 0) by lra.
  rewrite E. ring.
Qed.

(** X16. The array [compute_unemployment_jacobian] returns has shape
    [(6, bigT, bigT)]: every cell inside is defined and no cell outside is;
    and for every response period and shock period the six state entries add
    up to zero, so the employment response is minus the sum of the five
    unemployment responses. *)
Theorem unemployment_jacobian_states_sum_to_zero
    (jf eu : Q) (T : nat) (ss : vec) (i s : nat)
    (Hss : length ss = 6%nat) (Hi : (i < T)%nat) (Hs : (s < T)%nat) :
  let UJAC := compute_unemployment_jacobian jf eu T (markov_array_ss jf eu) ss 6 in
  (exists q0 q1 q2 q3 q4 q5,
     entry3 UJAC 0 i s = Some q0 /\ entry3 UJAC 1 i s = Some q1 /\
     entry3 UJAC 2 i s = Some q2 /\ entry3 UJAC 3 i s = Some q3 /\
     entry3 UJAC 4 i s = Some q4 /\ entry3 UJAC 5 i s = Some q5 /\
     q0 + q1 + q2 + q3 + q4 + q5 == 0) /\
  (forall k i' s', ~ ((k < 6)%nat /\ (i' < T)%nat /\ (s' < T)%nat) ->
     entry3 UJAC k i' s' = None).
Proof.
  intros UJAC. subst UJAC. unfold compute_unemployment_jacobian. split.
  - set (M := markov_array_ss jf eu).
    set (d := foldl (fun d j => jacobian_step jf eu M 0.0001 s j d)
                (dstn_at_column_start jf eu T M ss 6 0.0001 s) (seq 0 (S i))).
    destruct (jacobian_columns_mass jf eu 0.0001 T 6 ss s Hss) as [Hl0 Hs0].
    fold M in Hl0, Hs0.
    destruct (foldl_step_mass jf eu 0.0001 s (seq 0 (S i)) _ Hl0) as [Hl Hsum].
    fold M d in Hl, Hsum.
    destruct (vdiv_vsub_sum d ss 0.0001 Hl Hss (Qeq_trans _ _ _ Hsum Hs0))
      as (q0 & q1 & q2 & q3 & q4 & q5 & Hq & Hz).
    exists q0, q1, q2, q3, q4, q5.
    repeat (split; [apply jacobian_entry_recorded; [lia|done|done|];
                    fold M d; by rewrite Hq|]).
    exact Hz.
  - intros k i' s' H. by apply jacobian_columns_None.
Qed.

(** X16, on the sample distribution, with a horizon of three periods. *)
Lemma unemployment_jacobian_states_sum_to_zero_witness :
  length sample_dstn = 6%nat /\ (2 < 3)%nat /\ (1 < 3)%nat /\
  let UJAC :=
    compute_unemployment_jacobian job_find EU_prob 3
      (markov_array_ss job_find EU_prob) sample_dstn 6 in
  (exists q0 q1 q2 q3 q4 q5,
     entry3 UJAC 0 2 1 = Some q0 /\ entry3 UJAC 1 2 1 = Some q1 /\
     entry3 UJAC 2 2 1 = Some q2 /\ entry3 UJAC 3 2 1 = Some q3 /\
     entry3 UJAC 4 2 1 = Some q4 /\ entry3 UJAC 5 2 1 = Some q5 /\
     q0 + q1 + q2 + q3 + q4 + q5 == 0) /\
  (forall k i' s', ~ ((k < 6)%nat /\ (i' < 3)%nat /\ (s' < 3)%nat) ->
     entry3 UJAC k i' s' = None).
Proof.
  split; [reflexivity|]. split; [lia|]. split; [lia|].
  apply (unemployment_jacobian_states_sum_to_zero job_find EU_prob 3 sample_dstn 2 1);
    [reflexivity | lia | lia].
Defined.

(** The impact response: what the perturbed matrix adds to a fixed point of
    the steady-state matrix, per unit of the perturbation. *)
Lemma impact_response (jf eu dx : Q) (s0 s1 s2 s3 s4 s5 : Q) :
  ~ dx == 0 ->
  vec_eq (np_dot (markov_array_ss jf eu) [s0; s1; s2; s3; s4; s5])
    [s0; s1; s2; s3; s4; s5] ->
  vec_eq (vdiv (vsub (np_dot (create_matrix_U jf eu dx) [s0; s1; s2; s3; s4; s5])
                  [s0; s1; s2; s3; s4; s5]) dx)
    [job_sep jf eu * s0 + (s1 + s2 + s3 + s4 + s5); - (job_sep jf eu * s0);
     - s1; - s2; - s3; - (s4 + s5)].
Proof.
  intros Hdx Hfix.
  cbv [np_dot dot vsum zip_with foldr map markov_array_ss] in Hfix.
  repeat (apply Forall2_cons_1 in Hfix as [? Hfix]).
  cbv [np_dot dot vsum zip_with foldr map create_matrix_U vdiv vsub].
  set (js := job_sep jf eu) in *. clearbody js.
  repeat constructor.
  - transitivity (((1 - js * (1 - jf)) * s0 + (jf * s1 + (jf * s2 + (jf * s3
                    + (jf * s4 + (jf * s5 + 0))))) - s0
                   + dx * (js * s0 + (s1 + s2 + s3 + s4 + s5))) / dx); [by field|].
    assert (E : (1 - js * (1 - jf)) * s0 + (jf * s1 + (jf * s2 + (jf * s3
                  + (jf * s4 + (jf * s5 + 0))))) - s0 == 0) by lra.
    rewrite E. by field.
  - transitivity ((js * (1 - jf) * s0 + (0 * s1 + (0 * s2 + (0 * s3 + (0 * s4
                    + (0 * s5 + 0))))) - s1 - dx * (js * s0)) / dx); [by field|].
    assert (E : js * (1 - jf) * s0 + (0 * s1 + (0 * s2 + (0 * s3 + (0 * s4
                  + (0 * s5 + 0))))) - s1 == 0) by lra.
    rewrite E. by field.
  - transitivity ((0 * s0 + ((1 - jf) * s1 + (0 * s2 + (0 * s3 + (0 * s4
                    + (0 * s5 + 0))))) - s2 - dx * s1) / dx); [by field|].
    assert (E : 0 * s0 + ((1 - jf) * s1 + (0 * s2 + (0 * s3 + (0 * s4
                  + (0 * s5 + 0))))) - s2 == 0) by lra.
    rewrite E. by field.
  - transitivity ((0 * s0 + (0 * s1 + ((1 - jf) * s2 + (0 * s3 + (0 * s4
                    + (0 * s5 + 0))))) - s3 - dx * s2) / dx); [by field|].
    assert (E : 0 * s0 + (0 * s1 + ((1 - jf) * s2 + (0 * s3 + (0 * s4
                  + (0 * s5 + 0))))) - s3 == 0) by lra.
    rewrite E. by field.
  - transitivity ((0 * s0 + (0 * s1 + (0 * s2 + ((1 - jf) * s3 + (0 * s4
                    + (0 * s5 + 0))))) - s4 - dx * s3) / dx); [by field|].
    assert (E : 0 * s0 + (0 * s1 + (0 * s2 + ((1 - jf) * s3 + (0 * s4
                  + (0 * s5 + 0))))) - s4 == 0) by lra.
    rewrite E. by field.
  - transitivity ((0 * s0 + (0 * s1 + (0 * s2 + (0 * s3 + ((1 - jf) * s4
                    + ((1 - jf) * s5 + 0))))) - s5 - dx * (s4 + s5)) / dx); [by field|].
    assert (E : 0 * s0 + (0 * s1 + (0 * s2 + (0 * s3 + ((1 - jf) * s4
                  + ((1 - jf) * s5 + 0))))) - s5 == 0) by lra.
    rewrite E. by field.
Qed.

(** X17. Started from a fixed point of the steady-state matrix, the first
    cell of the first shock column holds the exact derivative of the
    distribution with respect to the job-finding probability: inflow from
    separations avoided and from all five unemployed states for the employed
    state, the matching outflows for the others. The transition matrix is
    affine in the probability, so the step [dx] leaves no trace. *)
Theorem unemployment_jacobian_impact_is_exact
    (jf eu : Q) (T : nat) (s0 s1 s2 s3 s4 s5 : Q)
    (HT : (0 < T)%nat)
    (Hfix : vec_eq (np_dot (markov_array_ss jf eu) [s0; s1; s2; s3; s4; s5])
              [s0; s1; s2; s3; s4; s5]) :
  let UJAC :=
    compute_unemployment_jacobian jf eu T (markov_array_ss jf eu)
      [s0; s1; s2; s3; s4; s5] 6 in
  exists q0 q1 q2 q3 q4 q5,
    entry3 UJAC 0 0 0 = Some q0 /\ entry3 UJAC 1 0 0 = Some q1 /\
    entry3 UJAC 2 0 0 = Some q2 /\ entry3 UJAC 3 0 0 = Some q3 /\
    entry3 UJAC 4 0 0 = Some q4 /\ entry3 UJAC 5 0 0 = Some q5 /\
    q0 == job_sep jf eu * s0 + (s1 + s2 + s3 + s4 + s5) /\
    q1 == - (job_sep jf eu * s0) /\
    q2 == - s1 /\ q3 == - s2 /\ q4 == - s3 /\ q5 == - (s4 + s5).
Proof.
  intros UJAC. subst UJAC. unfold compute_unemployment_jacobian.
  assert (Hdx : ~ 0.0001 == 0) by (intros H; by vm_compute in H).
  pose proof (impact_response jf eu 0.0001 s0 s1 s2 s3 s4 s5 Hdx Hfix) as Himp.
  set (ss := [s0; s1; s2; s3; s4; s5]) in *.
  set (v := vdiv (vsub (np_dot (create_matrix_U jf eu 0.0001) ss) ss) 0.0001) in *.
  assert (Hv : exists q0 q1 q2 q3 q4 q5, v = [q0; q1; q2; q3; q4; q5])
    by (by eexists _, _, _, _, _, _).
  destruct Hv as (q0 & q1 & q2 & q3 & q4 & q5 & Hv).
  rewrite Hv in Himp.
  repeat (apply Forall2_cons_1 in Himp as [? Himp]).
  exists q0, q1, q2, q3, q4, q5.
  repeat (split; [apply jacobian_entry_recorded; [lia|lia|lia|];
                  unfold dstn_at_column_start, jacobian_columns;
                  cbn [seq foldl jacobian_init fst]; unfold jacobian_step;
                  cbn [Nat.eqb]; fold v; by rewrite Hv|]).
  repeat split; assumption.
Qed.

(** X17, at the calibrated probabilities and stationary distribution. *)
Lemma unemployment_jacobian_impact_is_exact_witness :
  exists s0 s1 s2 s3 s4 s5,
    ss_dstn_calibrated = [s0; s1; s2; s3; s4; s5] /\
    (0 < 2)%nat /\
    vec_eq (np_dot (markov_array_ss job_find EU_prob) [s0; s1; s2; s3; s4; s5])
      [s0; s1; s2; s3; s4; s5] /\
    let UJAC :=
      compute_unemployment_jacobian job_find EU_prob 2
        (markov_array_ss job_find EU_prob) [s0; s1; s2; s3; s4; s5] 6 in
    exists q0 q1 q2 q3 q4 q5,
      entry3 UJAC 0 0 0 = Some q0 /\ entry3 UJAC 1 0 0 = Some q1 /\
      entry3 UJAC 2 0 0 = Some q2 /\ entry3 UJAC 3 0 0 = Some q3 /\
      entry3 UJAC 4 0 0 = Some q4 /\ entry3 UJAC 5 0 0 = Some q5 /\
      q0 == job_sep job_find EU_prob * s0 + (s1 + s2 + s3 + s4 + s5) /\
      q1 == - (job_sep job_find EU_prob * s0) /\
      q2 == - s1 /\ q3 == - s2 /\ q4 == - s3 /\ q5 == - (s4 + s5).
Proof.
  eexists _, _, _, _, _, _. split; [reflexivity|]. split; [lia|].
  split; [exact ss_dstn_calibrated_fixed|].
  apply (unemployment_jacobian_impact_is_exact job_find EU_prob 2); [lia|].
  exact ss_dstn_calibrated_fixed.
Defined.

(** ** The stationary distribution in closed form *)

(** A fixed point of the steady-state matrix is its first entry times the
    stationary direction. *)
Lemma fixed_point_direction (jf eu : Q) (x0 x1 x2 x3 x4 x5 : Q) :
  valid_probabilities jf eu ->
  vec_eq (np_dot (markov_array_ss jf eu) [x0; x1; x2; x3; x4; x5]) [x0; x1; x2; x3; x4; x5] ->
  vec_eq [x0; x1; x2; x3; x4; x5]
    (map (fun c => c * x0) (stationary_direction jf eu)).
Proof.
  intros (Hf0 & Hf1 & He0 & He1) H.
  cbv [np_dot dot vsum zip_with foldr map markov_array_ss] in H.
  repeat (apply Forall2_cons_1 in H as [? H]).
  assert (Ejs : job_sep jf eu * (1 - jf) == eu) by (unfold job_sep; field; lra).
  cbv [stationary_direction map].
  set (r := 1 - jf) in *.
  assert (E1 : x1 == eu * x0) by (rewrite <- Ejs; lra).
  assert (E2 : x2 == r * eu * x0).
  { transitivity (r * x1); [lra | rewrite E1; ring]. }
  assert (E3 : x3 == r * r * eu * x0).
  { transitivity (r * x2); [lra | rewrite E2; ring]. }
  assert (E4 : x4 == r * r * r * eu * x0).
  { transitivity (r * x3); [lra | rewrite E3; ring]. }
  assert (E5 : x5 == r * r * r * r * eu / jf * x0).
  { transitivity (r * x4 / jf); [|rewrite E4; field; lra].
    assert (E : jf * x5 == r * x4) by (unfold r in *; lra).
    rewrite <- E. field. lra. }
  repeat constructor; [ring | done..].
Qed.

Lemma stationary_direction_sum_pos (jf eu : Q) :
  valid_probabilities jf eu -> 0 < vsum (stationary_direction jf eu).
Proof.
  intros (Hf0 & Hf1 & He0 & He1). cbv [stationary_direction vsum foldr].
  set (r := 1 - jf). assert (Hr : 0 <= r) by (unfold r; lra).
  assert (H2 : 0 <= r * eu) by (by apply Qmult_le_0_compat).
  assert (H3 : 0 <= r * r * eu).
  { rewrite <- Qmult_assoc. by apply Qmult_le_0_compat. }
  assert (H4 : 0 <= r * r * r * eu).
  { assert (E : r * r * r * eu == r * (r * r * eu)) by ring. rewrite E.
    by apply Qmult_le_0_compat. }
  assert (H5 : 0 <= r * r * r * r * eu / jf).
  { assert (E : r * r * r * r * eu / jf == r * (r * r * r * eu) * / jf)
      by (unfold Qdiv; ring).
    rewrite E. apply Qmult_le_0_compat; [by apply Qmult_le_0_compat|].
    apply Qinv_le_0_compat. lra. }
  lra.
Qed.

(** X18. Whatever eigenpair of non-zero sum the eigen-solver returns, the
    distribution of [calibrate_labor_market] is a fixed point of the
    transition matrix and does not depend on the scaling or rotation of the
    eigenvector: it is the direction
    [(1, EU, r EU, r^2 EU, r^3 EU, r^4 EU / job_find)], [r = 1 - job_find],
    divided by its sum, and the employment rate is one over that sum. *)
Theorem stationary_distribution_closed_form
    (jf eu : Q) (eigs : matrix -> complex * list complex)
    (Hv : valid_probabilities jf eu)
    (He : eigs_contract (markov_array_ss jf eu) (eigs (markov_array_ss jf eu))) :
  exists ss U N,
    calibrate_labor_market jf eu eigs = Some (markov_array_ss jf eu, ss, U, N, 6%nat) /\
    vec_eq (np_dot (markov_array_ss jf eu) ss) ss /\
    vec_eq ss (map (fun c => c / vsum (stationary_direction jf eu))
                 (stationary_direction jf eu)) /\
    N == 1 / vsum (stationary_direction jf eu).
Proof.
  unfold calibrate_labor_market.
  destruct (eigs (markov_array_ss jf eu)) as [[a b] z].
  destruct He as (Hlen & Hre & Him & Hnz). cbn [fst snd] in *.
  apply complex_vec6_inv in Hlen
    as (x0 & y0 & x1 & y1 & x2 & y2 & x3 & y3 & x4 & y4 & x5 & y5 & ->).
  cbn [map re im cmul] in Hre, Him.
  cbv [cnonzero csum foldr cadd re im] in Hnz.
  set (Sx := x0 + (x1 + (x2 + (x3 + (x4 + (x5 + 0)))))) in *.
  set (Sy := y0 + (y1 + (y2 + (y3 + (y4 + (y5 + 0)))))) in *.
  pose proof (modulus_pos Sx Sy Hnz) as Hn.
  cbv [map cdiv csum foldr cadd re im length markov_array_ss].
  fold Sx Sy. fold (markov_array_ss jf eu).
  set (n := Sx * Sx + Sy * Sy) in *.
  assert (ESx : Sx == x0 + x1 + x2 + x3 + x4 + x5) by (unfold Sx; ring).
  assert (ESy : Sy == y0 + y1 + y2 + y3 + y4 + y5) by (unfold Sy; ring).
  assert (En : n == Sx * Sx + Sy * Sy) by reflexivity.
  clearbody n. clearbody Sx Sy.
  cbn [lookup list_lookup mbind option_bind].
  eexists _, _, _. split; [reflexivity|].
  assert (Hab : a == 1 /\ b == 0).
  { pose proof Hre as Hre'. pose proof Him as Him'.
    cbv [np_dot dot vsum zip_with foldr map markov_array_ss] in Hre', Him'.
    repeat (apply Forall2_cons_1 in Hre' as [? Hre']).
    repeat (apply Forall2_cons_1 in Him' as [? Him']).
    apply (eigenvalue_is_one a b Sx Sy); [| |done].
    - rewrite ESx, ESy. lra.
    - rewrite ESx, ESy. lra. }
  destruct Hab as [Ha Hb].
  assert (Hx : vec_eq (np_dot (markov_array_ss jf eu) [x0; x1; x2; x3; x4; x5])
                 [x0; x1; x2; x3; x4; x5]).
  { eapply vec_eq_trans; [exact Hre|].
    repeat constructor; rewrite Ha, Hb; ring. }
  assert (Hy : vec_eq (np_dot (markov_array_ss jf eu) [y0; y1; y2; y3; y4; y5])
                 [y0; y1; y2; y3; y4; y5]).
  { eapply vec_eq_trans; [exact Him|].
    repeat constructor; rewrite Ha, Hb; ring. }
  pose proof (fixed_point_direction jf eu _ _ _ _ _ _ Hv Hx) as Dx.
  pose proof (fixed_point_direction jf eu _ _ _ _ _ _ Hv Hy) as Dy.
  pose proof (stationary_direction_sum_pos jf eu Hv) as Hpos.
  cbv [stationary_direction map] in Dx, Dy.
  cbv [stationary_direction vsum foldr] in Hpos.
  repeat (apply Forall2_cons_1 in Dx as [? Dx]).
  repeat (apply Forall2_cons_1 in Dy as [? Dy]).
  cbv [stationary_direction map vsum foldr].
  set (r := 1 - jf) in *.
  set (c5 := r * r * r * r * eu / jf) in *. set (c4 := r * r * r * eu) in *.
  set (c3 := r * r * eu) in *. set (c2 := r * eu) in *. set (c1 := eu) in *.
  clearbody c1 c2 c3 c4 c5.
  set (S := 1 + (c1 + (c2 + (c3 + (c4 + (c5 + 0)))))) in *.
  assert (ES : S == 1 + c1 + c2 + c3 + c4 + c5) by (unfold S; ring).
  clearbody S.
  assert (EX : Sx == S * x0) by (rewrite ESx, ES; lra).
  assert (EY : Sy == S * y0) by (rewrite ESy, ES; lra).
  (* the employed mass *)
  set (p0 := (x0 * Sx + y0 * Sy) / n).
  assert (Ep0 : p0 * S == 1).
  { unfold p0. transitivity ((Sx * (S * x0) + Sy * (S * y0)) / n); [field; lra|].
    rewrite <- EX, <- EY, <- En. field. lra. }
  assert (Ep0' : p0 == 1 / S).
  { transitivity (p0 * S / S); [field; lra | rewrite Ep0; reflexivity]. }
  assert (Hk : forall c x y, x == c * x0 -> y == c * y0 ->
             (x * Sx + y * Sy) / n == c / S).
  { intros c x y Ex Ey.
    transitivity (c * p0); [unfold p0; rewrite Ex, Ey; field; lra|].
    rewrite Ep0'. field. lra. }
  split; [|split].
  - (* stationarity: a combination of two fixed points *)
    pose proof Hx as Hx'. pose proof Hy as Hy'.
    cbv [np_dot dot vsum zip_with foldr map markov_array_ss] in Hx', Hy'.
    repeat (apply Forall2_cons_1 in Hx' as [? Hx']).
    repeat (apply Forall2_cons_1 in Hy' as [? Hy']).
    cbv [np_dot dot vsum zip_with foldr map markov_array_ss].
    subst p0. set (A := job_sep jf c1 * (1 - jf)) in *. clearbody A.
    assert (Hlin : forall u v u' v' : Q, u' == u -> v' == v ->
               (u' * Sx + v' * Sy) / n == (u * Sx + v * Sy) / n).
    { intros u v u' v' -> ->. reflexivity. }
    repeat constructor.
    + transitivity ((((1 - A) * x0 + (jf * x1 + (jf * x2 + (jf * x3 + (jf * x4 + (jf * x5 + 0)))))) * Sx
                     + ((1 - A) * y0 + (jf * y1 + (jf * y2 + (jf * y3 + (jf * y4 + (jf * y5 + 0)))))) * Sy) / n);
        [field; lra | by apply Hlin].
    + transitivity (((A * x0 + (0 * x1 + (0 * x2 + (0 * x3 + (0 * x4 + (0 * x5 + 0))))))  * Sx
                     + (A * y0 + (0 * y1 + (0 * y2 + (0 * y3 + (0 * y4 + (0 * y5 + 0)))))) * Sy) / n);
        [field; lra | by apply Hlin].
    + transitivity (((0 * x0 + ((1 - jf) * x1 + (0 * x2 + (0 * x3 + (0 * x4 + (0 * x5 + 0))))))  * Sx
                     + (0 * y0 + ((1 - jf) * y1 + (0 * y2 + (0 * y3 + (0 * y4 + (0 * y5 + 0)))))) * Sy) / n);
        [field; lra | by apply Hlin].
    + transitivity (((0 * x0 + (0 * x1 + ((1 - jf) * x2 + (0 * x3 + (0 * x4 + (0 * x5 + 0))))))  * Sx
                     + (0 * y0 + (0 * y1 + ((1 - jf) * y2 + (0 * y3 + (0 * y4 + (0 * y5 + 0)))))) * Sy) / n);
        [field; lra | by apply Hlin].
    + transitivity (((0 * x0 + (0 * x1 + (0 * x2 + ((1 - jf) * x3 + (0 * x4 + (0 * x5 + 0))))))  * Sx
                     + (0 * y0 + (0 * y1 + (0 * y2 + ((1 - jf) * y3 + (0 * y4 + (0 * y5 + 0)))))) * Sy) / n);
        [field; lra | by apply Hlin].
    + transitivity (((0 * x0 + (0 * x1 + (0 * x2 + (0 * x3 + ((1 - jf) * x4 + ((1 - jf) * x5 + 0))))))  * Sx
                     + (0 * y0 + (0 * y1 + (0 * y2 + (0 * y3 + ((1 - jf) * y4 + ((1 - jf) * y5 + 0)))))) * Sy) / n);
        [field; lra | by apply Hlin].
  - repeat constructor; by apply Hk.
  - exact Ep0'.
Qed.

(** X18, at the calibrated probabilities, with a rotated and scaled
    eigenvector. *)
Lemma stationary_distribution_closed_form_witness :
  valid_probabilities job_find EU_prob /\
  eigs_contract (markov_array_ss job_find EU_prob)
    (exact_eigs (Cx (-3) 2) (markov_array_ss job_find EU_prob)) /\
  exists ss U N,
    calibrate_labor_market job_find EU_prob (exact_eigs (Cx (-3) 2)) =
      Some (markov_array_ss job_find EU_prob, ss, U, N, 6%nat) /\
    vec_eq (np_dot (markov_array_ss job_find EU_prob) ss) ss /\
    vec_eq ss (map (fun c => c / vsum (stationary_direction job_find EU_prob))
                 (stationary_direction job_find EU_prob)) /\
    N == 1 / vsum (stationary_direction job_find EU_prob).
Proof.
  assert (Hc : eigs_contract (markov_array_ss job_find EU_prob)
                 (exact_eigs (Cx (-3) 2) (markov_array_ss job_find EU_prob))).
  { apply exact_eigs_contract. intros [H _]. by vm_compute in H. }
  split; [exact calibrated_probabilities_valid|]. split; [exact Hc|].
  exact (stationary_distribution_closed_form job_find EU_prob (exact_eigs (Cx (-3) 2))
           calibrated_probabilities_valid Hc).
Defined.

(** ** Column sums of the splurge transform *)

Lemma col_sums_lookup (T : nat) (M : matrix) (s : nat) :
  Forall (fun row => length row = T) M -> (s < T)%nat ->
  col_sums T M !! s = Some (column_total M s).
Proof.
  intros HM Hs. induction HM as [|row M Hrow _ IH]; cbn.
  - by rewrite lookup_replicate_2.
  - unfold col_sums in IH. rewrite lookup_zip_with, IH.
    destruct (lookup_lt_is_Some_2 row s ltac:(lia)) as [x ->]. done.
Qed.

Lemma column_total_broadcast_div (T : nat) (J : matrix) (w : vec) (s : nat) (c : Q) :
  Forall (fun row => length row = T) J -> (s < T)%nat ->
  w !! s = Some c -> ~ c == 0 ->
  column_total (broadcast_div J w) s * c == column_total J s.
Proof.
  intros HJ Hs Hw Hc. induction HJ as [|row J Hrow _ IH]; cbn.
  - ring.
  - rewrite lookup_zip_with, Hw.
    destruct (lookup_lt_is_Some_2 row s ltac:(lia)) as [x ->]. cbn.
    fold (broadcast_div J w). fold (column_total (broadcast_div J w) s).
    fold (column_total J s). rewrite <- IH. field. exact Hc.
Qed.

Lemma column_total_mscale (c : Q) (M : matrix) (s : nat) :
  column_total (mscale c M) s == c * column_total M s.
Proof.
  induction M as [|row M IH]; cbn; [ring|].
  fold (mscale c M). fold (column_total (mscale c M) s). fold (column_total M s).
  rewrite IH, list_lookup_fmap. destruct (row !! s); cbn; ring.
Qed.

Lemma column_total_madd (T : nat) (A B : matrix) (s : nat) :
  Forall (fun row => length row = T) A -> Forall (fun row => length row = T) B ->
  length A = length B -> (s < T)%nat ->
  column_total (madd A B) s == column_total A s + column_total B s.
Proof.
  intros HA. revert B. induction HA as [|a A Ha _ IH]; intros [|b B] HB Hl Hs;
    try discriminate; cbn; [ring|].
  apply Forall_cons_1 in HB as [Hb HB].
  fold (madd A B). fold (column_total (madd A B) s).
  fold (column_total A s). fold (column_total B s).
  rewrite IH by (try done; by injection Hl).
  rewrite lookup_zip_with.
  destruct (lookup_lt_is_Some_2 a s ltac:(lia)) as [x ->].
  destruct (lookup_lt_is_Some_2 b s ltac:(lia)) as [y ->]. cbn. ring.
Qed.

Lemma column_total_diag (n k : nat) (v : vec) (s : nat) :
  (k + length v <= n)%nat ->
  column_total (imap (fun i x => <[(k + i)%nat := x]> (replicate n 0)) v) s
  == (if decide (k <= s)%nat then default 0 (v !! (s - k)%nat) else 0).
Proof.
  revert k. induction v as [|x v IH]; intros k Hk; cbn [imap length] in *.
  - cbn. by destruct (decide _).
  - cbn [column_total foldr].
    fold (column_total (imap ((fun i x => <[(k + i)%nat := x]> (replicate n 0)) ∘ S) v) s).
    rewrite (imap_ext _ (fun i x => <[(S k + i)%nat := x]> (replicate n 0)))
      by (intros i y _; cbn; f_equal; lia).
    rewrite IH by lia. rewrite Nat.add_0_r.
    destruct (decide (s = k)) as [->|Hne].
    + rewrite list_lookup_insert_eq by (rewrite length_replicate; lia).
      rewrite Nat.sub_diag. cbn.
      destruct (decide (S k <= k)%nat); [lia|]. destruct (decide (k <= k)%nat); [|lia].
      ring.
    + rewrite list_lookup_insert_ne by done.
      destruct (decide (S k <= s)%nat), (decide (k <= s)%nat); try lia.
      * replace (s - k)%nat with (S (s - S k)) by lia.
        change ((x :: v) !! S (s - S k)%nat) with (v !! (s - S k)%nat).
        destruct (replicate n 0 !! s) eqn:E; cbn [default from_option id]; [|ring].
        apply lookup_replicate in E as [-> _]. ring.
      * destruct (replicate n 0 !! s) eqn:E; cbn [default from_option id]; [|ring].
        apply lookup_replicate in E as [-> _]. ring.
Qed.

Lemma column_total_np_diag (v : vec) (s : nat) :
  column_total (np_diag v) s == default 0 (v !! s).
Proof.
  unfold np_diag.
  rewrite (imap_ext _ (fun i x => <[(0 + i)%nat := x]> (replicate (length v) 0)))
    by done.
  rewrite column_total_diag by lia.
  destruct (decide (0 <= s)%nat); [|lia]. by rewrite Nat.sub_0_r.
Qed.

Lemma R_power_nonzero (z : Z) : ~ R ^ z == 0.
Proof. apply Qpower.Qpower_not_0. intros H. by vm_compute in H. Qed.

Lemma mscale_rows (c : Q) (T : nat) (M : matrix) :
  Forall (fun row => length row = T) M ->
  Forall (fun row => length row = T) (mscale c M).
Proof.
  intros H. unfold mscale. apply Forall_fmap.
  eapply Forall_impl; [exact H|]. intros row Hrow. cbn. by rewrite length_map.
Qed.

Lemma broadcast_div_rows (T : nat) (M : matrix) (w : vec) :
  length w = T -> Forall (fun row => length row = T) M ->
  Forall (fun row => length row = T) (broadcast_div M w).
Proof.
  intros Hw H. unfold broadcast_div. apply Forall_fmap.
  eapply Forall_impl; [exact H|]. intros row Hrow. cbn in *.
  rewrite length_zip_with. lia.
Qed.

Lemma madd_rows (T : nat) (A B : matrix) :
  Forall (fun row => length row = T) A -> Forall (fun row => length row = T) B ->
  Forall (fun row => length row = T) (madd A B).
Proof.
  intros HA. revert B. induction HA as [|a A Ha _ IH]; intros [|b B] HB; cbn;
    try constructor.
  - apply Forall_cons_1 in HB as [Hb _]. rewrite length_zip_with. lia.
  - apply Forall_cons_1 in HB as [_ HB]. by apply IH.
Qed.

Lemma vsum_cons (x : Q) (l : vec) : vsum (x :: l) = x + vsum l.
Proof. reflexivity. Qed.

Lemma column_total_shifted (J : matrix) (s k : nat) :
  column_total J s ==
  vsum (map (fun t => default 0 (mentry J (t - k) s)) (seq k (length J))).
Proof.
  revert k. induction J as [|row J IH]; intros k; [reflexivity|].
  cbn [column_total foldr length seq map]. rewrite vsum_cons.
  fold (column_total J s). rewrite Nat.sub_diag.
  apply Qplus_comp; [reflexivity|].
  rewrite (IH (S k)).
  match goal with |- vsum ?a == vsum ?b => assert (E : a = b) end;
    [|rewrite E; reflexivity].
  apply map_ext_in.
  intros t Ht%in_seq. replace (t - k)%nat with (S (t - S k)) by lia. done.
Qed.

Lemma column_total_entries (J : matrix) (s : nat) :
  column_total J s ==
  vsum (map (fun t => default 0 (mentry J t s)) (seq 0 (length J))).
Proof.
  rewrite (column_total_shifted J s 0).
  match goal with |- vsum ?a == vsum ?b => assert (E : a = b) end;
    [|rewrite E; reflexivity].
  apply map_ext. intros t. by rewrite Nat.sub_0_r.
Qed.

(** The discount of [present_value] and its undoing. *)
Lemma present_value_times_R (T : nat) (J : matrix) (s : nat) :
  is_square T J -> (s < T)%nat ->
  exists pv, present_value T J !! s = Some pv /\
             pv * R ^ Z.of_nat s == column_total J s.
Proof.
  intros [Hl Hrows] Hs. unfold present_value.
  rewrite (col_sums_lookup T) by
    first [done | apply broadcast_div_rows; [apply R_powers_length | done]].
  eexists. split; [reflexivity|].
  apply (column_total_broadcast_div T); [done..| |apply R_power_nonzero].
  unfold R_powers. rewrite list_lookup_fmap, lookup_seq_lt by done. done.
Qed.

(** The present value of column [s], in terms of the entries of the
    Jacobian. *)
Lemma present_value_entries (T : nat) (J : matrix) (s : nat) :
  is_square T J -> (s < T)%nat ->
  exists pv, present_value T J !! s = Some pv /\
    pv == vsum (map (fun t' => default 0 (mentry J t' s) / R ^ Z.of_nat s) (seq 0 T)).
Proof.
  intros [Hl Hrows] Hs. unfold present_value.
  rewrite (col_sums_lookup T) by
    first [done | apply broadcast_div_rows; [apply R_powers_length | done]].
  eexists. split; [reflexivity|].
  rewrite column_total_entries.
  replace (length (broadcast_div J (R_powers T))) with T
    by (unfold broadcast_div; by rewrite length_map).
  apply vsum_map_equiv. intros t'. unfold mentry, broadcast_div.
  rewrite list_lookup_fmap.
  destruct (J !! t') as [row|]; cbn [fmap option_fmap option_map mbind option_bind];
    [|cbn [default from_option id]; field; apply R_power_nonzero].
  rewrite lookup_zip_with. unfold R_powers.
  rewrite list_lookup_fmap, lookup_seq_lt by done.
  destruct (row !! s) as [x|]; cbn [fmap option_fmap option_map mbind option_bind
                                     default from_option id plus];
    [reflexivity | field; apply R_power_nonzero].
Qed.

(** An entry of the splurge transform, for any share. *)
Lemma splurge_jacobian_entry (T : nat) (J : matrix) (share : Q) (t s : nat) (pv j : Q) :
  is_square T J -> (t < T)%nat -> (s < T)%nat ->
  present_value T J !! s = Some pv -> mentry J t s = Some j ->
  exists e,
    mentry (splurge_jacobian share T J) t s = Some e /\
    e == share * (if decide (t = s) then pv * R ^ Z.of_nat s else 0) + (1 - share) * j.
Proof.
  intros HJ Ht Hs Hpv Hj.
  destruct (lookup_lt_is_Some_2 (present_value T J) t) as [pvt Hpvt];
    [by rewrite present_value_length|].
  set (v := zip_with Qmult (present_value T J) (R_powers T)).
  assert (Hvt : v !! t = Some (pvt * R ^ Z.of_nat t)).
  { unfold v, R_powers. rewrite lookup_zip_with, Hpvt, list_lookup_fmap. cbn.
    by rewrite lookup_seq_lt. }
  assert (Hlv : length v = T).
  { unfold v. rewrite length_zip_with, present_value_length, R_powers_length by done. lia. }
  eexists. split.
  - unfold splurge_jacobian, splurge_jacobian_component. fold v.
    apply mentry_madd; [apply mentry_mscale, (mentry_np_diag v t s _ Hvt); lia|].
    by apply mentry_mscale.
  - destruct (decide (t = s)) as [->|]; [|reflexivity].
    rewrite Hpv in Hpvt. injection Hpvt as <-. reflexivity.
Qed.

(** C3. On a [T] by [T] Jacobian [J] the splurge transform is
    [splurge * diag(present_value * R^t) + (1 - splurge) * J], where
    [present_value[s]] is the sum over the rows [t'] of [J[t', s] / R^s]:
    entry [(t, s)] is [(1 - splurge) * J[t, s]], plus
    [splurge * present_value[s] * R^s] on the diagonal. At share 0 the
    transform is [J]; at share 1 it is the diagonal matrix alone, with
    [present_value[s] * R^s] at [(s, s)] and zero off the diagonal. The asset
    Jacobian is [(1 - splurge) * A], with no diagonal term in any entry. *)
Theorem splurge_transform_endpoints
    (T : nat) (J A : matrix) (splurge : Q) (t s : nat)
    (HJ : is_square T J) (HA : is_square T A) (Ht : (t < T)%nat) (Hs : (s < T)%nat) :
  exists pv j a e e0 e1 ea,
    present_value T J !! s = Some pv /\
    pv == vsum (map (fun t' => default 0 (mentry J t' s) / R ^ Z.of_nat s) (seq 0 T)) /\
    mentry J t s = Some j /\ mentry A t s = Some a /\
    mentry (splurge_jacobian splurge T J) t s = Some e /\
    e == splurge * (if decide (t = s) then pv * R ^ Z.of_nat s else 0)
         + (1 - splurge) * j /\
    mentry (splurge_jacobian 0 T J) t s = Some e0 /\ e0 == j /\
    mentry (splurge_jacobian 1 T J) t s = Some e1 /\
    e1 == (if decide (t = s) then pv * R ^ Z.of_nat s else 0) /\
    mentry (splurge_assets splurge A) t s = Some ea /\ ea == (1 - splurge) * a /\
    mat_eq (splurge_jacobian 0 T J) J /\
    mat_eq (splurge_jacobian 1 T J)
      (np_diag (zip_with Qmult (present_value T J) (R_powers T))).
Proof.
  pose proof (splurge_jacobian_component_square T J HJ) as HD.
  pose proof (same_shape T _ _ HD HJ) as Hshape.
  destruct (present_value_entries T J s HJ Hs) as (pv & Hpv & Epv).
  destruct (mentry_square T J t s HJ Ht Hs) as [j Hj].
  destruct (mentry_square T A t s HA Ht Hs) as [a Ha].
  destruct (splurge_jacobian_entry T J splurge t s pv j HJ Ht Hs Hpv Hj) as (e & He & Ee).
  destruct (splurge_jacobian_entry T J 0 t s pv j HJ Ht Hs Hpv Hj) as (e0 & He0 & Ee0).
  destruct (splurge_jacobian_entry T J 1 t s pv j HJ Ht Hs Hpv Hj) as (e1 & He1 & Ee1).
  exists pv, j, a, e, e0, e1, ((1 - splurge) * a).
  split; [exact Hpv|]. split; [exact Epv|]. split; [exact Hj|]. split; [exact Ha|].
  split; [exact He|]. split; [exact Ee|].
  split; [exact He0|]. split; [rewrite Ee0; ring|].
  split; [exact He1|]. split; [rewrite Ee1; ring|].
  split; [by apply mentry_mscale|]. split; [reflexivity|].
  split; [by apply madd_zero_one | by apply madd_one_zero].
Qed.

(** C3, on a two-by-two Jacobian, the share 0.3 of the source and the
    diagonal entry of the second column. *)
Lemma splurge_transform_endpoints_witness :
  is_square 2 [[1; 2]; [3; 4]] /\ is_square 2 [[5; 6]; [7; 8]] /\
  (1 < 2)%nat /\ (1 < 2)%nat /\
  exists pv j a e e0 e1 ea,
    present_value 2 [[1; 2]; [3; 4]] !! 1%nat = Some pv /\
    pv == vsum (map (fun t' => default 0 (mentry [[1; 2]; [3; 4]] t' 1) / R ^ Z.of_nat 1)
                  (seq 0 2)) /\
    mentry [[1; 2]; [3; 4]] 1 1 = Some j /\ mentry [[5; 6]; [7; 8]] 1 1 = Some a /\
    mentry (splurge_jacobian 0.3 2 [[1; 2]; [3; 4]]) 1 1 = Some e /\
    e == 0.3 * (if decide (1%nat = 1%nat) then pv * R ^ Z.of_nat 1 else 0)
         + (1 - 0.3) * j /\
    mentry (splurge_jacobian 0 2 [[1; 2]; [3; 4]]) 1 1 = Some e0 /\ e0 == j /\
    mentry (splurge_jacobian 1 2 [[1; 2]; [3; 4]]) 1 1 = Some e1 /\
    e1 == (if decide (1%nat = 1%nat) then pv * R ^ Z.of_nat 1 else 0) /\
    mentry (splurge_assets 0.3 [[5; 6]; [7; 8]]) 1 1 = Some ea /\ ea == (1 - 0.3) * a /\
    mat_eq (splurge_jacobian 0 2 [[1; 2]; [3; 4]]) [[1; 2]; [3; 4]] /\
    mat_eq (splurge_jacobian 1 2 [[1; 2]; [3; 4]])
      (np_diag (zip_with Qmult (present_value 2 [[1; 2]; [3; 4]]) (R_powers 2))).
Proof.
  assert (H1 : is_square 2 [[1; 2]; [3; 4]]) by (split; [reflexivity | by repeat constructor]).
  assert (H2 : is_square 2 [[5; 6]; [7; 8]]) by (split; [reflexivity | by repeat constructor]).
  split; [exact H1|]. split; [exact H2|]. split; [lia|]. split; [lia|].
  apply (splurge_transform_endpoints 2 [[1; 2]; [3; 4]] [[5; 6]; [7; 8]] 0.3 1 1 H1 H2); lia.
Defined.

(** X19. The discount in [present_value] cancels: numpy divides column [s] of
    the Jacobian by [R^s] (the divisor is broadcast along the last axis), and
    the diagonal of [splurge_jacobian_component] multiplies by [R^s] again, so
    its entry [(s, s)] is the plain, undiscounted sum of column [s] of the
    Jacobian. *)
Theorem splurge_diagonal_is_the_column_sum
    (T : nat) (J : matrix) (s : nat)
    (HJ : is_square T J) (Hs : (s < T)%nat) :
  exists pv cs e,
    present_value T J !! s = Some pv /\
    col_sums T J !! s = Some cs /\
    mentry (splurge_jacobian_component T J) s s = Some e /\
    e == pv * R ^ Z.of_nat s /\
    e == cs /\
    cs == vsum (map (fun t => default 0 (mentry J t s)) (seq 0 T)).
Proof.
  destruct (present_value_times_R T J s HJ Hs) as (pv & Hpv & Epv).
  pose proof HJ as [Hl Hrows].
  exists pv, (column_total J s), (pv * R ^ Z.of_nat s).
  split; [exact Hpv|]. split; [by apply col_sums_lookup|]. split.
  - unfold splurge_jacobian_component.
    set (v := zip_with Qmult (present_value T J) (R_powers T)).
    assert (Hv : v !! s = Some (pv * R ^ Z.of_nat s)).
    { unfold v, R_powers. rewrite lookup_zip_with, Hpv, list_lookup_fmap. cbn.
      by rewrite lookup_seq_lt. }
    rewrite (mentry_np_diag v s s _ Hv) by (by apply lookup_lt_Some in Hv).
    by destruct (decide (s = s)).
  - split; [reflexivity|]. split; [exact Epv|].
    rewrite <- Hl. apply column_total_entries.
Qed.

(** X20. The splurge transform moves mass inside a column, never across
    columns or out of them: for every share, every column of the adjusted
    consumption Jacobian has the sum of the same column of the Jacobian it
    was built from, and every column sum of the asset Jacobian is scaled by
    [1 - splurge]. *)
Theorem splurge_preserves_column_sums
    (T : nat) (J A : matrix) (splurge : Q) (s : nat)
    (HJ : is_square T J) (HA : is_square T A) (Hs : (s < T)%nat) :
  exists cs cs' ca ca',
    col_sums T J !! s = Some cs /\
    col_sums T (splurge_jacobian splurge T J) !! s = Some cs' /\
    col_sums T A !! s = Some ca /\
    col_sums T (splurge_assets splurge A) !! s = Some ca' /\
    cs' == cs /\ ca' == (1 - splurge) * ca.
Proof.
  destruct (present_value_times_R T J s HJ Hs) as (pv & Hpv & Epv).
  pose proof (splurge_jacobian_component_square T J HJ) as [HlD HD].
  pose proof HJ as [HlJ HrJ]. pose proof HA as [HlA HrA].
  eexists _, _, _, _.
  split; [by apply col_sums_lookup|]. split.
  { apply col_sums_lookup; [|done]. unfold splurge_jacobian.
    apply madd_rows; by apply mscale_rows. }
  split; [by apply col_sums_lookup|]. split.
  { apply col_sums_lookup; [|done]. unfold splurge_assets. by apply mscale_rows. }
  split.
  - unfold splurge_jacobian.
    rewrite (column_total_madd T) by
      first [by apply mscale_rows | done | unfold mscale; rewrite !length_map; lia].
    rewrite !column_total_mscale. unfold splurge_jacobian_component.
    rewrite column_total_np_diag.
    unfold R_powers. rewrite lookup_zip_with, Hpv, list_lookup_fmap. cbn [mbind option_bind].
    rewrite lookup_seq_lt by done. cbn [fmap option_fmap option_map mbind option_bind default
                                         from_option id plus].
    rewrite Epv. ring.
  - unfold splurge_assets. apply column_total_mscale.
Qed.

(** X19, on a two-by-two Jacobian. *)
Lemma splurge_diagonal_is_the_column_sum_witness :
  is_square 2 [[1; 2]; [3; 4]] /\ (1 < 2)%nat /\
  exists pv cs e,
    present_value 2 [[1; 2]; [3; 4]] !! 1%nat = Some pv /\
    col_sums 2 [[1; 2]; [3; 4]] !! 1%nat = Some cs /\
    mentry (splurge_jacobian_component 2 [[1; 2]; [3; 4]]) 1 1 = Some e /\
    e == pv * R ^ Z.of_nat 1 /\
    e == cs /\
    cs == vsum (map (fun t => default 0 (mentry [[1; 2]; [3; 4]] t 1)) (seq 0 2)).
Proof.
  assert (H : is_square 2 [[1; 2]; [3; 4]]) by (split; [reflexivity | by repeat constructor]).
  split; [exact H|]. split; [lia|].
  apply (splurge_diagonal_is_the_column_sum 2 [[1; 2]; [3; 4]] 1 H). lia.
Defined.

(** X20, on two two-by-two Jacobians and the share 0.3 of the source. *)
Lemma splurge_preserves_column_sums_witness :
  is_square 2 [[1; 2]; [3; 4]] /\ is_square 2 [[5; 6]; [7; 8]] /\ (1 < 2)%nat /\
  exists cs cs' ca ca',
    col_sums 2 [[1; 2]; [3; 4]] !! 1%nat = Some cs /\
    col_sums 2 (splurge_jacobian 0.3 2 [[1; 2]; [3; 4]]) !! 1%nat = Some cs' /\
    col_sums 2 [[5; 6]; [7; 8]] !! 1%nat = Some ca /\
    col_sums 2 (splurge_assets 0.3 [[5; 6]; [7; 8]]) !! 1%nat = Some ca' /\
    cs' == cs /\ ca' == (1 - 0.3) * ca.
Proof.
  assert (H : is_square 2 [[1; 2]; [3; 4]]) by (split; [reflexivity | by repeat constructor]).
  assert (H' : is_square 2 [[5; 6]; [7; 8]]) by (split; [reflexivity | by repeat constructor]).
  split; [exact H|]. split; [exact H'|]. split; [lia|].
  apply (splurge_preserves_column_sums 2 [[1; 2]; [3; 4]] [[5; 6]; [7; 8]] 0.3 1 H H'). lia.
Defined.

(** ** A missing input *)

Lemma loop_option_fails {S I : Type} (body : S -> I -> option S) (range : list I)
    (i : I) (st : S) :
  i ∈ range -> (forall st', body st' i = None) -> loop_option body range st = None.
Proof.
  intros Hi Hnone. revert st. induction range as [|j range IH]; intros st.
  - by apply elem_of_nil in Hi.
  - cbn. apply elem_of_cons in Hi as [<-|Hi].
    + by rewrite Hnone.
    + destruct (body st j); cbn; [by apply IH | done].
Qed.

(** X21. [apply_splurge_behavior] needs all six policy inputs in both inner
    dictionaries: when one of them is missing from the consumption or from
    the asset Jacobians the call raises (a [KeyError]) and returns nothing,
    whatever the other entries are. *)
Theorem apply_splurge_behavior_missing_input
    (Jacobian_Dict : loc) (h0 : heap) (d : gmap string loc) (lC lA : loc)
    (dC dA : gmap string matrix) (k : string)
    (HJ : h0 !! Jacobian_Dict = Some (NestedDict d))
    (HC : d !! "C" = Some lC) (HA : d !! "A" = Some lA)
    (HdC : h0 !! lC = Some (InputDict dC)) (HdA : h0 !! lA = Some (InputDict dA))
    (Hk : k ∈ splurge_inputs)
    (Hmissing : dC !! k = None \/ dA !! k = None) :
  apply_splurge_behavior Jacobian_Dict h0 = None.
Proof.
  unfold apply_splurge_behavior, getitem.
  rewrite HJ. cbn [mbind option_bind]. rewrite HC, HA. cbn [mbind option_bind].
  rewrite HdC, HdA. cbn [mbind option_bind fmap option_fmap option_map snd].
  destruct (dC !! "transfers") as [transfers|]; [|done]. cbn [mbind option_bind].
  rewrite (loop_option_fails _ _ k); [done | exact Hk |].
  intros h. unfold splurge_body.
  destruct Hmissing as [-> | HA']; [done|].
  destruct (dC !! k) as [JC|]; [|done]. cbn [mbind option_bind].
  destruct (square_b _ JC); [|done].
  destruct (setitem _ _ _ _ _); [|done]. cbn [mbind option_bind].
  by rewrite HA'.
Qed.

(** X21, on the sample store with the wage Jacobian taken out of the asset
    dictionary. *)
Lemma apply_splurge_behavior_missing_input_witness :
  sample_heap_without_w !! 1%positive
    = Some (NestedDict (list_to_map [("C", 2%positive); ("A", 3%positive)])) /\
  (list_to_map [("C", 2%positive); ("A", 3%positive)] : gmap string loc) !! "C"
    = Some 2%positive /\
  (list_to_map [("C", 2%positive); ("A", 3%positive)] : gmap string loc) !! "A"
    = Some 3%positive /\
  sample_heap_without_w !! 2%positive = Some (InputDict (sample_inner [[1; 2]; [3; 4]])) /\
  sample_heap_without_w !! 3%positive
    = Some (InputDict (delete "w" (sample_inner [[5; 6]; [7; 8]]))) /\
  "w" ∈ splurge_inputs /\
  (sample_inner [[1; 2]; [3; 4]] !! "w" = None \/
   delete "w" (sample_inner [[5; 6]; [7; 8]]) !! "w" = None) /\
  apply_splurge_behavior 1%positive sample_heap_without_w = None.
Proof.
  assert (Hw : "w" ∈ splurge_inputs) by (unfold splurge_inputs; in_list).
  assert (Hm : sample_inner [[1; 2]; [3; 4]] !! "w" = None \/
               delete "w" (sample_inner [[5; 6]; [7; 8]]) !! "w" = None)
    by (right; apply lookup_delete_eq).
  split; [reflexivity|]. split; [reflexivity|]. split; [reflexivity|].
  split; [reflexivity|]. split; [reflexivity|]. split; [exact Hw|]. split; [exact Hm|].
  apply (apply_splurge_behavior_missing_input 1%positive sample_heap_without_w
           (list_to_map [("C", 2%positive); ("A", 3%positive)]) 2%positive 3%positive
           (sample_inner [[1; 2]; [3; 4]]) (delete "w" (sample_inner [[5; 6]; [7; 8]])) "w");
    first [reflexivity | assumption].
Defined.

(** ** [compute_fiscal_multipliers]: failures, unused solves, horizons *)

(** What [compute_fiscal_multipliers] evaluates once the three shock paths
    are built: the nine solves that are used, the loop, the summary, the
    result. *)
Lemma compute_fiscal_multipliers_eq
    (SS : gmap string pyval)
    (solve : list Block.t -> gmap string pyval -> list string -> list string ->
             gmap string vec -> gmap string vec)
    (horizon_length : nat) (param_overrides : gmap string pyval)
    (log : list solve_call) :
  int_or_absent param_overrides "UI_extension_length" ->
  int_or_absent param_overrides "tax_cut_length" ->
  let ssU := overridden_ss SS param_overrides in
  let ssX := overridden_ss_tax SS param_overrides in
  let shU : gmap string vec :=
    {[ "UI_extend" := shock_path (override_length param_overrides "UI_extension_length"
                                    UI_extension_length) 0.2 ]} in
  let shT : gmap string vec :=
    {[ "transfers" := shock_path stimulus_check_length (C_ss * 0.05) ]} in
  let shX : gmap string vec :=
    {[ "tau" := shock_path (override_length param_overrides "tax_cut_length"
                              tax_cut_length) (-0.02) ]} in
  let iU := solve HANK_SAM ssU ["theta"; "r_ante"] ["asset_mkt"; "fisher_resid"] shU in
  let iUN := solve HANK_SAM (<["phi_pi" := PyFloat 0]> ssU) ["theta"; "r_ante"]
               ["asset_mkt"; "fisher_resid"] shU in
  let iUR := solve HANK_SAM_fixed_real_rate ssU ["theta"] ["asset_mkt"] shU in
  let iT := solve HANK_SAM ssU ["theta"; "r_ante"] ["asset_mkt"; "fisher_resid"] shT in
  let iTN := solve HANK_SAM (<["phi_pi" := PyFloat 0]> ssU) ["theta"; "r_ante"]
               ["asset_mkt"; "fisher_resid"] shT in
  let iTR := solve HANK_SAM_fixed_real_rate ssU ["theta"] ["asset_mkt"] shT in
  let iX := solve HANK_SAM_tax_rate_shock ssX ["theta"; "r_ante"]
              ["asset_mkt"; "fisher_resid"] shX in
  let iXN := solve HANK_SAM_tax_rate_shock (<["phi_pi" := PyFloat 0]> ssX)
               ["theta"; "r_ante"] ["asset_mkt"; "fisher_resid"] shX in
  let iXR := solve HANK_SAM_tax_cut_fixed_real_rate ssX ["theta"] ["asset_mkt"] shX in
  compute_fiscal_multipliers SS solve horizon_length param_overrides log =
    env ← loop_option (multipliers_body iT iU iX iTN iUN iXN iTR iUR iXR)
            (seq 0 horizon_length) (multipliers_init horizon_length);
    _ ← print_summary iT iU iX iTN iUN iXN iTR iUR iXR;
    let arr name := default [] (env !! name) in
    Some ({| multipliers :=
               <["tax_cut_fixed_real" := arr "multipliers_tax_cut_fixed_real_rate"]>
               (<["UI_extend_fixed_real" := arr "multipliers_UI_extensions_fixed_real_rate"]>
               (<["transfers_fixed_real" := arr "multipliers_transfers_fixed_real_rate"]>
               (<["tax_cut_fixed_nominal" := arr "multipliers_tax_cut_fixed_nominal_rate"]>
               (<["UI_extend_fixed_nominal" :=
                    arr "multipliers_UI_extensions_fixed_nominal_rate"]>
               (<["transfers_fixed_nominal" :=
                    arr "multipliers_transfers_fixed_nominal_rate"]>
               (<["tax_cut" := arr "multipliers_tax_cut"]>
               (<["UI_extend" := arr "multipliers_UI_extend"]>
               (<["transfers" := arr "multipliers_transfers"]> ∅))))))));
             irfs :=
               <["tau_fixed_real" := iXR]>
               (<["tau_fixed_nominal" := iXN]>
               (<["tau" := iX]>
               (<["transfer_fixed_real" := iTR]>
               (<["transfer_fixed_nominal" := iTN]>
               (<["transfer" := iT]>
               (<["UI_extend_fixed_real" := iUR]>
               (<["UI_extend_fixed_nominal" := iUN]>
               (<["UI_extend" := iU]> ∅)))))))) |},
          ((log ++ ui_extension_calls ssU shU) ++ transfer_calls ssU shT)
            ++ tax_cut_calls ssX shX).
Proof.
  intros Hui Htax. cbv zeta.
  unfold compute_fiscal_multipliers, tbind.
  pose proof (run_ui_extension_experiments_eq SS solve (Some param_overrides) log Hui) as E1.
  cbv zeta in E1. rewrite E1. clear E1.
  cbn [default from_option id].
  pose proof (run_transfer_experiments_eq SS solve (Some param_overrides)
                (log ++ ui_extension_calls (overridden_ss SS param_overrides)
                   {[ "UI_extend" := shock_path (override_length param_overrides
                         "UI_extension_length" UI_extension_length) 0.2 ]})) as E2.
  cbv zeta in E2. cbn [default from_option id] in E2. rewrite E2. clear E2.
  match goal with |- context [run_tax_cut_experiments _ _ _ ?l] =>
    pose proof (run_tax_cut_experiments_eq SS solve (Some param_overrides) l Htax) as E3
  end.
  cbv zeta in E3. cbn [default from_option id] in E3. rewrite E3. clear E3.
  unfold tlift, tret.
  destruct (loop_option _ _ _) as [env|]; [|done]. cbn [mbind option_bind].
  destruct (print_summary _ _ _ _ _ _ _ _ _) as [[]|]; done.
Qed.

(** A float length override stops the experiment that slices with it. *)
Lemma run_ui_extension_experiments_float
    (SS : gmap string pyval)
    (solve : list Block.t -> gmap string pyval -> list string -> list string ->
             gmap string vec -> gmap string vec)
    (param_overrides : gmap string pyval) (q : Q) (log : list solve_call) :
  param_overrides !! "UI_extension_length" = Some (PyFloat q) ->
  run_ui_extension_experiments SS solve (Some param_overrides) log = None.
Proof.
  intros H. unfold run_ui_extension_experiments, tbind, tlift, dict_get.
  cbn [default from_option id]. by rewrite H.
Qed.

Lemma run_tax_cut_experiments_float
    (SS : gmap string pyval)
    (solve : list Block.t -> gmap string pyval -> list string -> list string ->
             gmap string vec -> gmap string vec)
    (param_overrides : gmap string pyval) (q : Q) (log : list solve_call) :
  param_overrides !! "tax_cut_length" = Some (PyFloat q) ->
  run_tax_cut_experiments SS solve (Some param_overrides) log = None.
Proof.
  intros H. unfold run_tax_cut_experiments, tbind, tlift, dict_get.
  cbn [default from_option id]. by rewrite H.
Qed.

Lemma int_or_absent_dec (param_overrides : gmap string pyval) (key : string) :
  int_or_absent param_overrides key \/
  exists q, param_overrides !! key = Some (PyFloat q).
Proof.
  unfold int_or_absent. destruct (param_overrides !! key) as [[z|q]|]; eauto.
Qed.

Lemma compute_fiscal_multipliers_float
    (SS : gmap string pyval)
    (solve : list Block.t -> gmap string pyval -> list string -> list string ->
             gmap string vec -> gmap string vec)
    (horizon_length : nat) (param_overrides : gmap string pyval) (log : list solve_call) :
  (exists q, param_overrides !! "UI_extension_length" = Some (PyFloat q)) \/
  (exists q, param_overrides !! "tax_cut_length" = Some (PyFloat q)) ->
  compute_fiscal_multipliers SS solve horizon_length param_overrides log = None.
Proof.
  intros H.
  destruct (int_or_absent_dec param_overrides "UI_extension_length") as [Hui|[q Hq]].
  - destruct H as [[q Hq]|[q Hq]].
    { unfold int_or_absent in Hui. by rewrite Hq in Hui. }
    unfold compute_fiscal_multipliers, tbind.
    pose proof (run_ui_extension_experiments_eq SS solve (Some param_overrides) log Hui) as E1.
    cbv zeta in E1. rewrite E1. clear E1.
    match goal with |- context [run_transfer_experiments _ _ _ ?l] =>
      pose proof (run_transfer_experiments_eq SS solve (Some param_overrides) l) as E2
    end.
    cbv zeta in E2. rewrite E2. clear E2.
    by rewrite (run_tax_cut_experiments_float SS solve param_overrides q).
  - unfold compute_fiscal_multipliers, tbind.
    by rewrite (run_ui_extension_experiments_float SS solve param_overrides q).
Qed.

(** X22. A length override given as a float stops [compute_fiscal_multipliers]:
    [UI_extension_length] and [tax_cut_length] are used as slice bounds, a
    float bound raises a [TypeError], and no result is returned, whatever the
    solver, the horizon and the other overrides; the transfer experiment,
    whose length is not read from the overrides, runs for every mapping. *)
Theorem float_length_override_raises
    (SS : gmap string pyval)
    (solve : list Block.t -> gmap string pyval -> list string -> list string ->
             gmap string vec -> gmap string vec)
    (horizon_length : nat) (param_overrides : gmap string pyval) (log : list solve_call) :
  ((exists q, param_overrides !! "UI_extension_length" = Some (PyFloat q)) \/
   (exists q, param_overrides !! "tax_cut_length" = Some (PyFloat q)) ->
   compute_fiscal_multipliers SS solve horizon_length param_overrides log = None) /\
  ((exists q, param_overrides !! "UI_extension_length" = Some (PyFloat q)) ->
   run_ui_extension_experiments SS solve (Some param_overrides) log = None) /\
  ((exists q, param_overrides !! "tax_cut_length" = Some (PyFloat q)) ->
   run_tax_cut_experiments SS solve (Some param_overrides) log = None) /\
  is_Some (run_transfer_experiments SS solve (Some param_overrides) log).
Proof.
  split; [apply compute_fiscal_multipliers_float|].
  split; [intros [q Hq]; by eapply run_ui_extension_experiments_float|].
  split; [intros [q Hq]; by eapply run_tax_cut_experiments_float|].
  pose proof (run_transfer_experiments_eq SS solve (Some param_overrides) log) as E.
  cbv zeta in E. by rewrite E.
Qed.

(** X23. The horizon cannot exceed the length of the impulse responses: for a
    solver that returns paths of 300 periods, a [horizon_length] above 300
    makes the loop read [irf["C"][300]] and raise; no result is returned. *)
Theorem horizon_beyond_the_paths_raises
    (SS : gmap string pyval)
    (solve : list Block.t -> gmap string pyval -> list string -> list string ->
             gmap string vec -> gmap string vec)
    (horizon_length : nat) (param_overrides : gmap string pyval)
    (log : list solve_call)
    (Hsolve : solver_contract solve) (Hh : (300 < horizon_length)%nat) :
  compute_fiscal_multipliers SS solve horizon_length param_overrides log = None.
Proof.
  destruct (int_or_absent_dec param_overrides "UI_extension_length") as [Hui|Hq];
    [|apply compute_fiscal_multipliers_float; by left].
  destruct (int_or_absent_dec param_overrides "tax_cut_length") as [Htax|Hq];
    [|apply compute_fiscal_multipliers_float; by right].
  pose proof (compute_fiscal_multipliers_eq SS solve horizon_length param_overrides log
                Hui Htax) as E.
  cbv zeta in E. rewrite E. clear E.
  rewrite (loop_option_fails _ _ 300%nat); [done | apply elem_of_seq; lia |].
  intros env. unfold multipliers_body, NPV_ratio.
  destruct (Hsolve HANK_SAM (<["phi_pi" := PyFloat 0]> (overridden_ss SS param_overrides))
              ["theta"; "r_ante"] ["asset_mkt"; "fisher_resid"]
              {[ "transfers" := shock_path stimulus_check_length (C_ss * 0.05) ]})
    as ((c & Hc & Hlc) & _).
  rewrite Hc. cbn [mbind option_bind].
  rewrite (NPV_past_the_end c (300 + 1)); [reflexivity|]. rewrite Hlc. unfold bigT. lia.
Qed.

(** X24. Two of the eleven solves never reach the result: the impulse
    responses of the lagged Taylor rule (transfer experiment) and of the
    UI-extension realisations model are computed and dropped, so two solvers
    that agree on every other model give the same multipliers, the same
    impulse responses and the same log of calls. *)
Theorem lagged_and_realization_solves_are_unused
    (SS : gmap string pyval)
    (solve1 solve2 : list Block.t -> gmap string pyval -> list string -> list string ->
                     gmap string vec -> gmap string vec)
    (horizon_length : nat) (param_overrides : gmap string pyval)
    (log : list solve_call)
    (Hagree : forall model ss unknowns targets shocks,
        model <> HANK_SAM_lagged_taylor_rule ->
        model <> HANK_SAM_fixed_real_rate_UI_extend_real ->
        solve1 model ss unknowns targets shocks = solve2 model ss unknowns targets shocks) :
  compute_fiscal_multipliers SS solve1 horizon_length param_overrides log =
  compute_fiscal_multipliers SS solve2 horizon_length param_overrides log.
Proof.
  destruct (int_or_absent_dec param_overrides "UI_extension_length") as [Hui|Hq];
    [|rewrite !compute_fiscal_multipliers_float by (by left); done].
  destruct (int_or_absent_dec param_overrides "tax_cut_length") as [Htax|Hq];
    [|rewrite !compute_fiscal_multipliers_float by (by right); done].
  pose proof (compute_fiscal_multipliers_eq SS solve1 horizon_length param_overrides log
                Hui Htax) as E1.
  pose proof (compute_fiscal_multipliers_eq SS solve2 horizon_length param_overrides log
                Hui Htax) as E2.
  cbv zeta in E1, E2. rewrite E1, E2. clear E1 E2.
  assert (H1 : HANK_SAM <> HANK_SAM_lagged_taylor_rule) by discriminate.
  assert (H2 : HANK_SAM <> HANK_SAM_fixed_real_rate_UI_extend_real) by discriminate.
  assert (H3 : HANK_SAM_fixed_real_rate <> HANK_SAM_lagged_taylor_rule) by discriminate.
  assert (H4 : HANK_SAM_fixed_real_rate <> HANK_SAM_fixed_real_rate_UI_extend_real)
    by discriminate.
  assert (H5 : HANK_SAM_tax_rate_shock <> HANK_SAM_lagged_taylor_rule) by discriminate.
  assert (H6 : HANK_SAM_tax_rate_shock <> HANK_SAM_fixed_real_rate_UI_extend_real)
    by discriminate.
  assert (H7 : HANK_SAM_tax_cut_fixed_real_rate <> HANK_SAM_lagged_taylor_rule)
    by discriminate.
  assert (H8 : HANK_SAM_tax_cut_fixed_real_rate <> HANK_SAM_fixed_real_rate_UI_extend_real)
    by discriminate.
  rewrite !(Hagree HANK_SAM) by done.
  rewrite !(Hagree HANK_SAM_fixed_real_rate) by done.
  rewrite !(Hagree HANK_SAM_tax_rate_shock) by done.
  rewrite !(Hagree HANK_SAM_tax_cut_fixed_real_rate) by done.
  reflexivity.
Qed.

(** X23, on the sample solver with a horizon of 301 quarters. *)
Lemma horizon_beyond_the_paths_raises_witness :
  solver_contract sample_solve /\ (300 < 301)%nat /\
  compute_fiscal_multipliers SteadyState_Dict_literals sample_solve 301 sample_overrides []
    = None.
Proof.
  split; [exact sample_solve_contract|]. split; [lia|].
  apply (horizon_beyond_the_paths_raises SteadyState_Dict_literals sample_solve 301
           sample_overrides [] sample_solve_contract). lia.
Defined.

Lemma sample_solve_nine_agrees (model : list Block.t) (ss : gmap string pyval)
    (unknowns targets : list string) (shocks : gmap string vec) :
  model <> HANK_SAM_lagged_taylor_rule ->
  model <> HANK_SAM_fixed_real_rate_UI_extend_real ->
  sample_solve model ss unknowns targets shocks =
  sample_solve_nine model ss unknowns targets shocks.
Proof. intros H1 H2. unfold sample_solve_nine. case_decide; [tauto | done]. Qed.

(** X24, on the sample solver and the solver that returns nothing for the two
    models. *)
Lemma lagged_and_realization_solves_are_unused_witness :
  (forall model ss unknowns targets shocks,
      model <> HANK_SAM_lagged_taylor_rule ->
      model <> HANK_SAM_fixed_real_rate_UI_extend_real ->
      sample_solve model ss unknowns targets shocks =
      sample_solve_nine model ss unknowns targets shocks) /\
  sample_solve HANK_SAM_lagged_taylor_rule ∅ [] [] ∅ <>
    sample_solve_nine HANK_SAM_lagged_taylor_rule ∅ [] [] ∅ /\
  compute_fiscal_multipliers SteadyState_Dict_literals sample_solve 2 sample_overrides [] =
  compute_fiscal_multipliers SteadyState_Dict_literals sample_solve_nine 2
    sample_overrides [].
Proof.
  split; [exact sample_solve_nine_agrees|]. split.
  - intros E. apply (f_equal (fun m => m !! "C")) in E. by vm_compute in E.
  - apply (lagged_and_realization_solves_are_unused SteadyState_Dict_literals
             sample_solve sample_solve_nine 2 sample_overrides []
             sample_solve_nine_agrees).
Defined.

(** *** A shorter horizon *)

Lemma loop_option_app {S I : Type} (body : S -> I -> option S) (l1 l2 : list I) (st : S) :
  loop_option body (l1 ++ l2) st = st' ← loop_option body l1 st; loop_option body l2 st'.
Proof.
  revert st. induction l1 as [|j l1 IH]; intros st; cbn; [done|].
  destruct (body st j); cbn; [apply IH | done].
Qed.

Lemma assign_take_lt (h : nat) (name : string) (i : nat) (v : Q) (env : gmap string vec) :
  (i < h)%nat ->
  assign name i v (take h <$> env) = take h <$> assign name i v env.
Proof.
  intros Hi. unfold assign. symmetry. apply fmap_alter.
  intros arr _. by apply take_insert_lt.
Qed.

Lemma assign_take_ge (h : nat) (name : string) (i : nat) (v : Q) (env : gmap string vec) :
  (h <= i)%nat -> take h <$> assign name i v env = take h <$> env.
Proof.
  intros Hi. unfold assign.
  rewrite (fmap_alter (take h) _ id) by (intros arr _; by apply take_insert_ge).
  apply map_eq. intros k. destruct (decide (name = k)) as [->|Hne].
  - rewrite lookup_alter_eq. by destruct (_ !! k).
  - by rewrite lookup_alter_ne.
Qed.

Lemma assign_all_take_lt (h i : nat) (l : list (string * option Q))
    (env env1 : gmap string vec) :
  (i < h)%nat -> assign_all i l env = Some env1 ->
  assign_all i l (take h <$> env) = Some (take h <$> env1).
Proof.
  intros Hi. revert env. induction l as [|[name o] l IH]; intros env H; cbn in *.
  - by injection H as <-.
  - destruct o as [v|]; [|done]. cbn in *. rewrite assign_take_lt by done. by apply IH.
Qed.

Lemma assign_all_take_ge (h i : nat) (l : list (string * option Q))
    (env env1 : gmap string vec) :
  (h <= i)%nat -> assign_all i l env = Some env1 ->
  take h <$> env1 = take h <$> env.
Proof.
  intros Hi. revert env. induction l as [|[name o] l IH]; intros env H; cbn in *.
  - by injection H as <-.
  - destruct o as [v|]; [|done]. cbn in *. rewrite (IH _ H). by apply assign_take_ge.
Qed.

Lemma loop_assign_take_lt (L : nat -> list (string * option Q)) (h : nat)
    (range : list nat) (env env1 : gmap string vec) :
  Forall (fun i => (i < h)%nat) range ->
  loop_option (fun env i => assign_all i (L i) env) range env = Some env1 ->
  loop_option (fun env i => assign_all i (L i) env) range (take h <$> env)
    = Some (take h <$> env1).
Proof.
  intros Hr. revert env. induction Hr as [|i range Hi _ IH]; intros env H; cbn in *.
  - by injection H as <-.
  - destruct (assign_all i (L i) env) as [env'|] eqn:E; [|done]. cbn in *.
    rewrite (assign_all_take_lt h i _ _ _ Hi E). cbn. by apply IH.
Qed.

Lemma loop_assign_take_ge (L : nat -> list (string * option Q)) (h : nat)
    (range : list nat) (env env1 : gmap string vec) :
  Forall (fun i => (h <= i)%nat) range ->
  loop_option (fun env i => assign_all i (L i) env) range env = Some env1 ->
  take h <$> env1 = take h <$> env.
Proof.
  intros Hr. revert env. induction Hr as [|i range Hi _ IH]; intros env H; cbn in *.
  - by injection H as <-.
  - destruct (assign_all i (L i) env) as [env'|] eqn:E; [|done]. cbn in *.
    rewrite (IH _ H). by eapply assign_all_take_ge.
Qed.

Lemma multipliers_init_take (h h' : nat) :
  (h <= h')%nat -> take h <$> multipliers_init h' = multipliers_init h.
Proof.
  intros Hle. unfold multipliers_init. cbv zeta.
  rewrite !fmap_insert, fmap_empty, take_replicate.
  by replace (h `min` h')%nat with h by lia.
Qed.

Lemma seq_from (n m : nat) : Forall (fun i => (n <= i)%nat) (seq n m).
Proof. apply Forall_forall. intros i Hi%elem_of_seq. lia. Qed.

(** The loop of a shorter horizon leaves the leading cells of the loop of a
    longer one. *)
Lemma multipliers_loop_take
    (i1 i2 i3 i4 i5 i6 i7 i8 i9 : gmap string vec) (h h' : nat) (env' : gmap string vec) :
  (h <= h')%nat ->
  loop_option (multipliers_body i1 i2 i3 i4 i5 i6 i7 i8 i9) (seq 0 h')
    (multipliers_init h') = Some env' ->
  loop_option (multipliers_body i1 i2 i3 i4 i5 i6 i7 i8 i9) (seq 0 h)
    (multipliers_init h) = Some (take h <$> env').
Proof.
  intros Hle.
  set (L := fun i : nat =>
    [ ("multipliers_transfers_fixed_nominal_rate",
       NPV_ratio i4 "C" "transfers" (i + 1) 300);
      ("multipliers_UI_extensions_fixed_nominal_rate",
       NPV_ratio i5 "C" "UI_extension_cost" (i + 1) 300);
      ("multipliers_tax_cut_fixed_nominal_rate",
       neg_NPV_ratio i6 "C" "tax_cost" (i + 1) 300);
      ("multipliers_transfers", NPV_ratio i1 "C" "transfers" (i + 1) 300);
      ("multipliers_UI_extend", NPV_ratio i2 "C" "UI_extension_cost" (i + 1) 300);
      ("multipliers_tax_cut", neg_NPV_ratio i3 "C" "tax_cost" (i + 1) 300);
      ("multipliers_transfers_fixed_real_rate",
       NPV_ratio i7 "C" "transfers" (i + 1) 300);
      ("multipliers_UI_extensions_fixed_real_rate",
       NPV_ratio i8 "C" "UI_extension_cost" (i + 1) 300);
      ("multipliers_tax_cut_fixed_real_rate",
       neg_NPV_ratio i9 "C" "tax_cost" (i + 1) 300) ]).
  change (multipliers_body i1 i2 i3 i4 i5 i6 i7 i8 i9)
    with (fun env i => assign_all i (L i) env).
  replace h' with (h + (h' - h))%nat at 1 by lia.
  rewrite seq_app, loop_option_app. cbn [plus].
  destruct (loop_option _ (seq 0 h) (multipliers_init h')) as [env1|] eqn:E1; [|done].
  cbn [mbind option_bind]. intros E2.
  rewrite <- (multipliers_init_take h h' Hle).
  rewrite (loop_assign_take_lt L h _ _ _ (seq_below h h (le_n h)) E1).
  f_equal. symmetry. apply (loop_assign_take_ge L h _ _ _ (seq_from h (h' - h)) E2).
Qed.

(** For a solver that returns the series the multipliers read, the call
    returns. *)
Lemma compute_fiscal_multipliers_returns
    (SS : gmap string pyval)
    (solve : list Block.t -> gmap string pyval -> list string -> list string ->
             gmap string vec -> gmap string vec)
    (horizon_length : nat) (param_overrides : gmap string pyval)
    (log : list solve_call) :
  solver_contract solve -> (horizon_length <= 300)%nat ->
  int_or_absent param_overrides "UI_extension_length" ->
  int_or_absent param_overrides "tax_cut_length" ->
  exists res log',
    compute_fiscal_multipliers SS solve horizon_length param_overrides log
      = Some (res, log').
Proof.
  intros Hsolve Hh Hui Htax.
  pose proof (compute_fiscal_multipliers_eq SS solve horizon_length param_overrides log
                Hui Htax) as E.
  cbv zeta in E. rewrite E. clear E.
  set (ssU := overridden_ss SS param_overrides).
  set (ssX := overridden_ss_tax SS param_overrides).
  set (shU := ({[ "UI_extend" := _ ]} : gmap string vec)).
  set (shT := ({[ "transfers" := _ ]} : gmap string vec)).
  set (shX := ({[ "tau" := _ ]} : gmap string vec)).
  set (log3 := (_ ++ tax_cut_calls ssX shX)).
  set (iU := solve HANK_SAM ssU _ _ shU).
  set (iUN := solve HANK_SAM (<["phi_pi" := _]> ssU) _ _ shU).
  set (iUR := solve HANK_SAM_fixed_real_rate ssU _ _ shU).
  set (iT := solve HANK_SAM ssU _ _ shT).
  set (iTN := solve HANK_SAM (<["phi_pi" := _]> ssU) _ _ shT).
  set (iTR := solve HANK_SAM_fixed_real_rate ssU _ _ shT).
  set (iX := solve HANK_SAM_tax_rate_shock ssX _ _ shX).
  set (iXN := solve HANK_SAM_tax_rate_shock (<["phi_pi" := _]> ssX) _ _ shX).
  set (iXR := solve HANK_SAM_tax_cut_fixed_real_rate ssX _ _ shX).
  assert (HshT : is_Some (shT !! "transfers")) by (unfold shT; by simplify_map_eq).
  destruct (Hsolve HANK_SAM ssU ["theta"; "r_ante"] ["asset_mkt"; "fisher_resid"] shU)
    as (HUC & HUY & _ & HUc & _). fold iU in HUC, HUY, HUc.
  destruct (Hsolve HANK_SAM (<["phi_pi" := PyFloat 0]> ssU) ["theta"; "r_ante"]
              ["asset_mkt"; "fisher_resid"] shU)
    as (HUNC & HUNY & _ & HUNc & _). fold iUN in HUNC, HUNY, HUNc.
  destruct (Hsolve HANK_SAM_fixed_real_rate ssU ["theta"] ["asset_mkt"] shU)
    as (HURC & HURY & _ & HURc & _). fold iUR in HURC, HURY, HURc.
  destruct (Hsolve HANK_SAM ssU ["theta"; "r_ante"] ["asset_mkt"; "fisher_resid"] shT)
    as (HTC & HTY & HTc & _). fold iT in HTC, HTY, HTc.
  destruct (Hsolve HANK_SAM (<["phi_pi" := PyFloat 0]> ssU) ["theta"; "r_ante"]
              ["asset_mkt"; "fisher_resid"] shT)
    as (HTNC & HTNY & HTNc & _). fold iTN in HTNC, HTNY, HTNc.
  destruct (Hsolve HANK_SAM_fixed_real_rate ssU ["theta"] ["asset_mkt"] shT)
    as (HTRC & HTRY & HTRc & _). fold iTR in HTRC, HTRY, HTRc.
  destruct (Hsolve HANK_SAM_tax_rate_shock ssX ["theta"; "r_ante"]
              ["asset_mkt"; "fisher_resid"] shX)
    as (HXC & HXY & _ & _ & HXc). fold iX in HXC, HXY, HXc.
  destruct (Hsolve HANK_SAM_tax_rate_shock (<["phi_pi" := PyFloat 0]> ssX)
              ["theta"; "r_ante"] ["asset_mkt"; "fisher_resid"] shX)
    as (HXNC & HXNY & _ & _ & HXNc). fold iXN in HXNC, HXNY, HXNc.
  destruct (Hsolve HANK_SAM_tax_cut_fixed_real_rate ssX ["theta"] ["asset_mkt"] shX)
    as (HXRC & HXRY & _ & _ & HXRc). fold iXR in HXRC, HXRY, HXRc.
  specialize (HUc ltac:(left; in_model)). specialize (HUNc ltac:(left; in_model)).
  specialize (HURc ltac:(right; in_model)).
  specialize (HTc "transfers" HshT). specialize (HTNc "transfers" HshT).
  specialize (HTRc "transfers" HshT).
  specialize (HXc ltac:(left; in_model)). specialize (HXNc ltac:(left; in_model)).
  specialize (HXRc ltac:(right; in_model)).
  clearbody iU iUN iUR iT iTN iTR iX iXN iXR. clearbody log3.
  clear dependent shU. clear dependent shT. clear dependent shX.
  set (names := ["multipliers_transfers_fixed_nominal_rate";
                 "multipliers_UI_extensions_fixed_nominal_rate";
                 "multipliers_tax_cut_fixed_nominal_rate";
                 "multipliers_transfers"; "multipliers_UI_extend"; "multipliers_tax_cut";
                 "multipliers_transfers_fixed_real_rate";
                 "multipliers_UI_extensions_fixed_real_rate";
                 "multipliers_tax_cut_fixed_real_rate"]).
  set (L := fun i : nat =>
    [ ("multipliers_transfers_fixed_nominal_rate",
       NPV_ratio iTN "C" "transfers" (i + 1) 300);
      ("multipliers_UI_extensions_fixed_nominal_rate",
       NPV_ratio iUN "C" "UI_extension_cost" (i + 1) 300);
      ("multipliers_tax_cut_fixed_nominal_rate",
       neg_NPV_ratio iXN "C" "tax_cost" (i + 1) 300);
      ("multipliers_transfers", NPV_ratio iT "C" "transfers" (i + 1) 300);
      ("multipliers_UI_extend", NPV_ratio iU "C" "UI_extension_cost" (i + 1) 300);
      ("multipliers_tax_cut", neg_NPV_ratio iX "C" "tax_cost" (i + 1) 300);
      ("multipliers_transfers_fixed_real_rate",
       NPV_ratio iTR "C" "transfers" (i + 1) 300);
      ("multipliers_UI_extensions_fixed_real_rate",
       NPV_ratio iUR "C" "UI_extension_cost" (i + 1) 300);
      ("multipliers_tax_cut_fixed_real_rate",
       neg_NPV_ratio iXR "C" "tax_cost" (i + 1) 300) ]).
  change (multipliers_body iT iU iX iTN iUN iXN iTR iUR iXR)
    with (fun env i => assign_all i (L i) env).
  assert (Hratio : forall irf cost i, irf_has irf "C" -> irf_has irf cost ->
            (i < horizon_length)%nat ->
            is_Some (NPV_ratio irf "C" cost (i + 1) 300) /\
            is_Some (neg_NPV_ratio irf "C" cost (i + 1) 300)).
  { intros irf cost i HC Hcost Hi.
    destruct (NPV_ratio_spec irf "C" cost (i + 1) 300 HC Hcost)
      as (? & ? & ? & ? & _ & _ & _ & _ & _ & _ & -> & ->); [unfold bigT; lia..|].
    done. }
  destruct (loop_assign_all L names horizon_length horizon_length
              (multipliers_init horizon_length)) as (env & Hloop & Henv).
  { apply (bool_decide_unpack _). by vm_compute. }
  { done. }
  { intros i Hi. unfold L. repeat apply Forall_cons_2; try apply Forall_nil_2;
      cbn [snd]; by apply Hratio. }
  { done. }
  { apply multipliers_init_lookup. }
  rewrite Hloop. cbn [mbind option_bind].
  assert (Hprint : print_summary iT iU iX iTN iUN iXN iTR iUR iXR = Some ()).
  { assert (Hy : forall irf cost, irf_has irf "Y" -> irf_has irf cost ->
                  is_Some (NPV_ratio irf "Y" cost bigT bigT)).
    { intros irf cost HY Hcost.
      destruct (NPV_ratio_spec irf "Y" cost bigT bigT HY Hcost)
        as (? & ? & ? & ? & _ & _ & _ & _ & _ & _ & -> & _); done. }
    unfold print_summary.
    destruct (Hy iU "UI_extension_cost") as [? ->]; [done..|].
    destruct (Hy iUN "UI_extension_cost") as [? ->]; [done..|].
    destruct (Hy iUR "UI_extension_cost") as [? ->]; [done..|].
    destruct (Hy iT "transfers") as [? ->]; [done..|].
    destruct (Hy iTN "transfers") as [? ->]; [done..|].
    destruct (Hy iTR "transfers") as [? ->]; [done..|].
    destruct (Hy iX "tax_cost") as [? ->]; [done..|].
    destruct (Hy iXN "tax_cost") as [? ->]; [done..|].
    destruct (Hy iXR "tax_cost") as [? ->]; [done..|].
    done. }
  rewrite Hprint. cbn [mbind option_bind].
  eexists _, _. reflexivity.
Qed.

(** X25. The multipliers of a shorter horizon are the leading cells of those
    of a longer one: when [compute_fiscal_multipliers] returns for
    [horizon_length = h'], it returns for every [h <= h'], with the same
    impulse responses and the same solver calls, and each of the nine
    multiplier arrays is the array of the longer run cut to its first [h]
    cells. *)
Theorem shorter_horizon_is_a_prefix
    (SS : gmap string pyval)
    (solve : list Block.t -> gmap string pyval -> list string -> list string ->
             gmap string vec -> gmap string vec)
    (h h' : nat) (param_overrides : gmap string pyval)
    (log log' : list solve_call) (res' : fiscal_result)
    (Hle : (h <= h')%nat)
    (Hrun : compute_fiscal_multipliers SS solve h' param_overrides log = Some (res', log')) :
  exists res,
    compute_fiscal_multipliers SS solve h param_overrides log = Some (res, log') /\
    irfs res = irfs res' /\
    multipliers res = take h <$> multipliers res'.
Proof.
  destruct (int_or_absent_dec param_overrides "UI_extension_length") as [Hui|Hq];
    [|rewrite compute_fiscal_multipliers_float in Hrun by (by left); done].
  destruct (int_or_absent_dec param_overrides "tax_cut_length") as [Htax|Hq];
    [|rewrite compute_fiscal_multipliers_float in Hrun by (by right); done].
  pose proof (compute_fiscal_multipliers_eq SS solve h param_overrides log Hui Htax) as E.
  pose proof (compute_fiscal_multipliers_eq SS solve h' param_overrides log Hui Htax) as E'.
  cbv zeta in E, E'. rewrite E. rewrite E' in Hrun. clear E E'.
  destruct (loop_option _ (seq 0 h') _) as [env'|] eqn:Hloop; [|done].
  rewrite (multipliers_loop_take _ _ _ _ _ _ _ _ _ h h' env' Hle Hloop).
  cbn [mbind option_bind] in Hrun |- *.
  destruct (print_summary _ _ _ _ _ _ _ _ _) as [[]|]; [|done].
  cbn [mbind option_bind] in Hrun |- *.
  injection Hrun as <- <-.
  eexists. split; [reflexivity|]. cbn [multipliers irfs]. split; [reflexivity|].
  assert (Harr : forall name,
            default [] ((take h <$> env') !! name) = take h (default [] (env' !! name))).
  { intros name. rewrite lookup_fmap. destruct (env' !! name); [done|]. cbn.
    by rewrite take_nil. }
  rewrite !fmap_insert, fmap_empty, !Harr. reflexivity.
Qed.

(** X25, on the sample solver: one quarter out of two. *)
Lemma shorter_horizon_is_a_prefix_witness :
  exists res' log',
    (1 <= 2)%nat /\
    compute_fiscal_multipliers SteadyState_Dict_literals sample_solve 2 sample_overrides []
      = Some (res', log') /\
    exists res,
      compute_fiscal_multipliers SteadyState_Dict_literals sample_solve 1 sample_overrides []
        = Some (res, log') /\
      irfs res = irfs res' /\
      multipliers res = take 1 <$> multipliers res'.
Proof.
  destruct (compute_fiscal_multipliers_returns SteadyState_Dict_literals sample_solve 2
              sample_overrides [] sample_solve_contract ltac:(lia)
              sample_overrides_UI_length sample_overrides_tax_length)
    as (res' & log' & Hrun).
  exists res', log'. split; [lia|]. split; [exact Hrun|].
  apply (shorter_horizon_is_a_prefix SteadyState_Dict_literals sample_solve 1 2
           sample_overrides [] log' res'); [lia | exact Hrun].
Defined.

(** *** The sample solver: cost series with a present value *)




